(** * Connect Four (6 x 5) with minimax search: a shallow embedding

    The development follows [AI_connect_4.py] (alpha-beta search, two move
    orderings) and the functions of [FirstVersion_connect4.py] that differ
    from it.  Python lists are Rocq lists read with Python's indexing rules
    (negative indices count from the end, an index out of range raises
    [IndexError]); a raised [IndexError] is the [None] of the option monad.
    Times are Python floats: IEEE 754 binary64 numbers, with the rounding
    subtraction and the comparisons of the machine. *)

From Stdlib Require Import PrimFloat SpecFloat FloatOps FloatAxioms.
From Stdlib Require Import ZArith Lia List Bool.
From stdpp Require Import base option list sorting gmap.

Local Open Scope Z_scope.

(** ** Python lists *)

Section PyList.
Context {A : Type}.

(** [l[i]]: negative indices wrap once, anything else out of range raises. *)
Definition py_index (l : list A) (i : Z) : option A :=
  let n := Z.of_nat (length l) in
  if 0 <=? i then l !! Z.to_nat i
  else if - n <=? i then l !! Z.to_nat (n + i)
  else None.

(** [l[i] = x] on a copy of [l]; same index rules as [py_index]. *)
Definition py_setitem (l : list A) (i : Z) (x : A) : option (list A) :=
  let n := Z.of_nat (length l) in
  if 0 <=? i then
    if i <? n then Some (<[Z.to_nat i := x]> l) else None
  else if - n <=? i then Some (<[Z.to_nat (n + i) := x]> l)
  else None.

(** [l[lo:hi]] never raises: both bounds are clamped to the list. *)
Definition py_clamp (n i : Z) : Z :=
  if i <? 0 then Z.max (i + n) 0 else Z.min i n.

Definition py_slice (l : list A) (lo hi : Z) : list A :=
  let n := Z.of_nat (length l) in
  let lo' := py_clamp n lo in
  let hi' := py_clamp n hi in
  take (Z.to_nat (hi' - lo')) (drop (Z.to_nat lo') l).
End PyList.

(** [range(lo, hi)] and [range(start, stop, -1)]. *)
Definition py_range (lo hi : Z) : list Z := seqZ lo (hi - lo).
Definition py_range_down (start stop : Z) : list Z :=
  reverse (seqZ (stop + 1) (start - stop)).

(** [l.count(x)] on a list of integers. *)
Definition py_count (l : list Z) (x : Z) : Z :=
  Z.of_nat (count_occ Z.eq_dec l x).

(** Short-circuit [and], loops that return [True] at the first hit, loops
    that return [False] at the first miss, and accumulating loops, all in
    the option monad. *)
Definition andM (a b : option bool) : option bool :=
  x ← a; if x : bool then b else Some false.

Definition orM (a b : option bool) : option bool :=
  x ← a; if x : bool then Some true else b.

Fixpoint existsM {A} (f : A → option bool) (l : list A) : option bool :=
  match l with
  | [] => Some false
  | x :: l' => orM (f x) (existsM f l')
  end.

Fixpoint forallM {A} (f : A → option bool) (l : list A) : option bool :=
  match l with
  | [] => Some true
  | x :: l' => andM (f x) (forallM f l')
  end.

(** [for x in l: s = body x s], with [s] the variables the loop updates. *)
Fixpoint for_each {A S} (body : A → S → option S) (l : list A) (s : S)
    : option S :=
  match l with
  | [] => Some s
  | x :: l' => s' ← body x s; for_each body l' s'
  end.

(** All pairs [(x, y)] of a nested [for x in xs: for y in ys]. *)
Definition nested {A B} (xs : list A) (ys : list B) : list (A * B) :=
  x ← xs; (λ y, (x, y)) <$> ys.

(** ** Board model *)

Definition ROWS : Z := 6.
Definition COLS : Z := 5.
Definition HUMAN_PIECE : Z := 1.
Definition AI_PIECE : Z := 2.
Definition EMPTY : Z := 0.

Abbreviation board := (list (list Z)).

Definition create_board : board :=
  (λ _, replicate (Z.to_nat COLS) EMPTY) <$> py_range 0 ROWS.

(** [board[row][col]]. *)
Definition cell (b : board) (row col : Z) : option Z :=
  r ← py_index b row; py_index r col.

Definition is_valid_move (b : board) (col : Z) : option bool :=
  c ← cell b 0 col; Some (c =? EMPTY).

Fixpoint get_valid_moves_loop (b : board) (cols : list Z)
    (valid_columns : list Z) : option (list Z) :=
  match cols with
  | [] => Some valid_columns
  | col :: cols' =>
      v ← is_valid_move b col;
      get_valid_moves_loop b cols'
        (if v : bool then valid_columns ++ [col] else valid_columns)
  end.

Definition get_valid_moves (b : board) : option (list Z) :=
  get_valid_moves_loop b (py_range 0 COLS) [].

(** [make_move] on board values: the deep copy is the value itself, the
    assignment replaces one row of the copy.  The store-level version, with
    the copy and the aliasing written out, is [Heap.make_move] below. *)
Fixpoint make_move_loop (new_board : board) (rows : list Z) (col piece : Z)
    : option board :=
  match rows with
  | [] => Some new_board
  | row :: rows' =>
      r ← py_index new_board row;
      c ← py_index r col;
      if c =? EMPTY then
        r' ← py_setitem r col piece; py_setitem new_board row r'
      else make_move_loop new_board rows' col piece
  end.

Definition make_move (b : board) (col piece : Z) : option board :=
  make_move_loop b (py_range_down (ROWS - 1) (-1)) col piece.

(** ** Terminal detector *)

Definition cell_is (b : board) (piece row col : Z) : option bool :=
  c ← cell b row col; Some (c =? piece).

(** Four cells from [(row, col)] in direction [(dr, dc)], tested left to
    right with short-circuit [and]. *)
Definition line4 (b : board) (piece : Z) (dr dc : Z) (rc : Z * Z)
    : option bool :=
  let '(row, col) := rc in
  andM (cell_is b piece row col)
    (andM (cell_is b piece (row + dr) (col + dc))
      (andM (cell_is b piece (row + 2 * dr) (col + 2 * dc))
            (cell_is b piece (row + 3 * dr) (col + 3 * dc)))).

Definition swap_pairs {A B} (l : list (A * B)) : list (B * A) :=
  (λ p, (p.2, p.1)) <$> l.

Definition check_win (b : board) (piece : Z) : option bool :=
  orM (existsM (line4 b piece 0 1)
         (nested (py_range 0 ROWS) (py_range 0 (COLS - 3))))
   (orM (existsM (line4 b piece 1 0)
         (swap_pairs (nested (py_range 0 COLS) (py_range 0 (ROWS - 3)))))
    (orM (existsM (line4 b piece 1 1)
         (nested (py_range 0 (ROWS - 3)) (py_range 0 (COLS - 3))))
         (existsM (line4 b piece (-1) 1)
         (nested (py_range 3 ROWS) (py_range 0 (COLS - 3)))))).

Definition check_tie (b : board) : option bool :=
  forallM (λ col, c ← cell b 0 col; Some (negb (c =? EMPTY)))
          (py_range 0 COLS).

Definition is_terminal_node (b : board) : option bool :=
  orM (check_win b HUMAN_PIECE) (orM (check_win b AI_PIECE) (check_tie b)).

Module FirstVersion.
(** [check_tie] of [FirstVersion_connect4.py]: an explicit loop that
    returns [False] at the first empty top cell. *)
Fixpoint check_tie_loop (b : board) (cols : list Z) : option bool :=
  match cols with
  | [] => Some true
  | col :: cols' =>
      c ← cell b 0 col;
      if c =? EMPTY then Some false else check_tie_loop b cols'
  end.

Definition check_tie (b : board) : option bool :=
  check_tie_loop b (py_range 0 COLS).
End FirstVersion.

(** ** Static evaluator *)

Definition evaluate_window (window : list Z) (piece : Z) : Z :=
  let score := 0 in
  let opponent_piece :=
    if piece =? AI_PIECE then HUMAN_PIECE else AI_PIECE in
  let our_pieces := py_count window piece in
  let opponent_pieces := py_count window opponent_piece in
  let empty_spaces := py_count window EMPTY in
  let score :=
    if our_pieces =? 4 then score + 100
    else if (our_pieces =? 3) && (empty_spaces =? 1) then score + 5
    else if (our_pieces =? 2) && (empty_spaces =? 2) then score + 2
    else score in
  let score :=
    if (opponent_pieces =? 3) && (empty_spaces =? 1) then score - 4
    else score in
  score.

(** [[board[row + i*dr][col + i*dc] for i in range(4)]]. *)
Definition diag_window (b : board) (dr dc : Z) (rc : Z * Z)
    : option (list Z) :=
  let '(row, col) := rc in
  mapM (λ i, cell b (row + i * dr) (col + i * dc)) (py_range 0 4).

Definition column_array (b : board) (col : Z) : option (list Z) :=
  mapM (λ row, cell b row col) (py_range 0 ROWS).

Definition evaluate_board (b : board) (piece : Z) : option Z :=
  let score := 0 in
  let center_col := COLS `div` 2 in
  center_array ← column_array b center_col;
  let score := score + py_count center_array piece * 3 in
  score ← for_each (λ '(row, col) score,
                      r ← py_index b row;
                      let window := py_slice r col (col + 4) in
                      Some (score + evaluate_window window piece))
             (nested (py_range 0 ROWS) (py_range 0 (COLS - 3))) score;
  score ← for_each (λ col score,
                      col_array ← column_array b col;
                      for_each (λ row score,
                                  let window :=
                                    py_slice col_array row (row + 4) in
                                  Some (score + evaluate_window window piece))
                        (py_range 0 (ROWS - 3)) score)
             (py_range 0 COLS) score;
  score ← for_each (λ rc score,
                      window ← diag_window b 1 1 rc;
                      Some (score + evaluate_window window piece))
             (nested (py_range 0 (ROWS - 3)) (py_range 0 (COLS - 3))) score;
  for_each (λ rc score,
              window ← diag_window b (-1) 1 rc;
              Some (score + evaluate_window window piece))
    (nested (py_range 3 ROWS) (py_range 0 (COLS - 3))) score.

(** ** Well-formed boards *)

Definition wf_board (b : board) : Prop :=
  length b = Z.to_nat ROWS ∧ Forall (λ r, length r = Z.to_nat COLS) b.

Definition wf_boardb (b : board) : bool :=
  (length b =? Z.to_nat ROWS)%nat
  && forallb (λ r, (length r =? Z.to_nat COLS)%nat) b.

Definition sample_board : board :=
  [ [0; 0; 0; 0; 0];
    [0; 0; 0; 0; 0];
    [2; 0; 0; 0; 0];
    [1; 0; 0; 0; 0];
    [2; 0; 1; 0; 0];
    [1; 2; 1; 2; 1] ].

(** ** The board as Python objects

    A board is a list object holding references to row objects; the rows
    hold integers.  [copy.deepcopy] copies every row object once (its memo
    keeps two references to one row aliased in the copy) and then the outer
    list; integers are immutable and shared.  A reference that points
    nowhere cannot be written in Python: the operations are stuck ([None])
    on it. *)
Module Heap.
Definition loc := positive.

Record heap := mk_heap {
  row_objs : gmap loc (list Z);
  grid_objs : gmap loc (list loc)
}.

Inductive result (A : Type) :=
| Ok (a : A)
| IndexError.
Arguments Ok {A} a.
Arguments IndexError {A}.

Definition set_row (h : heap) (l : loc) (r : list Z) : heap :=
  mk_heap (<[l := r]> (row_objs h)) (grid_objs h).

Definition set_grid (h : heap) (g : loc) (ls : list loc) : heap :=
  mk_heap (row_objs h) (<[g := ls]> (grid_objs h)).

Definition alloc_row (h : heap) (r : list Z) : loc * heap :=
  let l := fresh (dom (row_objs h)) in (l, set_row h l r).

Definition alloc_grid (h : heap) (ls : list loc) : loc * heap :=
  let g := fresh (dom (grid_objs h)) in (g, set_grid h g ls).

(** The board value a reference denotes. *)
Definition read_board (h : heap) (g : loc) : option board :=
  ls ← grid_objs h !! g; mapM (λ l, row_objs h !! l) ls.

Fixpoint create_board_loop (h : heap) (rows : list Z) (acc : list loc)
    : list loc * heap :=
  match rows with
  | [] => (acc, h)
  | _ :: rows' =>
      let '(l, h1) := alloc_row h (replicate (Z.to_nat COLS) EMPTY) in
      create_board_loop h1 rows' (acc ++ [l])
  end.

Definition create_board (h : heap) : loc * heap :=
  let '(ls, h1) := create_board_loop h (py_range 0 ROWS) [] in
  alloc_grid h1 ls.

Fixpoint deepcopy_rows (h : heap) (memo : gmap loc loc) (ls : list loc)
    : option (list loc * heap * gmap loc loc) :=
  match ls with
  | [] => Some ([], h, memo)
  | l :: ls' =>
      match memo !! l with
      | Some l' =>
          '(rest, h', memo') ← deepcopy_rows h memo ls';
          Some (l' :: rest, h', memo')
      | None =>
          r ← row_objs h !! l;
          let '(l', h1) := alloc_row h r in
          '(rest, h', memo') ← deepcopy_rows h1 (<[l := l']> memo) ls';
          Some (l' :: rest, h', memo')
      end
  end.

Definition deepcopy (h : heap) (g : loc) : option (loc * heap) :=
  ls ← grid_objs h !! g;
  '(ls', h1, _) ← deepcopy_rows h ∅ ls;
  Some (alloc_grid h1 ls').

Fixpoint make_move_loop (h : heap) (new_board : loc) (rows : list Z)
    (col piece : Z) : option (result unit * heap) :=
  match rows with
  | [] => Some (Ok (), h)
  | row :: rows' =>
      ls ← grid_objs h !! new_board;
      match py_index ls row with
      | None => Some (IndexError, h)
      | Some l =>
          r ← row_objs h !! l;
          match py_index r col with
          | None => Some (IndexError, h)
          | Some c =>
              if c =? EMPTY then
                match py_setitem r col piece with
                | None => Some (IndexError, h)
                | Some r' => Some (Ok (), set_row h l r')
                end
              else make_move_loop h new_board rows' col piece
          end
      end
  end.

Definition make_move (h : heap) (b : loc) (col piece : Z)
    : option (result loc * heap) :=
  '(new_board, h1) ← deepcopy h b;
  '(res, h2) ← make_move_loop h1 new_board
                 (py_range_down (ROWS - 1) (-1)) col piece;
  Some (match res with Ok _ => Ok new_board | IndexError => IndexError end,
        h2).

(** No two entries of the outer list are the same row object. *)
Definition alias_free (h : heap) (g : loc) : Prop :=
  ∃ ls, grid_objs h !! g = Some ls ∧ NoDup ls.

(** Every object that [h] holds is the same object in [h']. *)
Definition preserved (h h' : heap) : Prop :=
  (∀ l r, row_objs h !! l = Some r → row_objs h' !! l = Some r) ∧
  (∀ g ls, grid_objs h !! g = Some ls → grid_objs h' !! g = Some ls).

Definition empty_heap : heap := mk_heap ∅ ∅.

(** The rows [ls] hold the contents [v]. *)
Definition holds (h : heap) (ls : list loc) (v : board) : Prop :=
  Forall2 (λ l r, row_objs h !! l = Some r) ls v.

(** What the copied rows look like, relative to the heap [h0] the copy
    started from: every new reference is to a row that [h0] does not
    hold. *)
Definition copies_ok (h0 h : heap) (memo : gmap loc loc) : Prop :=
  preserved h0 h ∧ grid_objs h = grid_objs h0 ∧
  ∀ l l', memo !! l = Some l' →
    row_objs h0 !! l' = None ∧ is_Some (row_objs h !! l').
End Heap.

(** ** Search engine *)

(** Scores: Python integers, and the floats [math.inf] and [-math.inf]. *)
Inductive score :=
| NegInf
| Fin (z : Z)
| PosInf.

Definition score_ltb (a b : score) : bool :=
  match a, b with
  | NegInf, NegInf => false
  | NegInf, _ => true
  | Fin _, NegInf => false
  | Fin x, Fin y => x <? y
  | Fin _, PosInf => true
  | PosInf, _ => false
  end.

Definition score_leb (a b : score) : bool := negb (score_ltb b a).

(** [max(a, b)] and [min(a, b)] return [a] unless [b] is strictly better. *)
Definition score_max (a b : score) : score := if score_ltb a b then b else a.
Definition score_min (a b : score) : score := if score_ltb b a then b else a.

(** [sorted(l, key=..., reverse=...)] is stable: insertion from the right,
    moving past an element only when it must come strictly first. *)
Section Sorted.
Context {A : Type} (key : A → Z) (reverse : bool).

Definition comes_first (y x : A) : bool :=
  if reverse then key x <? key y else key y <? key x.

Fixpoint sorted_insert (x : A) (l : list A) : list A :=
  match l with
  | [] => [x]
  | y :: l' => if comes_first y x then y :: sorted_insert x l' else x :: l
  end.

Definition py_sorted (l : list A) : list A := foldr sorted_insert [] l.
End Sorted.

(** The globals [nodes_visited] and [max_depth_reached], and how many times
    the clock and the random generator have been read so far. *)
Record world := mk_world {
  nodes_visited : nat;
  max_depth_reached : nat;
  clock_reads : nat;
  random_draws : nat
}.

(** A computation reads and updates the world and may raise. *)
Definition M (A : Type) : Type := world → option (A * world).

Definition ret {A} (a : A) : M A := λ w, Some (a, w).

Definition bind {A B} (c : M A) (k : A → M B) : M B :=
  λ w, match c w with
       | Some (a, w') => k a w'
       | None => None
       end.

Definition lift {A} (o : option A) : M A :=
  λ w, match o with Some a => Some (a, w) | None => None end.

Declare Scope search_scope.
Delimit Scope search_scope with search.
Notation "'do' x <- c ; k" := (bind c (λ x, k))
  (at level 10, x name, c at level 100, k at level 200) : search_scope.
Notation "'do' ' p <- c ; k" := (bind c (λ x, match x with p => k end))
  (at level 10, p pattern, c at level 100, k at level 200) : search_scope.
Local Open Scope search_scope.

Section Search.
(** [now k] is the float that the [k]-th call of [time.time()] returns;
    [rand k] is the [k]-th draw of the random generator. *)
Variable now : nat → float.
Variable rand : nat → nat.

Definition time_time : M float :=
  λ w, Some (now (clock_reads w),
             mk_world (nodes_visited w) (max_depth_reached w)
                      (S (clock_reads w)) (random_draws w)).

(** [random.choice(l)] raises on an empty list. *)
Definition random_choice (l : list Z) : M Z :=
  λ w, match l !! (rand (random_draws w) `mod` length l)%nat with
       | Some x =>
           Some (x, mk_world (nodes_visited w) (max_depth_reached w)
                             (clock_reads w) (S (random_draws w)))
       | None => None
       end.

Definition count_node (depth : nat) : M unit :=
  λ w, Some ((), mk_world (S (nodes_visited w))
                          (Nat.max (max_depth_reached w) depth)
                          (clock_reads w) (random_draws w)).

Definition reset_counters : M unit :=
  λ w, Some ((), mk_world 0 0 (clock_reads w) (random_draws w)).

Definition get_counters : M (nat * nat) :=
  λ w, Some ((nodes_visited w, max_depth_reached w), w).

(** The result at a leaf: depth 0 or a finished game. *)
Definition leaf_result (b : board) : M (score * option Z) :=
  do ai <- lift (check_win b AI_PIECE);
  if ai : bool then ret (PosInf, None)
  else
    do human <- lift (check_win b HUMAN_PIECE);
    if human : bool then ret (NegInf, None)
    else
      do s <- lift (evaluate_board b AI_PIECE);
      ret (Fin s, None).

(** Version 2: score every child and sort the moves by that score. *)
Definition order_moves (b : board) (maximizingPlayer : bool)
    (valid_moves : list Z) : option (list Z) :=
  move_scores ←
    for_each (λ move move_scores,
                temp_board ← make_move b move
                  (if maximizingPlayer then AI_PIECE else HUMAN_PIECE);
                score ← evaluate_board temp_board AI_PIECE;
                Some (move_scores ++ [(score, move)]))
             valid_moves [];
  Some (snd <$> py_sorted fst maximizingPlayer move_scores).

(** The loop of the maximizing ply; [search child alpha] is the recursive
    call on [child] with the current [alpha]. *)
Fixpoint max_loop (search : board → score → M (score * option Z))
    (b : board) (moves : list Z) (value alpha beta : score)
    (best_move : option Z) : M (score * option Z) :=
  match moves with
  | [] => ret (value, best_move)
  | move :: moves' =>
      do child_board <- lift (make_move b move AI_PIECE);
      do ' (new_score, _) <- search child_board alpha;
      let improved := score_ltb value new_score in
      let value := if improved then new_score else value in
      let best_move := if improved then Some move else best_move in
      let alpha := score_max alpha value in
      if score_leb beta alpha then ret (value, best_move)
      else max_loop search b moves' value alpha beta best_move
  end.

(** The loop of the minimizing ply; [search child beta] is the recursive
    call on [child] with the current [beta]. *)
Fixpoint min_loop (search : board → score → M (score * option Z))
    (b : board) (moves : list Z) (value alpha beta : score)
    (best_move : option Z) : M (score * option Z) :=
  match moves with
  | [] => ret (value, best_move)
  | move :: moves' =>
      do child_board <- lift (make_move b move HUMAN_PIECE);
      do ' (new_score, _) <- search child_board beta;
      let improved := score_ltb new_score value in
      let value := if improved then new_score else value in
      let best_move := if improved then Some move else best_move in
      let beta := score_min beta value in
      if score_leb beta alpha then ret (value, best_move)
      else min_loop search b moves' value alpha beta best_move
  end.

(** [start_time] and [time_limit] are floats, and the differences are the
    rounded float differences.  ([main] passes the integer [1] as
    [time_limit]; Python compares a float with an integer by value, which
    for an integer that a float holds exactly is the comparison with that
    float.) *)
Fixpoint minimax (b : board) (depth : nat) (alpha beta : score)
    (maximizingPlayer : bool) (start_time time_limit : float) (version : Z)
    : M (score * option Z) :=
  do _ <- count_node depth;
  do t <- time_time;
  if (time_limit <? t - start_time)%float then
    do s <- lift (evaluate_board b AI_PIECE);
    ret (Fin s, None)
  else
    match depth with
    | O => leaf_result b
    | S depth' =>
        do terminal <- lift (is_terminal_node b);
        if terminal : bool then leaf_result b
        else
          do valid_moves <- lift (get_valid_moves b);
          do valid_moves <-
            (if version =? 2
             then lift (order_moves b maximizingPlayer valid_moves)
             else ret valid_moves);
          do best_move <- random_choice valid_moves;
          if maximizingPlayer then
            max_loop
              (λ child alpha',
                 minimax child depth' alpha' beta false
                         start_time time_limit version)
              b valid_moves NegInf alpha beta (Some best_move)
          else
            min_loop
              (λ child beta',
                 minimax child depth' alpha beta' true
                         start_time time_limit version)
              b valid_moves PosInf alpha beta (Some best_move)
    end.

(** The [while True] loop of [get_ai_move]; it ends when the clock has
    passed the limit, so the model takes a bound on the number of
    iterations and answers [None] when the bound is used up. *)
Fixpoint get_ai_move_loop (fuel : nat) (b : board) (version : Z)
    (start_time time_limit : float) (depth : nat) (best_move : option Z)
    : M (option (option Z)) :=
  match fuel with
  | O => ret None
  | S fuel' =>
      do t <- time_time;
      if (time_limit <? t - start_time)%float then ret (Some best_move)
      else
        do ' (_, move) <- minimax b depth NegInf PosInf true
                            start_time time_limit version;
        do t' <- time_time;
        let best_move :=
          if (t' - start_time <? time_limit)%float then move
          else best_move in
        get_ai_move_loop fuel' b version start_time time_limit
                         (S depth) best_move
  end.

Definition get_ai_move (fuel : nat) (b : board) (version : Z)
    (time_limit : float) : M (option (option Z * nat * nat * float)) :=
  do start_time <- time_time;
  do _ <- reset_counters;
  do r <- get_ai_move_loop fuel b version start_time time_limit 1 None;
  match r with
  | None => ret None
  | Some best_move =>
      do t <- time_time;
      do ' (nodes, deepest) <- get_counters;
      ret (Some (best_move, nodes, deepest, (t - start_time)%float))
  end.
End Search.

(** ** Notions used by the statements *)

(** The cell at [(row, col)] holds a piece. *)
Definition occupied (b : board) (row col : Z) : Prop :=
  ∃ c, cell b row col = Some c ∧ c ≠ EMPTY.

(** Gravity: in every column, no cell below an occupied cell is empty
    (row 0 is the top row). *)
Definition gravity (b : board) : Prop :=
  ∀ col row row',
    0 ≤ col < COLS → 0 ≤ row → row < row' → row' < ROWS →
    occupied b row col → occupied b row' col.

Definition gravityb (b : board) : bool :=
  forallb (λ col,
    forallb (λ row,
      match cell b row col, cell b (row + 1) col with
      | Some x, Some y => (x =? EMPTY) || negb (y =? EMPTY)
      | _, _ => false
      end) (py_range 0 (ROWS - 1))) (py_range 0 COLS).

(** The number of occupied cells of a column. *)
Definition occupied_in_column (b : board) (col : Z) : option nat :=
  arr ← column_array b col; Some (length (filter (λ c, c ≠ EMPTY) arr)).

(** The boards that [create_board] and legal calls of [make_move] build. *)
Inductive reachable : board → Prop :=
| reachable_empty : reachable create_board
| reachable_move b col piece b' :
    reachable b →
    is_valid_move b col = Some true →
    make_move b col piece = Some b' →
    reachable b'.

(** [b] with the cell at [(row, col)] replaced, in natural-number indices. *)
Definition place (b : board) (row col : nat) (piece : Z) : board :=
  match b !! row with
  | Some r => <[row := <[col := piece]> r]> b
  | None => b
  end.

(** The row [make_move] writes to: the first empty cell of the column,
    going through the rows from the bottom. *)
Definition landing_row (b : board) (col : Z) : option Z :=
  snd <$> list_find (λ row, cell b row col = Some EMPTY)
                    (py_range_down (ROWS - 1) (-1)).

(** A full board on which the human has four in a row (bottom row). *)
Definition full_board_with_win : board :=
  [ [1; 2; 1; 2; 1];
    [2; 1; 2; 1; 2];
    [1; 2; 1; 2; 1];
    [2; 1; 2; 1; 2];
    [2; 2; 1; 2; 2];
    [1; 1; 1; 1; 2] ].

(** [board[row][col]] in natural-number indices. *)
Definition get (b : board) (row col : nat) : option Z :=
  r ← b !! row; r !! col.

(** Column 0 is full after six alternating moves; it is the human's turn. *)
Definition full_column_board : board :=
  [ [2; 0; 0; 0; 0];
    [1; 0; 0; 0; 0];
    [2; 0; 0; 0; 0];
    [1; 0; 0; 0; 0];
    [2; 0; 0; 0; 0];
    [1; 0; 0; 0; 0] ].

(** The window score as the specification words it: the opponent is the
    other of the two pieces, and "three cells equal the piece and the
    fourth is Empty" says that the window is some arrangement of those
    four cells. *)
Definition other_piece (piece : Z) : Z :=
  if piece =? HUMAN_PIECE then AI_PIECE else HUMAN_PIECE.

Definition scoreWindow (window : list Z) (piece : Z) : Z :=
  (if bool_decide (window = [piece; piece; piece; piece]) then 100
   else if bool_decide (window ≡ₚ [piece; piece; piece; EMPTY]) then 5
   else if bool_decide (window ≡ₚ [piece; piece; EMPTY; EMPTY]) then 2
   else 0)
  + (if bool_decide (window ≡ₚ [other_piece piece; other_piece piece;
                                 other_piece piece; EMPTY])
     then -4 else 0).

(** The empty board as Python objects. *)
Definition initial_heap : Heap.heap :=
  snd (Heap.create_board Heap.empty_heap).
Definition initial_board : Heap.loc :=
  fst (Heap.create_board Heap.empty_heap).

(** ** Reference semantics of the search *)

Definition score_lt (a b : score) : Prop := score_ltb a b = true.
Definition score_le (a b : score) : Prop := score_ltb b a = false.

(** The deadline test of the code, [time.time() - start_time > time_limit],
    on the [k]-th reading of the clock, and the test that accepts the move
    of an iteration, [time.time() - start_time < time_limit]. *)
Definition deadline_passed (now : nat → float) (start_time time_limit : float)
    (k : nat) : bool :=
  (time_limit <? now k - start_time)%float.

Definition in_time (now : nat → float) (start_time time_limit : float)
    (k : nat) : bool :=
  (now k - start_time <? time_limit)%float.

(** The deadline test is never true. *)
Definition no_timeout (now : nat → float) (start_time time_limit : float)
    : Prop :=
  ∀ k, deadline_passed now start_time time_limit k = false.

(** The value of a leaf, as [leaf_result] computes it. *)
Definition static_value (b : board) : score :=
  match check_win b AI_PIECE with
  | Some true => PosInf
  | _ =>
      match check_win b HUMAN_PIECE with
      | Some true => NegInf
      | _ => Fin (default 0 (evaluate_board b AI_PIECE))
      end
  end.

(** Depth-limited minimax without pruning: the maximum (minimum) over all
    legal moves of the value of the child position. *)
Fixpoint game_value (depth : nat) (maximizingPlayer : bool) (b : board)
    : score :=
  match depth with
  | O => static_value b
  | S depth' =>
      if default true (is_terminal_node b) then static_value b
      else
        let children piece :=
          (λ move, game_value depth' (negb maximizingPlayer)
                     (default b (make_move b move piece)))
            <$> default [] (get_valid_moves b) in
        if maximizingPlayer
        then foldr score_max NegInf (children AI_PIECE)
        else foldr score_min PosInf (children HUMAN_PIECE)
  end.

(** What a search with window [(alpha, beta)] may return for a position of
    value [m]: the value itself inside the window, a bound on it outside. *)
Definition window_ok (alpha beta m v : score) : Prop :=
  (score_le v alpha → score_le m v) ∧
  (score_le beta v → score_le v m) ∧
  (score_lt alpha v → score_lt v beta → v = m).

(** [c] run in [w] returns a result that satisfies [P]. *)
Definition returns {A} (c : M A) (w : world) (P : A → Prop) : Prop :=
  ∃ a w', c w = Some (a, w') ∧ P a.

(** An order-preserving reading of scores as integers, for scores whose
    finite values lie strictly between [-K] and [K]. *)
Definition rank (K : Z) (s : score) : Z :=
  match s with
  | NegInf => - K
  | Fin z => z
  | PosInf => K
  end.

Definition bounded (K : Z) (s : score) : Prop :=
  0 < K ∧ match s with Fin z => - K < z < K | _ => True end.

(** The clock does not run back across the deadline: once the deadline
    test is true on a reading, it is true on every later reading.  (Finite
    readings that never decrease are of this kind, the float subtraction
    being monotone.) *)
Definition deadline_stays_passed (now : nat → float)
    (start_time time_limit : float) : Prop :=
  ∀ i j, (i ≤ j)%nat →
    deadline_passed now start_time time_limit i = true →
    deadline_passed now start_time time_limit j = true.

(** Worlds and oracles for the examples: fresh counters, a clock that
    stands still, a clock that shows 0 on its first [n] readings and 100
    from then on, a random generator that always draws 0. *)
Definition initial_world : world := mk_world 0 0 0 0.
Definition frozen_clock (k : nat) : float := 0%float.
Definition step_clock (n k : nat) : float :=
  if (k <? n)%nat then 0%float else 100%float.
Definition first_choice (k : nat) : nat := 0%nat.

(** The human has four in a row (bottom row) and every column is open. *)
Definition human_won_board : board :=
  [ [0; 0; 0; 0; 0];
    [0; 0; 0; 0; 0];
    [0; 0; 0; 0; 0];
    [0; 0; 0; 0; 0];
    [2; 2; 2; 0; 0];
    [1; 1; 1; 1; 0] ].


(** A clock on which the depth-1 search of [sample_board] is not cut short
    and ends exactly [time_limit = 1] after the start: eight readings of
    0, then 1, then 2. *)
Definition exact_limit_clock (k : nat) : float :=
  if (k <? 8)%nat then 0%float
  else if (k =? 8)%nat then 1%float else 2%float.

(** The floats that Python writes [1.1] and [0.1]: the binary64 numbers
    nearest to them. *)
Definition float_1_1 : float := 0x1.199999999999ap+0%float.
Definition float_0_1 : float := 0x1.999999999999ap-4%float.
(** ** Notions used by the further properties *)

(** The four directions [check_win] scans: right, down, down-right and
    up-right. *)
Definition directions : list (Z * Z) := [(0, 1); (1, 0); (1, 1); (-1, 1)].

(** Four cells in a line, all inside the grid, hold [piece]. *)
Definition four_in_a_row (b : board) (piece : Z) : Prop :=
  ∃ row col dr dc, (dr, dc) ∈ directions ∧
    ∀ i, 0 ≤ i < 4 →
      0 ≤ row + i * dr < ROWS ∧ 0 ≤ col + i * dc < COLS ∧
      cell b (row + i * dr) (col + i * dc) = Some piece.


(** ** The search of [FirstVersion_connect4.py]: minimax without pruning *)

Module FirstVersionSearch.
Section Search.
Variable now : nat → float.
Variable rand : nat → nat.

(** [is_terminal_node] has the same text in both files; here it calls the
    [check_tie] of this file. *)
Definition is_terminal_node (b : board) : option bool :=
  orM (check_win b HUMAN_PIECE)
      (orM (check_win b AI_PIECE) (FirstVersion.check_tie b)).

(** The loops go through every move: there is no window and no [break]. *)
Fixpoint max_loop (search : board → M (score * option Z))
    (b : board) (moves : list Z) (value : score) (best_move : option Z)
    : M (score * option Z) :=
  match moves with
  | [] => ret (value, best_move)
  | move :: moves' =>
      do child_board <- lift (make_move b move AI_PIECE);
      do ' (new_score, _) <- search child_board;
      let improved := score_ltb value new_score in
      let value := if improved then new_score else value in
      let best_move := if improved then Some move else best_move in
      max_loop search b moves' value best_move
  end.

Fixpoint min_loop (search : board → M (score * option Z))
    (b : board) (moves : list Z) (value : score) (best_move : option Z)
    : M (score * option Z) :=
  match moves with
  | [] => ret (value, best_move)
  | move :: moves' =>
      do child_board <- lift (make_move b move HUMAN_PIECE);
      do ' (new_score, _) <- search child_board;
      let improved := score_ltb new_score value in
      let value := if improved then new_score else value in
      let best_move := if improved then Some move else best_move in
      min_loop search b moves' value best_move
  end.

Fixpoint minimax (b : board) (depth : nat) (maximizingPlayer : bool)
    (start_time time_limit : float) : M (score * option Z) :=
  do _ <- count_node depth;
  do t <- time_time now;
  if (time_limit <? t - start_time)%float then
    do s <- lift (evaluate_board b AI_PIECE);
    ret (Fin s, None)
  else
    match depth with
    | O => leaf_result b
    | S depth' =>
        do terminal <- lift (is_terminal_node b);
        if terminal : bool then leaf_result b
        else
          do valid_moves <- lift (get_valid_moves b);
          do best_move <- random_choice rand valid_moves;
          if maximizingPlayer then
            max_loop
              (λ child, minimax child depth' false start_time time_limit)
              b valid_moves NegInf (Some best_move)
          else
            min_loop
              (λ child, minimax child depth' true start_time time_limit)
              b valid_moves PosInf (Some best_move)
    end.

(** The [while True] loop of [get_ai_move], with a bound on the number of
    iterations as for the other file. *)
Fixpoint get_ai_move_loop (fuel : nat) (b : board)
    (start_time time_limit : float) (depth : nat) (best_move : option Z)
    : M (option (option Z)) :=
  match fuel with
  | O => ret None
  | S fuel' =>
      do t <- time_time now;
      if (time_limit <? t - start_time)%float then ret (Some best_move)
      else
        do ' (_, move) <- minimax b depth true start_time time_limit;
        do t' <- time_time now;
        let best_move :=
          if (t' - start_time <? time_limit)%float then move
          else best_move in
        get_ai_move_loop fuel' b start_time time_limit (S depth) best_move
  end.

Definition get_ai_move (fuel : nat) (b : board) (time_limit : float)
    : M (option (option Z * nat * nat * float)) :=
  do start_time <- time_time now;
  do _ <- reset_counters;
  do r <- get_ai_move_loop fuel b start_time time_limit 1 None;
  match r with
  | None => ret None
  | Some best_move =>
      do t <- time_time now;
      do ' (nodes, deepest) <- get_counters;
      ret (Some (best_move, nodes, deepest, (t - start_time)%float))
  end.
End Search.
End FirstVersionSearch.

(** The board seen in a mirror: every row reversed,
    [[row[::-1] for row in board]]. *)
Definition mirror (b : board) : board := reverse <$> b.

(** ** Display

    [print_board] writes one line per row and two closing lines; the model
    returns the lines written, in order. *)
From Stdlib Require String Ascii.
Import String.StringSyntax Ascii.AsciiSyntax.
Delimit Scope string_scope with string.
Delimit Scope char_scope with char.

Definition cell_text (c : Z) : String.string :=
  if c =? EMPTY then " "%string
  else if c =? HUMAN_PIECE then "1"%string
  else "2"%string.

(** ['| ' + ' | '.join(cells) + ' |']. *)
Definition row_line (row : list Z) : String.string :=
  String.append "| "
    (String.append (String.concat " | " (cell_text <$> row)) " |").

Definition print_board (b : board) : list String.string :=
  (row_line <$> b)
  ++ ["  1   2   3   4   5  "%string; "(Choose 1-5 to play)"%string].

(** The character that stands for a cell, and the digit of a column
    number. *)
Definition cell_char (c : Z) : Ascii.ascii :=
  if c =? EMPTY then " "%char
  else if c =? HUMAN_PIECE then "1"%char
  else "2"%char.

Definition digit_char (n : Z) : Ascii.ascii :=
  Ascii.ascii_of_nat (48 + Z.to_nat n).

(** Every cell holds [EMPTY], [HUMAN_PIECE] or [AI_PIECE]. *)
Definition pieces_only (b : board) : Prop :=
  Forall (Forall (λ c, c = EMPTY ∨ c = HUMAN_PIECE ∨ c = AI_PIECE)) b.

(** [x] goes before [y] in the result of [sorted]: its key comes strictly
    first, or the keys are equal and [x] was before [y] in the input. *)
Definition sorted_before {A} (key : A → Z) (reverse : bool)
    (before : A → A → Prop) (x y : A) : Prop :=
  (if reverse then key y < key x else key x < key y) ∨
  (key x = key y ∧ before x y).
(** ** Examples *)

Example create_board_value :
  create_board = replicate 6 (replicate 5 0).
Proof. reflexivity. Qed.

Example get_valid_moves_sample :
  get_valid_moves sample_board = Some [0; 1; 2; 3; 4].
Proof. reflexivity. Qed.

Example make_move_sample :
  make_move sample_board 0 2 =
  Some [ [0; 0; 0; 0; 0];
         [2; 0; 0; 0; 0];
         [2; 0; 0; 0; 0];
         [1; 0; 0; 0; 0];
         [2; 0; 1; 0; 0];
         [1; 2; 1; 2; 1] ].
Proof. reflexivity. Qed.

Example evaluate_board_sample :
  evaluate_board sample_board AI_PIECE = Some 0 ∧
  evaluate_board sample_board HUMAN_PIECE = Some 8.
Proof. split; reflexivity. Qed.

(** ** Python indexing *)

Section PyListFacts.
Context {A : Type}.
Implicit Types (l : list A) (i : Z).

Lemma py_index_nonneg l i : 0 ≤ i → py_index l i = l !! Z.to_nat i.
Proof.
  intros Hi. unfold py_index.
  destruct (Z.leb_spec 0 i); [done | lia].
Qed.

Lemma py_index_neg l i :
  - Z.of_nat (length l) ≤ i < 0 →
  py_index l i = l !! Z.to_nat (Z.of_nat (length l) + i).
Proof.
  intros Hi. unfold py_index.
  destruct (Z.leb_spec 0 i); [lia |].
  destruct (Z.leb_spec (- Z.of_nat (length l)) i); [done | lia].
Qed.

Lemma py_index_out l i :
  i < - Z.of_nat (length l) ∨ Z.of_nat (length l) ≤ i →
  py_index l i = None.
Proof.
  intros Hi. unfold py_index.
  destruct (Z.leb_spec 0 i).
  - apply lookup_ge_None. lia.
  - destruct (Z.leb_spec (- Z.of_nat (length l)) i); [lia | done].
Qed.

(** Inside the list, [l[i]] is the element at [i mod len(l)]. *)
Lemma py_index_mod l i :
  - Z.of_nat (length l) ≤ i < Z.of_nat (length l) →
  py_index l i = l !! Z.to_nat (i `mod` Z.of_nat (length l)).
Proof.
  intros Hi. destruct (Z.le_gt_cases 0 i).
  - rewrite py_index_nonneg by done. by rewrite Z.mod_small by lia.
  - rewrite py_index_neg by lia. do 2 f_equal.
    apply Z.mod_unique with (-1); lia.
Qed.

Lemma py_index_is_Some l i :
  - Z.of_nat (length l) ≤ i < Z.of_nat (length l) → is_Some (py_index l i).
Proof.
  intros Hi. rewrite py_index_mod by done.
  apply lookup_lt_is_Some.
  pose proof (Z.mod_pos_bound i (Z.of_nat (length l))). lia.
Qed.

Lemma py_index_Some_range l i x :
  py_index l i = Some x →
  - Z.of_nat (length l) ≤ i < Z.of_nat (length l).
Proof.
  intros Hx.
  destruct (Z.lt_ge_cases i (- Z.of_nat (length l))) as [Hlo | Hlo].
  { rewrite py_index_out in Hx by lia. done. }
  destruct (Z.lt_ge_cases i (Z.of_nat (length l))) as [Hhi | Hhi]; [lia |].
  rewrite py_index_out in Hx by lia. done.
Qed.

Lemma py_setitem_mod l i x :
  - Z.of_nat (length l) ≤ i < Z.of_nat (length l) →
  py_setitem l i x =
  Some (<[Z.to_nat (i `mod` Z.of_nat (length l)) := x]> l).
Proof.
  intros Hi. unfold py_setitem. destruct (Z.leb_spec 0 i).
  - destruct (Z.ltb_spec i (Z.of_nat (length l))); [| lia].
    by rewrite Z.mod_small by lia.
  - destruct (Z.leb_spec (- Z.of_nat (length l)) i); [| lia].
    do 3 f_equal. apply Z.mod_unique with (-1); lia.
Qed.
End PyListFacts.

Lemma py_range_elem lo hi x : x ∈ py_range lo hi ↔ lo ≤ x < hi.
Proof. unfold py_range. rewrite elem_of_seqZ. lia. Qed.

(** ** Well-formed boards *)

Lemma wf_boardb_true b : wf_boardb b = true → wf_board b.
Proof.
  unfold wf_boardb, wf_board. intros [Hl Hr]%andb_prop. split.
  - by apply Nat.eqb_eq.
  - apply Forall_forall. intros r Hin%list_elem_of_In.
    rewrite forallb_forall in Hr. by apply Nat.eqb_eq, Hr.
Qed.

Lemma wf_board_row b row r :
  wf_board b → py_index b row = Some r → Z.of_nat (length r) = COLS.
Proof.
  intros [_ Hrows] Hr.
  assert (r ∈ b) as Hin.
  { unfold py_index in Hr. repeat case_match; try done;
      by eapply list_elem_of_lookup_2. }
  rewrite Forall_forall in Hrows. rewrite (Hrows r Hin). done.
Qed.

Lemma wf_board_length b : wf_board b → Z.of_nat (length b) = ROWS.
Proof. intros [-> _]. done. Qed.

Lemma wf_board_row_is_Some b row :
  wf_board b → - ROWS ≤ row < ROWS → is_Some (py_index b row).
Proof.
  intros Hwf Hrow. apply py_index_is_Some.
  rewrite (wf_board_length b Hwf). lia.
Qed.

Lemma cell_is_Some b row col :
  wf_board b → - ROWS ≤ row < ROWS → - COLS ≤ col < COLS →
  is_Some (cell b row col).
Proof.
  intros Hwf Hrow Hcol. unfold cell.
  destruct (wf_board_row_is_Some b row Hwf Hrow) as [r Hr].
  rewrite Hr. simpl. apply py_index_is_Some.
  rewrite (wf_board_row b row r Hwf Hr). lia.
Qed.

Lemma cell_out_of_range b row col :
  wf_board b → col < - COLS ∨ COLS ≤ col → cell b row col = None.
Proof.
  intros Hwf Hcol. unfold cell.
  destruct (py_index b row) as [r |] eqn:Hr; [| done].
  simpl. apply py_index_out.
  rewrite (wf_board_row b row r Hwf Hr). lia.
Qed.

Lemma cell_wrap b row col :
  wf_board b → - COLS ≤ col < 0 → cell b row col = cell b row (col + COLS).
Proof.
  intros Hwf Hcol. unfold cell.
  destruct (py_index b row) as [r |] eqn:Hr; [| done].
  simpl. pose proof (wf_board_row b row r Hwf Hr) as Hlen.
  rewrite py_index_neg by lia.
  rewrite py_index_nonneg by lia. do 2 f_equal. lia.
Qed.

Lemma sample_board_wf : wf_board sample_board.
Proof. by apply wf_boardb_true. Qed.

Lemma create_board_wf : wf_board create_board.
Proof. by apply wf_boardb_true. Qed.

(** ** Comparing floats *)

Lemma SFcompare_antisym x y :
  SFcompare y x = option_map CompOpp (SFcompare x y).
Proof.
  destruct x as [sx | sx | | sx mx ex], y as [sy | sy | | sy my ey];
    simpl; try done;
    try (by destruct sx); try (by destruct sy); try (by destruct sx, sy).
  f_equal. destruct sx, sy; try done;
    rewrite (Z.compare_antisym ey ex);
    destruct (ey ?= ex); simpl; try done;
    change (Pos.compare_cont Eq my mx) with (my ?= mx)%positive;
    change (Pos.compare_cont Eq mx my) with (mx ?= my)%positive;
    by rewrite (Pos.compare_antisym my mx), CompOpp_involutive.
Qed.

(** [x < y] and [y < x] never both hold, also for the special values. *)
Lemma float_ltb_asym (x y : float) :
  (x <? y)%float = true → (y <? x)%float = false.
Proof.
  rewrite !ltb_spec. unfold SFltb.
  rewrite (SFcompare_antisym (Prim2SF x) (Prim2SF y)).
  by destruct (SFcompare (Prim2SF x) (Prim2SF y)) as [[] |].
Qed.
(** ** Playable columns *)

(** C4 (as the code has it): [is_valid_move] does no range check.  On a
    well-formed board it answers for a column in range, answers for column
    [col + COLS] when [-COLS <= col < 0] (Python's negative indexing), and
    raises [IndexError] for every other index. *)
Theorem is_valid_move_by_range (b : board) (col : Z) :
  wf_board b →
  (0 ≤ col < COLS →
     ∃ c, cell b 0 col = Some c ∧ is_valid_move b col = Some (c =? EMPTY)) ∧
  (- COLS ≤ col < 0 → is_valid_move b col = is_valid_move b (col + COLS)) ∧
  (col < - COLS ∨ COLS ≤ col → is_valid_move b col = None).
Proof.
  intros Hwf. unfold is_valid_move. repeat split.
  - intros Hcol.
    destruct (cell_is_Some b 0 col Hwf) as [c Hc]; [done | unfold COLS in *; lia |].
    exists c. by rewrite Hc.
  - intros Hcol. by rewrite cell_wrap.
  - intros Hcol. by rewrite cell_out_of_range.
Qed.

Lemma is_valid_move_by_range_witness :
  wf_board sample_board ∧
  is_valid_move sample_board 7 = None ∧
  is_valid_move sample_board (-2) = is_valid_move sample_board 3.
Proof.
  split; [exact sample_board_wf |].
  destruct (is_valid_move_by_range sample_board 7 sample_board_wf)
    as (_ & _ & Hout).
  destruct (is_valid_move_by_range sample_board (-2) sample_board_wf)
    as (_ & Hneg & _).
  split.
  - apply Hout. right. unfold COLS. lia.
  - apply Hneg. unfold COLS. lia.
Defined.

(** C4, refuted: column 5 is out of range and the call raises; column -1 is
    out of range and the call answers [True]. *)
Lemma is_valid_move_out_of_range_counterexample :
  (COLS ≤ 5 ∧ is_valid_move create_board 5 = None) ∧
  (-1 < 0 ∧ is_valid_move create_board (-1) = Some true).
Proof. repeat split; unfold COLS; lia. Qed.

Lemma is_valid_move_is_Some b col :
  wf_board b → - COLS ≤ col < COLS → is_Some (is_valid_move b col).
Proof.
  intros Hwf Hcol. unfold is_valid_move.
  destruct (cell_is_Some b 0 col Hwf) as [c Hc]; [done | done |].
  rewrite Hc. by eexists.
Qed.

Lemma is_valid_move_range b col v :
  wf_board b → is_valid_move b col = Some v → - COLS ≤ col < COLS.
Proof.
  intros Hwf Hv. unfold is_valid_move in Hv.
  destruct (Z.lt_ge_cases col (- COLS)).
  { rewrite cell_out_of_range in Hv by (done || lia). done. }
  destruct (Z.lt_ge_cases col COLS); [lia |].
  rewrite cell_out_of_range in Hv by (done || lia). done.
Qed.

(** ** Valid moves *)

Lemma get_valid_moves_loop_filter b cols acc :
  (∀ c, c ∈ cols → is_Some (is_valid_move b c)) →
  get_valid_moves_loop b cols acc =
  Some (acc ++ filter (λ c, is_valid_move b c = Some true) cols).
Proof.
  revert acc. induction cols as [| col cols IH]; intros acc Htot; simpl.
  - by rewrite app_nil_r.
  - destruct (Htot col) as [v Hv]; [left |].
    rewrite Hv. simpl. rewrite IH by (intros; apply Htot; by right).
    rewrite filter_cons. destruct v.
    + rewrite decide_True by done. by rewrite <- app_assoc.
    + rewrite decide_False by congruence. done.
Qed.

Lemma get_valid_moves_filter b :
  wf_board b →
  get_valid_moves b =
  Some (filter (λ c, is_valid_move b c = Some true) (py_range 0 COLS)).
Proof.
  intros Hwf. unfold get_valid_moves.
  rewrite get_valid_moves_loop_filter; [done |].
  intros c Hc%py_range_elem. apply is_valid_move_is_Some; [done | lia].
Qed.

Lemma py_range_sorted lo hi : StronglySorted Z.lt (py_range lo hi).
Proof.
  unfold py_range.
  destruct (Z.le_gt_cases (hi - lo) 0) as [Hn | Hn].
  { unfold seqZ. replace (Z.to_nat (hi - lo)) with 0%nat by lia. constructor. }
  unfold seqZ. generalize (Z.to_nat (hi - lo)) as n. clear Hn.
  intros n. generalize 0%nat as k.
  induction n as [| n IH]; intros k; simpl; constructor.
  - apply IH.
  - apply Forall_forall. intros x Hx.
    apply list_elem_of_fmap in Hx as (j & -> & Hj).
    apply elem_of_seq in Hj. lia.
Qed.

Lemma filter_sorted (P : Z → Prop) `{∀ x, Decision (P x)} (l : list Z) :
  StronglySorted Z.lt l → StronglySorted Z.lt (filter P l).
Proof.
  induction 1 as [| x l Hs IH Hall]; [constructor |].
  rewrite filter_cons. destruct (decide (P x)); [| done].
  constructor; [done |].
  apply Forall_forall. intros y [_ Hy]%list_elem_of_filter.
  rewrite Forall_forall in Hall. by apply Hall.
Qed.

(** C6: on a well-formed board [get_valid_moves] returns, in ascending
    order, exactly the columns of [0, COLS) that [is_valid_move] accepts. *)
Theorem get_valid_moves_exact (b : board) :
  wf_board b →
  ∃ moves, get_valid_moves b = Some moves ∧
    (∀ col, col ∈ moves ↔ 0 ≤ col < COLS ∧ is_valid_move b col = Some true) ∧
    StronglySorted Z.lt moves.
Proof.
  intros Hwf. eexists. split; [by apply get_valid_moves_filter |]. split.
  - intros col. rewrite list_elem_of_filter, py_range_elem. tauto.
  - apply filter_sorted, py_range_sorted.
Qed.

Lemma get_valid_moves_exact_witness :
  wf_board sample_board ∧
  ∃ moves, get_valid_moves sample_board = Some moves ∧
    (∀ col, col ∈ moves ↔
       0 ≤ col < COLS ∧ is_valid_move sample_board col = Some true) ∧
    StronglySorted Z.lt moves.
Proof.
  split; [exact sample_board_wf |].
  exact (get_valid_moves_exact sample_board sample_board_wf).
Defined.

Lemma get_valid_moves_elem b moves col :
  wf_board b → get_valid_moves b = Some moves →
  col ∈ moves ↔ 0 ≤ col < COLS ∧ is_valid_move b col = Some true.
Proof.
  intros Hwf Hm. rewrite get_valid_moves_filter in Hm by done.
  injection Hm as <-. rewrite list_elem_of_filter, py_range_elem. tauto.
Qed.

(** ** Short-circuit loops *)

Lemma forallM_spec {A} (f : A → option bool) (l : list A) :
  (∀ x, x ∈ l → is_Some (f x)) →
  ∃ t, forallM f l = Some t ∧ (t = true ↔ ∀ x, x ∈ l → f x = Some true).
Proof.
  induction l as [| x l IH]; intros Htot; simpl.
  - exists true. split; [done |]. split; [| done]. by intros _ y ?%elem_of_nil.
  - destruct (Htot x) as [v Hv]; [left |].
    destruct IH as (t & Ht & Hiff); [intros; apply Htot; by right |].
    rewrite Hv. simpl. destruct v.
    + exists t. split; [done |]. rewrite Hiff. split.
      * intros Hall y [-> | Hy]%elem_of_cons; auto.
      * intros Hall y Hy. apply Hall. by right.
    + exists false. split; [done |]. split; [done |].
      intros Hall. specialize (Hall x). rewrite Hv in Hall.
      discriminate Hall. left.
Qed.

Lemma existsM_spec {A} (f : A → option bool) (l : list A) :
  (∀ x, x ∈ l → is_Some (f x)) →
  ∃ t, existsM f l = Some t ∧ (t = true ↔ ∃ x, x ∈ l ∧ f x = Some true).
Proof.
  induction l as [| x l IH]; intros Htot; simpl.
  - exists false. split; [done |]. split; [done |].
    by intros (y & ?%elem_of_nil & _).
  - destruct (Htot x) as [v Hv]; [left |].
    destruct IH as (t & Ht & Hiff); [intros; apply Htot; by right |].
    rewrite Hv. simpl. destruct v.
    + exists true. split; [done |]. split; [| done].
      intros _. exists x. split; [left | done].
    + exists t. split; [done |]. rewrite Hiff. split.
      * intros (y & Hy & Hfy). exists y. split; [by right | done].
      * intros (y & [-> | Hy]%elem_of_cons & Hfy); [congruence |].
        by exists y.
Qed.

(** ** Draw detection *)

(** Both source files compute the same [check_tie]. *)
Lemma check_tie_loop_forallM b cols :
  FirstVersion.check_tie_loop b cols =
  forallM (λ col, c ← cell b 0 col; Some (negb (c =? EMPTY))) cols.
Proof.
  induction cols as [| col cols IH]; simpl; [done |].
  destruct (cell b 0 col) as [c |]; simpl; [| done].
  destruct (c =? EMPTY); simpl; done.
Qed.

Lemma top_cell_test b col :
  (c ← cell b 0 col; Some (negb (c =? EMPTY))) = Some true ↔
  occupied b 0 col.
Proof.
  unfold occupied. destruct (cell b 0 col) as [c |]; simpl.
  - destruct (Z.eqb_spec c EMPTY); simpl; split.
    + done.
    + intros (c' & [= <-] & Hne). done.
    + intros _. by exists c.
    + done.
  - split; [done |]. by intros (c & ? & _).
Qed.

Lemma check_tie_spec b :
  wf_board b →
  ∃ t, check_tie b = Some t ∧ FirstVersion.check_tie b = Some t ∧
       (t = true ↔ ∀ col, 0 ≤ col < COLS → occupied b 0 col).
Proof.
  intros Hwf.
  destruct (forallM_spec
              (λ col, c ← cell b 0 col; Some (negb (c =? EMPTY)))
              (py_range 0 COLS)) as (t & Ht & Hiff).
  { intros col Hcol%py_range_elem.
    destruct (cell_is_Some b 0 col Hwf) as [c Hc]; [done | lia |].
    rewrite Hc. by eexists. }
  exists t. split; [done |]. split.
  { unfold FirstVersion.check_tie. by rewrite check_tie_loop_forallM. }
  rewrite Hiff. split.
  - intros Hall col Hcol. apply top_cell_test, Hall, py_range_elem. lia.
  - intros Hall col Hcol%py_range_elem. apply top_cell_test, Hall. lia.
Qed.

(** C2 (as the code has it): [check_tie], in both source files, answers
    [True] exactly when the top cell of every column is occupied; it does
    not look at four-in-a-row. *)
Theorem check_tie_top_row_full (b : board) :
  wf_board b →
  ∃ t, check_tie b = Some t ∧ FirstVersion.check_tie b = Some t ∧
       (t = true ↔ ∀ col, 0 ≤ col < COLS → occupied b 0 col).
Proof. exact (check_tie_spec b). Qed.

Lemma full_board_with_win_wf : wf_board full_board_with_win.
Proof. by apply wf_boardb_true. Qed.

Lemma check_tie_top_row_full_witness :
  wf_board full_board_with_win ∧
  ∃ t, check_tie full_board_with_win = Some t ∧
       FirstVersion.check_tie full_board_with_win = Some t ∧
       (t = true ↔
        ∀ col, 0 ≤ col < COLS → occupied full_board_with_win 0 col).
Proof.
  split; [exact full_board_with_win_wf |].
  exact (check_tie_top_row_full full_board_with_win full_board_with_win_wf).
Defined.

(** C2, refuted: the board is full and the human has four in a row, and
    [check_tie] answers [True] in both source files. *)
Lemma check_tie_ignores_win_counterexample :
  check_win full_board_with_win HUMAN_PIECE = Some true ∧
  check_tie full_board_with_win = Some true ∧
  FirstVersion.check_tie full_board_with_win = Some true.
Proof. repeat split. Qed.

(** ** Placing a piece *)

Lemma wf_board_lookup b n r :
  wf_board b → b !! n = Some r → length r = Z.to_nat COLS.
Proof.
  intros [_ Hrows] Hr. rewrite Forall_forall in Hrows.
  apply Hrows. by eapply list_elem_of_lookup_2.
Qed.

Lemma cell_get b row col :
  wf_board b → 0 ≤ row → - COLS ≤ col < COLS →
  cell b row col = get b (Z.to_nat row) (Z.to_nat (col `mod` COLS)).
Proof.
  intros Hwf Hrow Hcol. unfold cell, get.
  rewrite py_index_nonneg by done.
  destruct (b !! Z.to_nat row) as [r |] eqn:Hr; [| done]. simpl.
  pose proof (wf_board_lookup b _ r Hwf Hr) as Hlen.
  rewrite py_index_mod by lia. do 3 f_equal. lia.
Qed.

Lemma get_is_Some b row col :
  wf_board b → (row < Z.to_nat ROWS)%nat → (col < Z.to_nat COLS)%nat →
  is_Some (get b row col).
Proof.
  intros Hwf Hrow Hcol. unfold get.
  destruct (lookup_lt_is_Some_2 b row) as [r Hr]; [destruct Hwf; lia |].
  rewrite Hr. simpl. apply lookup_lt_is_Some.
  by rewrite (wf_board_lookup b row r Hwf Hr).
Qed.

Lemma place_wf b row col piece : wf_board b → wf_board (place b row col piece).
Proof.
  intros Hwf. unfold place. destruct (b !! row) as [r |] eqn:Hr; [| done].
  destruct Hwf as [Hlen Hrows]. split.
  - by rewrite length_insert.
  - apply Forall_insert; [done |]. rewrite length_insert.
    rewrite Forall_forall in Hrows. apply Hrows.
    by eapply list_elem_of_lookup_2.
Qed.

Lemma get_place_eq b row col piece :
  is_Some (get b row col) → get (place b row col piece) row col = Some piece.
Proof.
  unfold get, place. intros [c Hc].
  destruct (b !! row) as [r |] eqn:Hr; [| done]. simpl in Hc.
  rewrite list_lookup_insert_eq by (by eapply lookup_lt_Some). simpl.
  apply list_lookup_insert_eq. by eapply lookup_lt_Some.
Qed.

Lemma get_place_ne b row col piece row' col' :
  row' ≠ row ∨ col' ≠ col →
  get (place b row col piece) row' col' = get b row' col'.
Proof.
  unfold get, place. intros Hne.
  destruct (b !! row) as [r |] eqn:Hr; [| done].
  destruct (decide (row' = row)) as [-> | Hrow].
  - rewrite list_lookup_insert_eq by (by eapply lookup_lt_Some).
    rewrite Hr. simpl. apply list_lookup_insert_ne.
    destruct Hne; congruence.
  - by rewrite list_lookup_insert_ne by done.
Qed.

Lemma make_move_loop_place b rows col piece :
  wf_board b → - COLS ≤ col < COLS →
  Forall (λ row, 0 ≤ row < ROWS) rows →
  make_move_loop b rows col piece =
  Some match list_find (λ row, cell b row col = Some EMPTY) rows with
       | Some (_, row) =>
           place b (Z.to_nat row) (Z.to_nat (col `mod` COLS)) piece
       | None => b
       end.
Proof.
  intros Hwf Hcol. induction 1 as [| row rows Hrow _ IH]; [done |].
  simpl.
  destruct (wf_board_row_is_Some b row Hwf) as [r Hr]; [lia |].
  pose proof (wf_board_row b row r Hwf Hr) as Hlen.
  destruct (py_index_is_Some r col) as [c Hc]; [lia |].
  assert (cell b row col = Some c) as Hcell by (unfold cell; by rewrite Hr).
  rewrite Hr. simpl. rewrite Hc. simpl.
  destruct (Z.eqb_spec c EMPTY) as [-> | Hne].
  - rewrite decide_True by done. simpl.
    rewrite py_setitem_mod by lia. simpl.
    rewrite py_setitem_mod by (rewrite (wf_board_length b Hwf); lia).
    rewrite (wf_board_length b Hwf), Hlen.
    rewrite (Z.mod_small row) by lia.
    unfold place. rewrite py_index_nonneg in Hr by lia. by rewrite Hr.
  - rewrite decide_False by congruence. rewrite IH.
    by destruct (list_find _ rows) as [[i row'] |].
Qed.

Lemma py_range_down_rows :
  py_range_down (ROWS - 1) (-1) = [5; 4; 3; 2; 1; 0].
Proof. reflexivity. Qed.

Lemma make_move_place b col piece :
  wf_board b → - COLS ≤ col < COLS →
  make_move b col piece =
  Some match landing_row b col with
       | Some row => place b (Z.to_nat row) (Z.to_nat (col `mod` COLS)) piece
       | None => b
       end.
Proof.
  intros Hwf Hcol. unfold make_move, landing_row.
  rewrite make_move_loop_place; [| done | done |].
  - by destruct (list_find _ _) as [[i row] |].
  - rewrite py_range_down_rows. unfold ROWS. repeat constructor; lia.
Qed.

Lemma make_move_wf b col piece b' :
  wf_board b → - COLS ≤ col < COLS →
  make_move b col piece = Some b' → wf_board b'.
Proof.
  intros Hwf Hcol. rewrite make_move_place by done. intros [= <-].
  destruct (landing_row b col); [by apply place_wf | done].
Qed.

Lemma rows_from_bottom_lookup row :
  0 ≤ row < ROWS →
  py_range_down (ROWS - 1) (-1) !! Z.to_nat (ROWS - 1 - row) = Some row.
Proof.
  intros Hrow. rewrite py_range_down_rows. unfold ROWS in *.
  assert (row = 0 ∨ row = 1 ∨ row = 2 ∨ row = 3 ∨ row = 4 ∨ row = 5)
    as Hcases by lia.
  destruct Hcases as [-> | [-> | [-> | [-> | [-> | ->]]]]]; reflexivity.
Qed.

Lemma rows_from_bottom_elem row :
  row ∈ py_range_down (ROWS - 1) (-1) ↔ 0 ≤ row < ROWS.
Proof.
  unfold py_range_down. rewrite elem_of_reverse, elem_of_seqZ.
  unfold ROWS. lia.
Qed.

Lemma rows_from_bottom_index i row :
  py_range_down (ROWS - 1) (-1) !! i = Some row →
  i = Z.to_nat (ROWS - 1 - row).
Proof.
  rewrite py_range_down_rows. unfold ROWS.
  do 6 (destruct i as [| i]; [intros [= <-]; reflexivity |]).
  done.
Qed.

Lemma landing_row_Some b col row :
  landing_row b col = Some row →
  0 ≤ row < ROWS ∧ cell b row col = Some EMPTY ∧
  ∀ row', row < row' < ROWS → cell b row' col ≠ Some EMPTY.
Proof.
  unfold landing_row. intros ([i x] & Hfind & Hx)%fmap_Some.
  simpl in Hx. subst x.
  apply list_find_Some in Hfind as (Hi & Hempty & Hbelow).
  split; [| split; [done |]].
  - apply rows_from_bottom_elem. by eapply list_elem_of_lookup_2.
  - intros row' Hrow'.
    apply (Hbelow (Z.to_nat (ROWS - 1 - row'))).
    + apply rows_from_bottom_lookup.
      assert (0 ≤ row < ROWS)
        by (apply rows_from_bottom_elem; by eapply list_elem_of_lookup_2).
      lia.
    + apply rows_from_bottom_index in Hi. lia.
Qed.

Lemma landing_row_None b col :
  landing_row b col = None →
  ∀ row, 0 ≤ row < ROWS → cell b row col ≠ Some EMPTY.
Proof.
  unfold landing_row. intros Hnone%fmap_None row Hrow.
  apply list_find_None in Hnone. rewrite Forall_forall in Hnone.
  by apply Hnone, rows_from_bottom_elem.
Qed.

Lemma landing_row_valid b col :
  is_valid_move b col = Some true → is_Some (landing_row b col).
Proof.
  intros Hv. destruct (landing_row b col) as [row |] eqn:Hl; [by eexists |].
  exfalso. apply (landing_row_None b col Hl 0); [unfold ROWS; lia |].
  unfold is_valid_move in Hv. destruct (cell b 0 col) as [c |]; [| done].
  simpl in Hv. injection Hv as Hc%Z.eqb_eq. by subst.
Qed.

(** ** What [make_move] changes *)

Lemma cell_mod b row col :
  wf_board b → - COLS ≤ col < COLS →
  cell b row col = cell b row (col `mod` COLS).
Proof.
  intros Hwf Hcol. destruct (Z.le_gt_cases 0 col).
  - by rewrite Z.mod_small by lia.
  - rewrite cell_wrap by (done || lia). f_equal.
    apply Z.mod_unique with (-1); unfold COLS in *; lia.
Qed.

Lemma number_lt_COLS col : 0 ≤ col `mod` COLS < COLS.
Proof. apply Z.mod_pos_bound. done. Qed.

Lemma cell_make_move b col piece row0 b' :
  wf_board b → - COLS ≤ col < COLS →
  landing_row b col = Some row0 →
  make_move b col piece = Some b' →
  ∀ row c, 0 ≤ row < ROWS → 0 ≤ c < COLS →
    cell b' row c =
    if decide (row = row0 ∧ c = col `mod` COLS) then Some piece
    else cell b row c.
Proof.
  intros Hwf Hcol Hland Hmove row c Hrow Hc.
  pose proof (make_move_wf b col piece b' Hwf Hcol Hmove) as Hwf'.
  rewrite make_move_place, Hland in Hmove by done. injection Hmove as <-.
  apply landing_row_Some in Hland as (Hrow0 & _ & _).
  pose proof (number_lt_COLS col) as Hc0.
  rewrite !cell_get by (done || lia).
  rewrite (Z.mod_small c) by lia.
  destruct (decide (row = row0 ∧ c = col `mod` COLS)) as [[-> ->] | Hne].
  - apply get_place_eq, get_is_Some; [done | unfold ROWS in *; lia | lia].
  - apply get_place_ne. destruct (decide (row = row0)) as [-> | ?].
    + right. intros Heq. apply Hne. split; [done | lia].
    + left. lia.
Qed.

Lemma occupied_not_empty b row col :
  wf_board b → 0 ≤ row < ROWS → - COLS ≤ col < COLS →
  occupied b row col ↔ cell b row col ≠ Some EMPTY.
Proof.
  intros Hwf Hrow Hcol. unfold occupied. split.
  - intros (c & -> & Hne). congruence.
  - intros Hne. destruct (cell_is_Some b row col Hwf) as [c Hc]; [lia | done |].
    exists c. split; [done |]. congruence.
Qed.

Lemma gravityb_step b col row :
  gravityb b = true → 0 ≤ col < COLS → 0 ≤ row < ROWS - 1 →
  occupied b row col → occupied b (row + 1) col.
Proof.
  unfold gravityb. rewrite forallb_forall. intros Hall Hcol Hrow.
  specialize (Hall col). rewrite forallb_forall in Hall.
  assert (In col (py_range 0 COLS)) as Hincol
    by (apply list_elem_of_In, py_range_elem; lia).
  assert (In row (py_range 0 (ROWS - 1))) as Hinrow
    by (apply list_elem_of_In, py_range_elem; lia).
  specialize (Hall Hincol row Hinrow).
  intros (x & Hx & Hne). rewrite Hx in Hall.
  destruct (cell b (row + 1) col) as [y |] eqn:Hy; [| done].
  exists y. split; [done |].
  apply orb_prop in Hall as [Hx0%Z.eqb_eq | Hy0]; [done |].
  apply negb_true_iff in Hy0. by apply Z.eqb_neq.
Qed.

Lemma gravityb_sound b : gravityb b = true → gravity b.
Proof.
  intros Hg col row row' Hcol Hrow Hlt Hrow' Hocc.
  assert (∀ n : nat, row + 1 + Z.of_nat n < ROWS →
            occupied b (row + 1 + Z.of_nat n) col) as Hind.
  { induction n as [| n IH]; intros Hn.
    - rewrite Z.add_0_r. apply gravityb_step; [done | done | lia | done].
    - replace (row + 1 + Z.of_nat (S n)) with (row + 1 + Z.of_nat n + 1)
        by lia.
      apply gravityb_step; [done | done | lia | apply IH; lia]. }
  replace row' with (row + 1 + Z.of_nat (Z.to_nat (row' - row - 1))) by lia.
  apply Hind. lia.
Qed.

Lemma gravity_create_board : gravity create_board.
Proof. by apply gravityb_sound. Qed.

Lemma gravity_make_move b col piece b' :
  wf_board b → gravity b →
  make_move b col piece = Some b' → - COLS ≤ col < COLS → gravity b'.
Proof.
  intros Hwf Hg Hmove Hcol.
  pose proof (make_move_wf b col piece b' Hwf Hcol Hmove) as Hwf'.
  destruct (landing_row b col) as [row0 |] eqn:Hland.
  2:{ rewrite make_move_place, Hland in Hmove by done. by injection Hmove as <-. }
  pose proof (cell_make_move b col piece row0 b' Hwf Hcol Hland Hmove) as Hcell.
  pose proof (landing_row_Some b col row0 Hland) as (Hrow0 & Hempty & Hbelow).
  pose proof (number_lt_COLS col) as Hc0.
  rewrite cell_mod in Hempty by done.
  intros c row row' Hc Hrow Hlt Hrow' Hocc.
  apply occupied_not_empty in Hocc; [| done | lia | lia].
  apply occupied_not_empty; [done | lia | lia |].
  rewrite Hcell in Hocc by lia. rewrite Hcell by lia.
  destruct (decide (row' = row0 ∧ c = col `mod` COLS)) as [[-> ->] | Hne'].
  - rewrite decide_False in Hocc by lia.
    exfalso. apply occupied_not_empty in Hocc; [| done | lia | lia].
    apply (Hg _ row row0) in Hocc; [| lia ..].
    apply occupied_not_empty in Hocc; [done | done | lia | lia].
  - destruct (decide (row = row0 ∧ c = col `mod` COLS)) as [[-> ->] | Hne].
    + rewrite <- cell_mod by done. apply Hbelow. lia.
    + apply occupied_not_empty; [done | lia | lia |].
      apply (Hg c row row'); [lia .. |].
      apply occupied_not_empty; [done | lia | lia | done].
Qed.

Lemma reachable_wf_gravity b : reachable b → wf_board b ∧ gravity b.
Proof.
  induction 1 as [| b col piece b' _ [Hwf Hg] Hvalid Hmove].
  - split; [apply create_board_wf | apply gravity_create_board].
  - pose proof (is_valid_move_range b col true Hwf Hvalid) as Hcol.
    split; [by eapply make_move_wf | by eapply gravity_make_move].
Qed.

(** C8: the empty board satisfies gravity, a legal [make_move] preserves
    it, and so every reachable board satisfies it. *)
Theorem gravity_invariant :
  gravity create_board ∧
  (∀ b col piece b',
     wf_board b → gravity b → is_valid_move b col = Some true →
     make_move b col piece = Some b' → gravity b') ∧
  (∀ b, reachable b → gravity b).
Proof.
  split; [apply gravity_create_board |]. split.
  - intros b col piece b' Hwf Hg Hvalid Hmove.
    eapply gravity_make_move; [done .. |].
    by eapply is_valid_move_range.
  - intros b Hb. by apply reachable_wf_gravity.
Qed.

Lemma sample_board_gravity : gravity sample_board.
Proof. by apply gravityb_sound. Qed.

Lemma gravity_invariant_witness :
  gravity create_board ∧
  gravity [ [0; 0; 0; 0; 0];
            [2; 0; 0; 0; 0];
            [2; 0; 0; 0; 0];
            [1; 0; 0; 0; 0];
            [2; 0; 1; 0; 0];
            [1; 2; 1; 2; 1] ] ∧
  (∀ b, reachable b → gravity b).
Proof.
  destruct gravity_invariant as (Hempty & Hstep & Hreach).
  split; [exact Hempty |]. split; [| exact Hreach].
  apply (Hstep sample_board 0 2).
  - exact sample_board_wf.
  - exact sample_board_gravity.
  - reflexivity.
  - reflexivity.
Defined.

(** ** A full column *)

Lemma landing_row_full b col :
  wf_board b → gravity b → is_valid_move b col = Some false →
  landing_row b col = None.
Proof.
  intros Hwf Hg Hvalid.
  pose proof (is_valid_move_range b col false Hwf Hvalid) as Hcol.
  pose proof (number_lt_COLS col) as Hc0.
  destruct (landing_row b col) as [row |] eqn:Hland; [exfalso | done].
  apply landing_row_Some in Hland as (Hrow & Hempty & _).
  assert (occupied b 0 (col `mod` COLS)) as Htop.
  { unfold occupied. rewrite <- cell_mod by done.
    unfold is_valid_move in Hvalid.
    destruct (cell b 0 col) as [c |]; [| done]. simpl in Hvalid.
    exists c. split; [done |]. injection Hvalid as Hc. by apply Z.eqb_neq. }
  rewrite cell_mod in Hempty by done.
  destruct (decide (row = 0)) as [-> | Hne].
  - apply occupied_not_empty in Htop; [done | done | unfold ROWS; lia | lia].
  - apply (Hg _ 0 row) in Htop; [| lia ..].
    apply occupied_not_empty in Htop; [done | done | lia | lia].
Qed.

(** C3 (as the code has it): on a board that satisfies gravity,
    [make_move] on a column that is not playable raises nothing and
    returns a board equal to its input. *)
Theorem make_move_full_column_unchanged (b : board) (col piece : Z) :
  wf_board b → gravity b → is_valid_move b col = Some false →
  make_move b col piece = Some b.
Proof.
  intros Hwf Hg Hvalid.
  rewrite make_move_place by (done || by eapply is_valid_move_range).
  by rewrite landing_row_full.
Qed.

Lemma full_column_board_wf : wf_board full_column_board.
Proof. by apply wf_boardb_true. Qed.

Lemma full_column_board_gravity : gravity full_column_board.
Proof. by apply gravityb_sound. Qed.

Lemma make_move_full_column_unchanged_witness :
  (wf_board full_column_board ∧ gravity full_column_board ∧
   is_valid_move full_column_board 0 = Some false) ∧
  make_move full_column_board 0 AI_PIECE = Some full_column_board.
Proof.
  split.
  - split; [exact full_column_board_wf |].
    split; [exact full_column_board_gravity | reflexivity].
  - apply (make_move_full_column_unchanged full_column_board 0 AI_PIECE).
    + exact full_column_board_wf.
    + exact full_column_board_gravity.
    + reflexivity.
Defined.

(** C3, refuted: column 0 is full, and [make_move] returns normally with
    the position unchanged. *)
Lemma make_move_full_column_counterexample :
  is_valid_move full_column_board 0 = Some false ∧
  make_move full_column_board 0 HUMAN_PIECE = Some full_column_board.
Proof. split; reflexivity. Qed.

(** ** Counting the cells of a column *)

Lemma column_array_lookup b col :
  wf_board b → - COLS ≤ col < COLS →
  ∃ arr, column_array b col = Some arr ∧ length arr = Z.to_nat ROWS ∧
         ∀ i, (i < Z.to_nat ROWS)%nat → arr !! i = cell b (Z.of_nat i) col.
Proof.
  intros Hwf Hcol. unfold column_array.
  destruct (mapM (λ row, cell b row col) (py_range 0 ROWS)) as [arr |] eqn:Harr.
  2:{ exfalso. apply eq_None_not_Some in Harr. apply Harr.
      apply mapM_is_Some, Forall_forall. intros row Hrow%py_range_elem.
      apply cell_is_Some; [done | lia | done]. }
  exists arr. split; [done |].
  apply mapM_Some in Harr.
  pose proof (Forall2_length _ _ _ Harr) as Hlen.
  unfold py_range in Hlen. rewrite length_seqZ in Hlen.
  split; [by rewrite <- Hlen |].
  intros i Hi.
  destruct (lookup_lt_is_Some_2 arr i) as [y Hy]; [lia |].
  rewrite Hy. symmetry.
  eapply (Forall2_lookup_lr _ _ _ i (Z.of_nat i) y Harr); [| done].
  unfold py_range. rewrite lookup_seqZ. split; lia.
Qed.

Lemma filter_length_insert {A} (P : A → Prop) `{∀ x, Decision (P x)}
    (l : list A) (i : nat) (x y : A) :
  l !! i = Some x → ¬ P x → P y →
  length (filter P (<[i := y]> l)) = S (length (filter P l)).
Proof.
  revert i. induction l as [| a l IH]; intros i Hi Hx Hy; [done |].
  destruct i as [| i]; simpl in *.
  - injection Hi as ->. rewrite !filter_cons.
    rewrite decide_True by done. by rewrite decide_False by done.
  - rewrite !filter_cons. destruct (decide (P a)); simpl; by rewrite IH.
Qed.

Lemma column_array_make_move b col piece row0 b' arr :
  wf_board b → - COLS ≤ col < COLS →
  landing_row b col = Some row0 →
  make_move b col piece = Some b' →
  column_array b col = Some arr →
  column_array b' col = Some (<[Z.to_nat row0 := piece]> arr).
Proof.
  intros Hwf Hcol Hland Hmove Harr.
  pose proof (make_move_wf b col piece b' Hwf Hcol Hmove) as Hwf'.
  pose proof (cell_make_move b col piece row0 b' Hwf Hcol Hland Hmove) as Hcell.
  pose proof (landing_row_Some b col row0 Hland) as (Hrow0 & _ & _).
  pose proof (number_lt_COLS col) as Hc0.
  destruct (column_array_lookup b col Hwf Hcol) as (arr0 & Harr0 & Hlen & Hlook).
  rewrite Harr in Harr0. injection Harr0 as <-.
  destruct (column_array_lookup b' col Hwf' Hcol) as (arr' & Harr' & Hlen' & Hlook').
  rewrite Harr'. f_equal. apply list_eq. intros i.
  destruct (decide (i < Z.to_nat ROWS)%nat) as [Hi | Hi].
  - rewrite Hlook' by done. rewrite cell_mod, Hcell by (done || lia).
    destruct (decide (i = Z.to_nat row0)) as [-> | Hne].
    + rewrite decide_True by (split; [lia | done]).
      by rewrite list_lookup_insert_eq by lia.
    + rewrite decide_False by lia.
      rewrite list_lookup_insert_ne by done.
      rewrite Hlook by done. by rewrite <- cell_mod.
  - rewrite !lookup_ge_None_2; [done | rewrite length_insert; lia | lia].
Qed.

(** C7: a legal [make_move] of a piece adds exactly one occupied cell to
    the chosen column and changes no cell of any other column.  ([col] may
    be a negative Python index; [col mod COLS] is the column it names.) *)
Theorem make_move_one_more_in_column (b : board) (col piece : Z) :
  wf_board b → piece ≠ EMPTY → is_valid_move b col = Some true →
  ∃ b', make_move b col piece = Some b' ∧
    (∃ n, occupied_in_column b col = Some n ∧
          occupied_in_column b' col = Some (S n)) ∧
    (∀ row c, 0 ≤ row < ROWS → 0 ≤ c < COLS → c ≠ col `mod` COLS →
       cell b' row c = cell b row c).
Proof.
  intros Hwf Hpiece Hvalid.
  pose proof (is_valid_move_range b col true Hwf Hvalid) as Hcol.
  destruct (landing_row_valid b col Hvalid) as [row0 Hland].
  destruct (make_move b col piece) as [b' |] eqn:Hmove.
  2:{ by rewrite make_move_place in Hmove. }
  exists b'. split; [done |]. split.
  - destruct (column_array_lookup b col Hwf Hcol) as (arr & Harr & Hlen & Hlook).
    pose proof (landing_row_Some b col row0 Hland) as (Hrow0 & Hempty & _).
    unfold occupied_in_column.
    rewrite (column_array_make_move b col piece row0 b' arr) by done.
    rewrite Harr. simpl. eexists. split; [done |]. f_equal.
    apply filter_length_insert with EMPTY; [| by intros ? | done].
    rewrite Hlook by lia. by rewrite Z2Nat.id by lia.
  - intros row c Hrow Hc Hne.
    rewrite (cell_make_move b col piece row0 b') by done.
    by rewrite decide_False by (intros [_ ?]; done).
Qed.

Lemma make_move_one_more_in_column_witness :
  (wf_board sample_board ∧ AI_PIECE ≠ EMPTY ∧
   is_valid_move sample_board 0 = Some true) ∧
  ∃ b', make_move sample_board 0 AI_PIECE = Some b' ∧
    (∃ n, occupied_in_column sample_board 0 = Some n ∧
          occupied_in_column b' 0 = Some (S n)) ∧
    (∀ row c, 0 ≤ row < ROWS → 0 ≤ c < COLS → c ≠ 0 `mod` COLS →
       cell b' row c = cell sample_board row c).
Proof.
  split.
  - split; [exact sample_board_wf |]. split; [done | reflexivity].
  - apply (make_move_one_more_in_column sample_board 0 AI_PIECE).
    + exact sample_board_wf.
    + done.
    + reflexivity.
Defined.

(** ** Window scores *)

Lemma count_occ_three (l : list Z) (x y z : Z) :
  x ≠ y → y ≠ z → x ≠ z →
  (count_occ Z.eq_dec l x + count_occ Z.eq_dec l y + count_occ Z.eq_dec l z
   ≤ length l)%nat.
Proof.
  intros Hxy Hyz Hxz. induction l as [| a l IH]; simpl; [lia |].
  destruct (Z.eq_dec a x), (Z.eq_dec a y), (Z.eq_dec a z); subst;
    try done; lia.
Qed.

Lemma count_occ_all (l : list Z) (x : Z) :
  count_occ Z.eq_dec l x = length l → l = replicate (length l) x.
Proof.
  induction l as [| a l IH]; simpl; [done |].
  pose proof (count_occ_bound Z.eq_dec x l).
  destruct (Z.eq_dec a x) as [-> | Hne]; [| lia].
  intros [= Hc]. by rewrite <- IH.
Qed.

Lemma window_all_four (w : list Z) (x : Z) :
  length w = 4%nat →
  (py_count w x =? 4) = bool_decide (w = [x; x; x; x]).
Proof.
  intros Hlen. unfold py_count.
  destruct (Z.eqb_spec (Z.of_nat (count_occ Z.eq_dec w x)) 4) as [Hc | Hc].
  - rewrite bool_decide_eq_true_2; [done |].
    rewrite (count_occ_all w x) by lia. by rewrite Hlen.
  - rewrite bool_decide_eq_false_2; [done |].
    intros ->. apply Hc. simpl. by destruct (Z.eq_dec x x).
Qed.

Lemma window_three_one (w : list Z) (x y : Z) :
  length w = 4%nat → x ≠ y →
  (py_count w x =? 3) && (py_count w y =? 1) =
  bool_decide (w ≡ₚ [x; x; x; y]).
Proof.
  intros Hlen Hxy. unfold py_count.
  destruct (bool_decide_reflect (w ≡ₚ [x; x; x; y])) as [Hp | Hp].
  - rewrite (Permutation_count_occ Z.eq_dec) in Hp. rewrite !Hp. simpl.
    destruct (Z.eq_dec x x), (Z.eq_dec y x), (Z.eq_dec x y), (Z.eq_dec y y);
      done.
  - apply andb_false_iff.
    destruct (Z.eqb_spec (Z.of_nat (count_occ Z.eq_dec w x)) 3) as [Hx |];
      [| by left].
    destruct (Z.eqb_spec (Z.of_nat (count_occ Z.eq_dec w y)) 1) as [Hy |];
      [| by right].
    exfalso. apply Hp. apply (Permutation_count_occ Z.eq_dec). intros z.
    simpl. destruct (Z.eq_dec x z) as [<- | Hxz].
    + destruct (Z.eq_dec y x); [done | lia].
    + destruct (Z.eq_dec y z) as [<- | Hyz]; [lia |].
      pose proof (count_occ_three w x y z Hxy Hyz Hxz). lia.
Qed.

Lemma window_two_two (w : list Z) (x y : Z) :
  length w = 4%nat → x ≠ y →
  (py_count w x =? 2) && (py_count w y =? 2) =
  bool_decide (w ≡ₚ [x; x; y; y]).
Proof.
  intros Hlen Hxy. unfold py_count.
  destruct (bool_decide_reflect (w ≡ₚ [x; x; y; y])) as [Hp | Hp].
  - rewrite (Permutation_count_occ Z.eq_dec) in Hp. rewrite !Hp. simpl.
    destruct (Z.eq_dec x x), (Z.eq_dec y x), (Z.eq_dec x y), (Z.eq_dec y y);
      done.
  - apply andb_false_iff.
    destruct (Z.eqb_spec (Z.of_nat (count_occ Z.eq_dec w x)) 2) as [Hx |];
      [| by left].
    destruct (Z.eqb_spec (Z.of_nat (count_occ Z.eq_dec w y)) 2) as [Hy |];
      [| by right].
    exfalso. apply Hp. apply (Permutation_count_occ Z.eq_dec). intros z.
    simpl. destruct (Z.eq_dec x z) as [<- | Hxz].
    + destruct (Z.eq_dec y x); [done | lia].
    + destruct (Z.eq_dec y z) as [<- | Hyz]; [lia |].
      pose proof (count_occ_three w x y z Hxy Hyz Hxz). lia.
Qed.

(** C9: on a window of four cells, [evaluate_window] is the score the
    specification describes, for either player's piece. *)
Theorem evaluate_window_scoreWindow (window : list Z) (piece : Z) :
  length window = 4%nat →
  piece = HUMAN_PIECE ∨ piece = AI_PIECE →
  evaluate_window window piece = scoreWindow window piece.
Proof.
  intros Hlen Hpiece. unfold evaluate_window, scoreWindow.
  assert (piece ≠ EMPTY) as Hp0 by (by destruct Hpiece as [-> | ->]).
  assert ((if piece =? AI_PIECE then HUMAN_PIECE else AI_PIECE)
          = other_piece piece) as ->
    by (by destruct Hpiece as [-> | ->]).
  assert (other_piece piece ≠ EMPTY) as Ho0 by (by destruct Hpiece as [-> | ->]).
  rewrite (window_all_four window piece Hlen).
  rewrite (window_three_one window piece EMPTY Hlen Hp0).
  rewrite (window_two_two window piece EMPTY Hlen Hp0).
  rewrite (window_three_one window (other_piece piece) EMPTY Hlen Ho0).
  repeat case_bool_decide; lia.
Qed.

Lemma evaluate_window_scoreWindow_witness :
  (length [2; 2; 0; 2] = 4%nat ∧ (AI_PIECE = HUMAN_PIECE ∨ AI_PIECE = AI_PIECE)) ∧
  evaluate_window [2; 2; 0; 2] AI_PIECE = scoreWindow [2; 2; 0; 2] AI_PIECE.
Proof.
  split; [split; [reflexivity | by right] |].
  apply (evaluate_window_scoreWindow [2; 2; 0; 2] AI_PIECE);
    [reflexivity | by right].
Defined.

Example evaluate_window_values :
  evaluate_window [2; 2; 0; 2] AI_PIECE = 5 ∧
  evaluate_window [2; 2; 0; 2] HUMAN_PIECE = -4 ∧
  evaluate_window [1; 0; 0; 1] HUMAN_PIECE = 2 ∧
  evaluate_window [1; 1; 1; 1] HUMAN_PIECE = 100 ∧
  evaluate_window [1; 2; 0; 1] HUMAN_PIECE = 0.
Proof. repeat split. Qed.

(** ** The board as Python objects: [make_move] leaves its input alone *)

Module HeapFacts.
Import Heap.

Lemma preserved_refl h : preserved h h.
Proof. by split. Qed.

Lemma preserved_trans h1 h2 h3 :
  preserved h1 h2 → preserved h2 h3 → preserved h1 h3.
Proof. intros [Hr Hg] [Hr' Hg']. split; eauto. Qed.

Lemma fresh_row_None h : row_objs h !! fresh (dom (row_objs h)) = None.
Proof. apply not_elem_of_dom, is_fresh. Qed.

Lemma fresh_grid_None h : grid_objs h !! fresh (dom (grid_objs h)) = None.
Proof. apply not_elem_of_dom, is_fresh. Qed.

Lemma set_row_preserved h l r :
  row_objs h !! l = None → preserved h (set_row h l r).
Proof.
  intros Hl. split; simpl; [| done].
  intros l0 r0 Hl0. rewrite lookup_insert_ne; [done | congruence].
Qed.

Lemma set_grid_preserved h g ls :
  grid_objs h !! g = None → preserved h (set_grid h g ls).
Proof.
  intros Hg. split; simpl; [done |].
  intros g0 ls0 Hg0. rewrite lookup_insert_ne; [done | congruence].
Qed.

(** Writing to a row that [h0] does not hold keeps [h0]'s objects. *)
Lemma set_row_preserved_from h0 h l r :
  preserved h0 h → row_objs h0 !! l = None → preserved h0 (set_row h l r).
Proof.
  intros [Hr Hg] Hl. split; simpl; [| done].
  intros l0 r0 Hl0. rewrite lookup_insert_ne; [by apply Hr | congruence].
Qed.

Lemma read_board_preserved h h' g v :
  preserved h h' → read_board h g = Some v → read_board h' g = Some v.
Proof.
  intros [Hr Hg]. unfold read_board.
  destruct (grid_objs h !! g) as [ls |] eqn:Hls; [| done]. simpl.
  rewrite (Hg g ls Hls). simpl. rewrite !mapM_Some.
  intros Hall. eapply Forall2_impl; [done |]. intros l r. apply Hr.
Qed.

Lemma copies_ok_mono h0 h h' memo :
  copies_ok h0 h memo → preserved h h' → grid_objs h' = grid_objs h0 →
  copies_ok h0 h' memo.
Proof.
  intros (Hp & Hg & Hm) Hp' Hg'.
  split; [by eapply preserved_trans |]. split; [done |].
  intros l l' Hl. destruct (Hm l l' Hl) as [Hnone [r Hr]].
  split; [done |]. exists r. by apply Hp'.
Qed.

Lemma deepcopy_rows_ok h0 ls : ∀ h memo ls' h' memo',
  copies_ok h0 h memo →
  deepcopy_rows h memo ls = Some (ls', h', memo') →
  copies_ok h0 h' memo' ∧ preserved h h' ∧
  Forall (λ l', row_objs h0 !! l' = None ∧ is_Some (row_objs h' !! l')) ls'.
Proof.
  induction ls as [| l ls IH]; intros h memo ls' h' memo' Hok Hcopy;
    simpl in Hcopy.
  { injection Hcopy as <- <- <-.
    split; [done |]. split; [apply preserved_refl | constructor]. }
  destruct (memo !! l) as [l1 |] eqn:Hmemo.
  - destruct (deepcopy_rows h memo ls) as [[[rest h1] memo1] |] eqn:Hrest;
      [| done].
    simpl in Hcopy. injection Hcopy as <- <- <-.
    destruct (IH _ _ _ _ _ Hok Hrest) as (Hok1 & Hp1 & Hall).
    split; [done |]. split; [done |]. constructor; [| done].
    destruct Hok as (_ & _ & Hm). destruct (Hm l l1 Hmemo) as [Hnone [r Hr]].
    split; [done |]. exists r. by apply Hp1.
  - destruct (row_objs h !! l) as [r |] eqn:Hr; [| done]. simpl in Hcopy.
    set (l1 := fresh (dom (row_objs h))) in *.
    destruct (deepcopy_rows (set_row h l1 r) (<[l := l1]> memo) ls)
      as [[[rest h1] memo1] |] eqn:Hrest; [| done].
    simpl in Hcopy. injection Hcopy as <- <- <-.
    pose proof (fresh_row_None h) as Hfresh. fold l1 in Hfresh.
    assert (row_objs h0 !! l1 = None) as Hfresh0.
    { destruct Hok as ((Hrows & _) & _).
      destruct (row_objs h0 !! l1) as [x |] eqn:Hx; [| done].
      apply Hrows in Hx. congruence. }
    assert (copies_ok h0 (set_row h l1 r) (<[l := l1]> memo)) as Hok1.
    { destruct Hok as (Hp & Hg & Hm).
      split; [by apply set_row_preserved_from |]. split; [done |].
      intros x x' Hx. destruct (decide (x = l)) as [-> | Hne].
      - rewrite lookup_insert_eq in Hx. injection Hx as <-.
        split; [done |]. simpl. rewrite lookup_insert_eq. by eexists.
      - rewrite lookup_insert_ne in Hx by done.
        destruct (Hm x x' Hx) as [Hnone [rx Hrx]]. split; [done |].
        exists rx. simpl. rewrite lookup_insert_ne; [done | congruence]. }
    destruct (IH _ _ _ _ _ Hok1 Hrest) as (Hok2 & Hp2 & Hall).
    split; [done |]. split.
    { eapply preserved_trans; [by apply set_row_preserved | done]. }
    constructor; [| done]. split; [done |].
    exists r. apply Hp2. simpl. by rewrite lookup_insert_eq.
Qed.

Lemma deepcopy_rows_total ls : ∀ h memo,
  (∀ l, l ∈ ls → is_Some (row_objs h !! l) ∨ is_Some (memo !! l)) →
  is_Some (deepcopy_rows h memo ls).
Proof.
  induction ls as [| l ls IH]; intros h memo Hls; simpl; [by eexists |].
  destruct (memo !! l) as [l1 |] eqn:Hmemo.
  - destruct (IH h memo) as [[[rest h1] memo1] Hrest].
    { intros x Hx. apply Hls. by right. }
    rewrite Hrest. by eexists.
  - destruct (Hls l) as [[r Hr] | [? ?]]; [left | | congruence].
    rewrite Hr. simpl.
    destruct (IH (set_row h (fresh (dom (row_objs h))) r)
                 (<[l := fresh (dom (row_objs h))]> memo))
      as [[[rest h1] memo1] Hrest].
    { intros x Hx. destruct (Hls x) as [[rx Hrx] | Hm]; [by right | |].
      - left. exists rx.
        by apply (set_row_preserved h _ r (fresh_row_None h)).
      - right. destruct (decide (x = l)) as [-> | Hne].
        + rewrite lookup_insert_eq. by eexists.
        + by rewrite lookup_insert_ne. }
    rewrite Hrest. by eexists.
Qed.

Lemma make_move_loop_preserved h0 nb ls col piece rows : ∀ h res h',
  preserved h0 h →
  grid_objs h !! nb = Some ls →
  Forall (λ l, row_objs h0 !! l = None) ls →
  make_move_loop h nb rows col piece = Some (res, h') →
  preserved h0 h'.
Proof.
  induction rows as [| row rows IH]; intros h res h' Hp Hnb Hfresh Hloop;
    simpl in Hloop.
  { by injection Hloop as <- <-. }
  rewrite Hnb in Hloop. simpl in Hloop.
  destruct (py_index ls row) as [l |] eqn:Hl.
  2:{ by injection Hloop as <- <-. }
  destruct (row_objs h !! l) as [r |] eqn:Hr; [| done]. simpl in Hloop.
  destruct (py_index r col) as [c |] eqn:Hc.
  2:{ by injection Hloop as <- <-. }
  destruct (c =? EMPTY).
  - destruct (py_setitem r col piece) as [r' |].
    2:{ by injection Hloop as <- <-. }
    injection Hloop as <- <-.
    apply set_row_preserved_from; [done |].
    rewrite Forall_forall in Hfresh. apply Hfresh.
    unfold py_index in Hl.
    repeat case_match; try done; by eapply list_elem_of_lookup_2.
  - by eapply IH.
Qed.

Lemma make_move_loop_total nb ls col piece rows h :
  grid_objs h !! nb = Some ls →
  Forall (λ l, is_Some (row_objs h !! l)) ls →
  is_Some (make_move_loop h nb rows col piece).
Proof.
  intros Hnb Hrows. induction rows as [| row rows IH]; simpl; [by eexists |].
  rewrite Hnb. simpl.
  destruct (py_index ls row) as [l |] eqn:Hl; [| by eexists].
  assert (l ∈ ls) as Hin.
  { unfold py_index in Hl.
    repeat case_match; try done; by eapply list_elem_of_lookup_2. }
  rewrite Forall_forall in Hrows. destruct (Hrows l Hin) as [r Hr].
  rewrite Hr. simpl.
  destruct (py_index r col) as [c |]; [| by eexists].
  destruct (c =? EMPTY); [| done].
  destruct (py_setitem r col piece); by eexists.
Qed.

Lemma deepcopy_ok h g nb h1 :
  deepcopy h g = Some (nb, h1) →
  preserved h h1 ∧
  ∃ ls', grid_objs h1 !! nb = Some ls' ∧
    Forall (λ l', row_objs h !! l' = None ∧ is_Some (row_objs h1 !! l')) ls'.
Proof.
  unfold deepcopy. intros Hcopy.
  destruct (grid_objs h !! g) as [ls |]; [| done]. simpl in Hcopy.
  destruct (deepcopy_rows h ∅ ls) as [[[ls' h'] memo'] |] eqn:Hrows;
    [| done].
  simpl in Hcopy. injection Hcopy as <- <-.
  destruct (deepcopy_rows_ok h ls h ∅ ls' h' memo') as (Hok & _ & Hall);
    [| done |].
  { split; [apply preserved_refl |]. split; [done |].
    intros l l' Hl. by rewrite lookup_empty in Hl. }
  destruct Hok as (Hp & _ & _). split.
  - eapply preserved_trans; [done |].
    apply set_grid_preserved, fresh_grid_None.
  - exists ls'. simpl. by rewrite lookup_insert_eq.
Qed.

Lemma deepcopy_total h g v :
  read_board h g = Some v → is_Some (deepcopy h g).
Proof.
  unfold read_board, deepcopy. intros Hread.
  destruct (grid_objs h !! g) as [ls |]; [| done]. simpl in *.
  destruct (deepcopy_rows_total ls h ∅) as [[[ls' h'] memo'] Hrows].
  { intros l Hl. left. apply mapM_Some in Hread.
    apply list_elem_of_lookup in Hl as [i Hi].
    destruct (Forall2_lookup_l _ _ _ _ _ Hread Hi) as (r & _ & Hr).
    by exists r. }
  rewrite Hrows. by eexists.
Qed.

Lemma make_move_preserved h b col piece res h' :
  make_move h b col piece = Some (res, h') → preserved h h'.
Proof.
  unfold make_move. generalize (py_range_down (ROWS - 1) (-1)).
  intros rows Hmove.
  destruct (deepcopy h b) as [[nb h1] |] eqn:Hcopy; [| done].
  simpl in Hmove.
  destruct (make_move_loop h1 nb rows col piece) as [[res2 h2] |] eqn:Hloop;
    [| done].
  simpl in Hmove. injection Hmove as _ <-.
  destruct (deepcopy_ok h b nb h1 Hcopy) as (Hp & ls' & Hnb & Hall).
  eapply make_move_loop_preserved; [done | done | | done].
  eapply Forall_impl; [done |]. by intros l [? _].
Qed.

Lemma make_move_total h b v col piece :
  read_board h b = Some v → is_Some (make_move h b col piece).
Proof.
  intros Hread. unfold make_move.
  generalize (py_range_down (ROWS - 1) (-1)). intros rows.
  destruct (deepcopy_total h b v Hread) as [[nb h1] Hcopy].
  rewrite Hcopy. simpl.
  destruct (deepcopy_ok h b nb h1 Hcopy) as (_ & ls' & Hnb & Hall).
  destruct (make_move_loop_total nb ls' col piece rows h1)
    as [[res h2] Hloop]; [done | |].
  { eapply Forall_impl; [done |]. by intros l [_ ?]. }
  rewrite Hloop. by eexists.
Qed.
End HeapFacts.

(** C10: [make_move] never mutates its input.  For every heap and every
    board reference in it, the call returns (a new board or an
    [IndexError]), every object the heap held before the call is unchanged
    after it, and the input reference still denotes the same board, cell
    for cell. *)
Theorem make_move_keeps_input (h : Heap.heap) (b : Heap.loc)
    (v : board) (col piece : Z) :
  Heap.read_board h b = Some v →
  ∃ res h', Heap.make_move h b col piece = Some (res, h') ∧
    Heap.preserved h h' ∧ Heap.read_board h' b = Some v.
Proof.
  intros Hread.
  destruct (HeapFacts.make_move_total h b v col piece Hread)
    as [[res h'] Hmove].
  exists res, h'. split; [done |].
  pose proof (HeapFacts.make_move_preserved h b col piece res h' Hmove).
  split; [done |]. by eapply HeapFacts.read_board_preserved.
Qed.

Lemma make_move_keeps_input_witness :
  Heap.read_board initial_heap initial_board = Some create_board ∧
  ∃ res h', Heap.make_move initial_heap initial_board 2 AI_PIECE
              = Some (res, h') ∧
    Heap.preserved initial_heap h' ∧
    Heap.read_board h' initial_board = Some create_board.
Proof.
  split; [vm_compute; reflexivity |].
  apply (make_move_keeps_input initial_heap initial_board create_board 2
           AI_PIECE).
  vm_compute; reflexivity.
Defined.

(** ** The board values are a faithful reading of the objects

    On a board whose rows are distinct objects, as [Heap.create_board]
    builds them and [Heap.make_move] keeps them, [Heap.make_move] computes
    the [make_move] on board values that the search is written with. *)

Lemma py_index_lookup {A} (l : list A) (i : Z) (x : A) :
  py_index l i = Some x →
  ∃ n, l !! n = Some x ∧
       n = Z.to_nat (i `mod` Z.of_nat (length l)) ∧
       ∀ y, py_setitem l i y = Some (<[n := y]> l).
Proof.
  intros Hx. pose proof (py_index_Some_range l i x Hx) as Hi.
  exists (Z.to_nat (i `mod` Z.of_nat (length l))).
  rewrite py_index_mod in Hx by done. split; [done |]. split; [done |].
  intros y. by apply py_setitem_mod.
Qed.

Lemma py_index_same_length {A B} (l : list A) (k : list B) (i : Z) :
  length l = length k →
  py_index l i = None → py_index k i = None.
Proof.
  intros Hlen Hnone.
  destruct (py_index k i) as [y |] eqn:Hy; [| done].
  apply py_index_Some_range in Hy. rewrite <- Hlen in Hy.
  destruct (py_index_is_Some l i Hy) as [x Hx]. congruence.
Qed.

Lemma read_board_holds h g v :
  Heap.read_board h g = Some v ↔
  ∃ ls, Heap.grid_objs h !! g = Some ls ∧ Heap.holds h ls v.
Proof.
  unfold Heap.read_board, Heap.holds. split.
  - destruct (Heap.grid_objs h !! g) as [ls |]; [| done]. simpl.
    intros Hv%mapM_Some. by exists ls.
  - intros (ls & -> & Hv). simpl. by apply mapM_Some.
Qed.

Lemma holds_set_row h ls v l n r r' :
  NoDup ls → Heap.holds h ls v → ls !! n = Some l → v !! n = Some r →
  Heap.holds (Heap.set_row h l r') ls (<[n := r']> v).
Proof.
  intros Hnodup Hholds Hl Hr. unfold Heap.holds in *.
  apply Forall2_same_length_lookup. split.
  { rewrite length_insert. by eapply Forall2_length. }
  intros j l0 r0 Hl0 Hr0. simpl.
  destruct (decide (j = n)) as [-> | Hne].
  - rewrite list_lookup_insert_eq in Hr0 by (by eapply lookup_lt_Some).
    injection Hr0 as <-. rewrite Hl in Hl0. injection Hl0 as <-.
    by rewrite lookup_insert_eq.
  - rewrite list_lookup_insert_ne in Hr0 by done.
    rewrite lookup_insert_ne.
    + exact (Forall2_lookup_lr _ _ _ j l0 r0 Hholds Hl0 Hr0).
    + intros <-. apply Hne. by eapply NoDup_lookup.
Qed.

Lemma make_move_loop_refines nb ls col piece rows : ∀ h v,
  Heap.grid_objs h !! nb = Some ls → NoDup ls → Heap.holds h ls v →
  match make_move_loop v rows col piece with
  | Some v' =>
      ∃ h', Heap.make_move_loop h nb rows col piece = Some (Heap.Ok (), h') ∧
            Heap.grid_objs h' !! nb = Some ls ∧ Heap.holds h' ls v'
  | None =>
      ∃ h', Heap.make_move_loop h nb rows col piece = Some (Heap.IndexError, h')
  end.
Proof.
  induction rows as [| row rows IH]; intros h v Hnb Hnodup Hholds; simpl.
  { by exists h. }
  rewrite Hnb. simpl.
  pose proof (Forall2_length _ _ _ Hholds) as Hlen.
  destruct (py_index v row) as [r |] eqn:Hr; simpl.
  2:{ rewrite (py_index_same_length v ls row); [by eexists | done | done]. }
  destruct (py_index_lookup v row r Hr) as (n & Hn & Hidx & Hset).
  assert (∃ l, py_index ls row = Some l ∧ ls !! n = Some l) as (l & Hl & Hln).
  { destruct (py_index ls row) as [l |] eqn:Hl.
    - exists l. split; [done |].
      destruct (py_index_lookup ls row l Hl) as (n' & Hn' & Hidx' & _).
      rewrite Hlen in Hidx'. congruence.
    - rewrite (py_index_same_length ls v row) in Hr; done. }
  rewrite Hl.
  rewrite (Forall2_lookup_lr _ _ _ n l r Hholds Hln Hn). simpl.
  destruct (py_index r col) as [c |] eqn:Hc; simpl; [| by eexists].
  destruct (c =? EMPTY).
  - destruct (py_index_lookup r col c Hc) as (k & _ & _ & Hsetr).
    rewrite Hsetr. simpl. rewrite Hset.
    eexists. split; [done |]. split; [done |].
    by eapply holds_set_row.
  - by apply IH.
Qed.

Lemma deepcopy_rows_distinct ls : ∀ h memo ls' h' memo',
  NoDup ls → (∀ l, l ∈ ls → memo !! l = None) →
  Forall (λ l, is_Some (Heap.row_objs h !! l)) ls →
  Heap.deepcopy_rows h memo ls = Some (ls', h', memo') →
  NoDup ls' ∧
  Forall (λ l', Heap.row_objs h !! l' = None) ls' ∧
  Forall2 (λ l l', Heap.row_objs h' !! l' = Heap.row_objs h !! l) ls ls' ∧
  Heap.preserved h h' ∧ Heap.grid_objs h' = Heap.grid_objs h.
Proof.
  induction ls as [| l ls IH];
    intros h memo ls' h' memo' Hnodup Hmemo Hrows Hcopy; simpl in Hcopy.
  { injection Hcopy as <- <- <-.
    repeat split; (constructor || done). }
  apply NoDup_cons in Hnodup as [Hl Hnodup].
  apply Forall_cons in Hrows as [[r Hr] Hrows].
  rewrite (Hmemo l) in Hcopy by left. rewrite Hr in Hcopy. simpl in Hcopy.
  set (l1 := fresh (dom (Heap.row_objs h))) in *.
  pose proof (HeapFacts.fresh_row_None h) as Hfresh. fold l1 in Hfresh.
  destruct (Heap.deepcopy_rows (Heap.set_row h l1 r) (<[l := l1]> memo) ls)
    as [[[rest h1] memo1] |] eqn:Hrest; [| done].
  simpl in Hcopy. injection Hcopy as <- <- <-.
  pose proof (HeapFacts.set_row_preserved h l1 r Hfresh) as Hp1.
  destruct (IH (Heap.set_row h l1 r) (<[l := l1]> memo) rest h1 memo1 Hnodup)
    as (Hnodup' & Hnew & Hsame & Hp & Hg); [| | exact Hrest |].
  { intros x Hx. rewrite lookup_insert_ne; [apply Hmemo; by right |].
    intros ->. done. }
  { eapply Forall_impl; [done |]. intros x [rx Hrx]. exists rx.
    by apply Hp1. }
  split; [| split; [| split; [| split]]].
  - apply NoDup_cons. split; [| done].
    intros Hin. rewrite Forall_forall in Hnew. specialize (Hnew l1 Hin).
    simpl in Hnew. by rewrite lookup_insert_eq in Hnew.
  - constructor; [done |].
    eapply Forall_impl; [done |]. intros x Hx. simpl in Hx.
    destruct (decide (x = l1)) as [-> | Hne]; [done |].
    by rewrite lookup_insert_ne in Hx.
  - constructor.
    + rewrite Hr. apply Hp. simpl. by rewrite lookup_insert_eq.
    + apply Forall2_same_length_lookup. split; [by eapply Forall2_length |].
      intros j x x' Hx Hx'.
      rewrite (Forall2_lookup_lr _ _ _ j x x' Hsame Hx Hx'). simpl.
      apply lookup_insert_ne. intros <-.
      rewrite Forall_forall in Hrows.
      destruct (Hrows l1) as [? ?]; [by eapply list_elem_of_lookup_2 |].
      congruence.
  - by eapply HeapFacts.preserved_trans.
  - done.
Qed.

Lemma deepcopy_refines h g v :
  Heap.read_board h g = Some v → Heap.alias_free h g →
  ∃ nb h1 ls', Heap.deepcopy h g = Some (nb, h1) ∧
    Heap.grid_objs h1 !! nb = Some ls' ∧ NoDup ls' ∧ Heap.holds h1 ls' v.
Proof.
  intros (ls & Hg & Hholds)%read_board_holds (ls0 & Hg0 & Hnodup).
  rewrite Hg in Hg0. injection Hg0 as <-.
  unfold Heap.deepcopy. rewrite Hg. simpl.
  assert (Forall (λ l, is_Some (Heap.row_objs h !! l)) ls) as Hrows.
  { apply Forall_forall. intros l [i Hi]%list_elem_of_lookup.
    destruct (Forall2_lookup_l _ _ _ _ _ Hholds Hi) as (r & _ & Hr).
    by exists r. }
  destruct (HeapFacts.deepcopy_rows_total ls h ∅) as [[[ls' h'] memo'] Hcopy].
  { intros l Hl. left. rewrite Forall_forall in Hrows. by apply Hrows. }
  rewrite Hcopy. simpl.
  destruct (deepcopy_rows_distinct ls h ∅ ls' h' memo' Hnodup)
    as (Hnodup' & _ & Hsame & _ & _); [done | done | done |].
  eexists _, _, ls'. split; [done |]. simpl.
  split; [by rewrite lookup_insert_eq |]. split; [done |].
  unfold Heap.holds in *. apply Forall2_same_length_lookup. split.
  { rewrite <- (Forall2_length _ _ _ Hsame). by eapply Forall2_length. }
  intros j l' r Hl' Hr. simpl.
  destruct (lookup_lt_is_Some_2 ls j) as [l Hl].
  { rewrite (Forall2_length _ _ _ Hsame). by eapply lookup_lt_Some. }
  rewrite (Forall2_lookup_lr _ _ _ j l l' Hsame Hl Hl').
  exact (Forall2_lookup_lr _ _ _ j l r Hholds Hl Hr).
Qed.

(** [Heap.make_move] computes [make_move] on the board value, raises
    exactly when it raises, and returns a board whose rows are again
    distinct objects. *)
Lemma make_move_refines h b v col piece :
  Heap.read_board h b = Some v → Heap.alias_free h b →
  match make_move v col piece with
  | Some v' =>
      ∃ nb h', Heap.make_move h b col piece = Some (Heap.Ok nb, h') ∧
               Heap.read_board h' nb = Some v' ∧ Heap.alias_free h' nb
  | None => ∃ h', Heap.make_move h b col piece = Some (Heap.IndexError, h')
  end.
Proof.
  intros Hread Halias.
  destruct (deepcopy_refines h b v Hread Halias)
    as (nb & h1 & ls' & Hcopy & Hnb & Hnodup & Hholds).
  unfold Heap.make_move, make_move. rewrite Hcopy.
  generalize (py_range_down (ROWS - 1) (-1)). intros rows.
  pose proof (make_move_loop_refines nb ls' col piece rows h1 v
                Hnb Hnodup Hholds) as Hloop.
  destruct (make_move_loop v rows col piece) as [v' |].
  - destruct Hloop as (h' & Hrun & Hnb' & Hholds').
    exists nb, h'. simpl. rewrite Hrun. simpl. split; [done |]. split.
    + apply read_board_holds. by exists ls'.
    + by exists ls'.
  - destruct Hloop as (h' & Hrun). exists h'. simpl. by rewrite Hrun.
Qed.

Lemma create_board_loop_distinct rows : ∀ h acc ls h',
  NoDup acc →
  Forall (λ l, Heap.row_objs h !! l = Some (replicate (Z.to_nat COLS) EMPTY)) acc →
  Heap.create_board_loop h rows acc = (ls, h') →
  NoDup ls ∧ length ls = (length acc + length rows)%nat ∧
  Forall (λ l, Heap.row_objs h' !! l = Some (replicate (Z.to_nat COLS) EMPTY)) ls.
Proof.
  induction rows as [| row rows IH]; intros h acc ls h' Hnodup Hacc Hrun;
    simpl in Hrun.
  { injection Hrun as <- <-. split; [done |]. split; [simpl; lia | done]. }
  pose proof (HeapFacts.fresh_row_None h) as Hfresh.
  set (l := fresh (dom (Heap.row_objs h))) in *.
  apply IH in Hrun as (Hnodup' & Hlen & Hall).
  - split; [done |]. split; [| done].
    rewrite Hlen, length_app. simpl. lia.
  - apply NoDup_app. split; [done |]. split; [| apply NoDup_singleton].
    intros x Hx ->%list_elem_of_singleton.
    rewrite Forall_forall in Hacc. specialize (Hacc l Hx). congruence.
  - apply Forall_app. split.
    + eapply Forall_impl; [done |]. intros x Hx. simpl.
      rewrite lookup_insert_ne; [done | congruence].
    + constructor; [| done]. simpl. by rewrite lookup_insert_eq.
Qed.

(** [Heap.create_board] builds the empty board out of six distinct rows. *)
Lemma create_board_refines h g h' :
  Heap.create_board h = (g, h') →
  Heap.read_board h' g = Some create_board ∧ Heap.alias_free h' g.
Proof.
  unfold Heap.create_board.
  destruct (Heap.create_board_loop h (py_range 0 ROWS) []) as [ls h1] eqn:Hloop.
  intros [= <- <-].
  apply create_board_loop_distinct in Hloop as (Hnodup & Hlen & Hall);
    [| constructor | constructor].
  split.
  - apply read_board_holds. exists ls. simpl.
    split; [by rewrite lookup_insert_eq |].
    unfold Heap.holds. apply Forall2_same_length_lookup. split; [done |].
    intros i l r Hl Hr. rewrite Forall_forall in Hall. simpl.
    rewrite (Hall l) by (by eapply list_elem_of_lookup_2).
    f_equal. symmetry.
    assert (r ∈ create_board) as Hin
      by (by eapply list_elem_of_lookup_2).
    unfold create_board in Hin.
    by apply list_elem_of_fmap in Hin as (? & -> & _).
  - exists ls. simpl. by rewrite lookup_insert_eq.
Qed.

(** ** The board functions return on well-formed boards *)

Lemma andM_is_Some a b : is_Some a → is_Some b → is_Some (andM a b).
Proof. intros [[] ->] [y ->]; by eexists. Qed.

Lemma orM_is_Some a b : is_Some a → is_Some b → is_Some (orM a b).
Proof. intros [[] ->] [y ->]; by eexists. Qed.

Lemma existsM_is_Some {A} (f : A → option bool) l :
  (∀ x, x ∈ l → is_Some (f x)) → is_Some (existsM f l).
Proof. intros Hf. destruct (existsM_spec f l Hf) as (t & -> & _). by eexists. Qed.

Lemma for_each_is_Some {A S} (body : A → S → option S) l s :
  (∀ x s', x ∈ l → is_Some (body x s')) → is_Some (for_each body l s).
Proof.
  revert s. induction l as [| x l IH]; intros s Hbody; simpl; [by eexists |].
  destruct (Hbody x s) as [s' Hs']; [left |]. rewrite Hs'. simpl.
  apply IH. intros y s'' Hy. apply Hbody. by right.
Qed.

Lemma nested_elem {A B} (xs : list A) (ys : list B) x y :
  (x, y) ∈ nested xs ys ↔ x ∈ xs ∧ y ∈ ys.
Proof.
  unfold nested. rewrite list_elem_of_bind. split.
  - intros (x' & Hin & Hx'). apply list_elem_of_fmap in Hin as (y' & [= -> ->] & Hy').
    done.
  - intros [Hx Hy]. exists x. split; [| done].
    apply list_elem_of_fmap. by exists y.
Qed.

Lemma swap_pairs_elem {A B} (l : list (A * B)) x y :
  (y, x) ∈ swap_pairs l ↔ (x, y) ∈ l.
Proof.
  unfold swap_pairs. rewrite list_elem_of_fmap. split.
  - intros ([x' y'] & [= -> ->] & Hin). done.
  - intros Hin. by exists (x, y).
Qed.

Lemma cell_is_is_Some b piece row col :
  wf_board b → - ROWS ≤ row < ROWS → - COLS ≤ col < COLS →
  is_Some (cell_is b piece row col).
Proof.
  intros Hwf Hrow Hcol. unfold cell_is.
  destruct (cell_is_Some b row col Hwf Hrow Hcol) as [c ->]. by eexists.
Qed.

Lemma line4_is_Some b piece dr dc row col :
  wf_board b →
  0 ≤ row < ROWS → 0 ≤ row + 3 * dr < ROWS →
  0 ≤ col < COLS → 0 ≤ col + 3 * dc < COLS →
  is_Some (line4 b piece dr dc (row, col)).
Proof.
  intros Hwf Hr Hr3 Hc Hc3. unfold line4.
  repeat apply andM_is_Some; apply cell_is_is_Some; (done || lia).
Qed.

Lemma check_win_is_Some b piece : wf_board b → is_Some (check_win b piece).
Proof.
  intros Hwf. unfold check_win.
  apply orM_is_Some; [| apply orM_is_Some; [| apply orM_is_Some]];
    apply existsM_is_Some; intros [row col].
  - intros [Hrow%py_range_elem Hcol%py_range_elem]%nested_elem.
    apply line4_is_Some; unfold ROWS, COLS in *; (done || lia).
  - intros [Hcol%py_range_elem Hrow%py_range_elem]%swap_pairs_elem%nested_elem.
    apply line4_is_Some; unfold ROWS, COLS in *; (done || lia).
  - intros [Hrow%py_range_elem Hcol%py_range_elem]%nested_elem.
    apply line4_is_Some; unfold ROWS, COLS in *; (done || lia).
  - intros [Hrow%py_range_elem Hcol%py_range_elem]%nested_elem.
    apply line4_is_Some; unfold ROWS, COLS in *; (done || lia).
Qed.

Lemma check_tie_is_Some b : wf_board b → is_Some (check_tie b).
Proof. intros Hwf. destruct (check_tie_spec b Hwf) as (t & -> & _). by eexists. Qed.

Lemma is_terminal_node_is_Some b :
  wf_board b → is_Some (is_terminal_node b).
Proof.
  intros Hwf. unfold is_terminal_node.
  apply orM_is_Some; [by apply check_win_is_Some |].
  apply orM_is_Some; [by apply check_win_is_Some | by apply check_tie_is_Some].
Qed.

Lemma diag_window_is_Some b dr dc row col :
  wf_board b →
  0 ≤ row < ROWS → 0 ≤ row + 3 * dr < ROWS →
  0 ≤ col < COLS → 0 ≤ col + 3 * dc < COLS →
  is_Some (diag_window b dr dc (row, col)).
Proof.
  intros Hwf Hr Hr3 Hc Hc3. unfold diag_window.
  apply mapM_is_Some, Forall_forall. intros i Hi%py_range_elem.
  apply cell_is_Some; [done | nia | nia].
Qed.

Lemma bind_Some_l {A B} (x : A) (f : A → option B) : Some x ≫= f = f x.
Proof. reflexivity. Qed.

Lemma bind_is_Some {A B} (o : option A) (f : A → option B) :
  is_Some o → (∀ x, is_Some (f x)) → is_Some (o ≫= f).
Proof. intros [x ->] Hf. apply Hf. Qed.

Lemma evaluate_board_is_Some b piece :
  wf_board b → is_Some (evaluate_board b piece).
Proof.
  intros Hwf. unfold evaluate_board.
  apply bind_is_Some.
  { destruct (column_array_lookup b (COLS `div` 2) Hwf) as (arr & -> & _);
      by eexists. }
  intros center_array. apply bind_is_Some.
  { apply for_each_is_Some. intros [row col] s.
    intros [Hrow%py_range_elem Hcol]%nested_elem.
    destruct (wf_board_row_is_Some b row Hwf) as [r ->]; [lia |]. by eexists. }
  intros s1. apply bind_is_Some.
  { apply for_each_is_Some. intros col s Hcol%py_range_elem.
    destruct (column_array_lookup b col Hwf) as (arr' & -> & _); [lia |].
    rewrite bind_Some_l. apply for_each_is_Some. intros row s' _. by eexists. }
  intros s2. apply bind_is_Some.
  { apply for_each_is_Some. intros [row col] s.
    intros [Hrow%py_range_elem Hcol%py_range_elem]%nested_elem.
    destruct (diag_window_is_Some b 1 1 row col Hwf) as [w ->];
      unfold ROWS, COLS in *; (lia || by eexists). }
  intros s3.
  apply for_each_is_Some. intros [row col] s.
  intros [Hrow%py_range_elem Hcol%py_range_elem]%nested_elem.
  destruct (diag_window_is_Some b (-1) 1 row col Hwf) as [w ->];
    unfold ROWS, COLS in *; (lia || by eexists).
Qed.

(** A position that is not terminal has a legal move. *)
Lemma valid_moves_nonempty b moves :
  wf_board b → is_terminal_node b = Some false →
  get_valid_moves b = Some moves → moves ≠ [].
Proof.
  intros Hwf Hterm Hmoves ->.
  destruct (check_tie_spec b Hwf) as (t & Htie & _ & Hiff).
  assert (t = true) as ->.
  { apply Hiff. intros col Hcol.
    destruct (is_valid_move_is_Some b col Hwf) as [v Hv]; [lia |].
    destruct v.
    - exfalso. eapply elem_of_nil.
      apply (get_valid_moves_elem b [] col Hwf Hmoves). done.
    - unfold is_valid_move in Hv. unfold occupied.
      destruct (cell b 0 col) as [c |]; [| done]. simpl in Hv.
      exists c. split; [done |]. injection Hv as Hc. by apply Z.eqb_neq. }
  unfold is_terminal_node in Hterm. rewrite Htie in Hterm.
  destruct (check_win b HUMAN_PIECE) as [[] |]; [done | | done].
  destruct (check_win b AI_PIECE) as [[] |]; done.
Qed.

(** ** The order on scores *)

Lemma bounded_weaken K K' s : K ≤ K' → bounded K s → bounded K' s.
Proof. intros HK [H0 Hs]. split; [lia |]. destruct s; (done || lia). Qed.

Lemma bounded_exists (l : list score) : ∃ K, 0 < K ∧ Forall (bounded K) l.
Proof.
  induction l as [| s l (K & HK & Hl)].
  - exists 1. split; [lia | constructor].
  - exists (K + match s with Fin z => Z.abs z | _ => 0 end + 1).
    split; [destruct s; lia |]. constructor.
    + split; destruct s; lia.
    + eapply Forall_impl; [done |]. intros s'. apply bounded_weaken.
      destruct s; lia.
Qed.

Section Rank.
Context (K : Z).
Implicit Types a b : score.

Lemma score_ltb_rank a b :
  bounded K a → bounded K b → score_ltb a b = (rank K a <? rank K b).
Proof.
  intros [H0 Ha] [_ Hb]. destruct a, b; simpl; symmetry;
    first [apply Z.ltb_lt; lia | apply Z.ltb_ge; lia | done].
Qed.

Lemma score_lt_rank a b :
  bounded K a → bounded K b → score_lt a b ↔ rank K a < rank K b.
Proof.
  intros Ha Hb. unfold score_lt. rewrite score_ltb_rank by done.
  apply Z.ltb_lt.
Qed.

Lemma score_le_rank a b :
  bounded K a → bounded K b → score_le a b ↔ rank K a ≤ rank K b.
Proof.
  intros Ha Hb. unfold score_le. rewrite score_ltb_rank by done.
  apply Z.ltb_ge.
Qed.

Lemma score_leb_rank a b :
  bounded K a → bounded K b →
  score_leb a b = true ↔ rank K a ≤ rank K b.
Proof.
  intros Ha Hb. unfold score_leb. rewrite score_ltb_rank by done.
  rewrite negb_true_iff. apply Z.ltb_ge.
Qed.

Lemma score_eq_rank a b :
  bounded K a → bounded K b → a = b ↔ rank K a = rank K b.
Proof.
  intros [H0 Ha] [_ Hb]. split; [by intros -> |].
  destruct a, b; simpl; intros; first [done | f_equal; lia | lia].
Qed.

Lemma score_max_bounded a b :
  bounded K a → bounded K b → bounded K (score_max a b).
Proof. intros Ha Hb. unfold score_max. by destruct (score_ltb a b). Qed.

Lemma score_min_bounded a b :
  bounded K a → bounded K b → bounded K (score_min a b).
Proof. intros Ha Hb. unfold score_min. by destruct (score_ltb b a). Qed.

Lemma score_max_rank a b :
  bounded K a → bounded K b →
  rank K (score_max a b) = Z.max (rank K a) (rank K b).
Proof.
  intros Ha Hb. unfold score_max. rewrite score_ltb_rank by done.
  destruct (Z.ltb_spec (rank K a) (rank K b)); lia.
Qed.

Lemma score_min_rank a b :
  bounded K a → bounded K b →
  rank K (score_min a b) = Z.min (rank K a) (rank K b).
Proof.
  intros Ha Hb. unfold score_min. rewrite score_ltb_rank by done.
  destruct (Z.ltb_spec (rank K b) (rank K a)); lia.
Qed.
End Rank.

Lemma rank_range K s : bounded K s → - K ≤ rank K s ≤ K.
Proof. intros [H0 Hs]. destruct s; simpl; lia. Qed.

Create HintDb bounded.
#[local] Hint Resolve score_max_bounded score_min_bounded : bounded.

(** Turn a goal about the order of scores into one about integers. *)
Ltac rank_all K :=
  unfold window_ok in *;
  repeat first
    [ rewrite (score_lt_rank K) in * by auto with bounded
    | rewrite (score_le_rank K) in * by auto with bounded
    | rewrite (score_leb_rank K) in * by auto with bounded
    | rewrite (score_eq_rank K) in * by auto with bounded
    | rewrite (score_max_rank K) in * by auto with bounded
    | rewrite (score_min_rank K) in * by auto with bounded ].

Ltac rank_lia K :=
  rank_all K;
  repeat match goal with H : bounded K _ |- _ => apply rank_range in H end;
  simpl in *; first [lia | repeat split; intros; lia].

Ltac bound_scores K l :=
  let H := fresh "Hbounded" in
  let HK := fresh "HK" in
  destruct (bounded_exists l) as (K & HK & H);
  repeat (apply Forall_cons in H as [? H]); clear H.

Lemma max_step (V A beta v1 m1 M v : score) :
  score_lt A beta → score_le V A → window_ok A beta m1 v1 →
  let V' := score_max V v1 in
  let A' := score_max A V' in
  (score_leb beta A' = true →
     score_le V V' ∧ window_ok A beta (score_max m1 M) V') ∧
  (¬ score_leb beta A' = true →
     score_lt A' beta ∧ score_le V' A' ∧
     (score_le V' v ∧ window_ok A' beta M v →
      score_le V v ∧ window_ok A beta (score_max m1 M) v)).
Proof.
  intros HAb HVA Hok V' A'. subst V' A'.
  bound_scores K [V; A; beta; v1; m1; M; v].
  rank_lia K.
Qed.

Lemma min_step (V B alpha v1 m1 M v : score) :
  score_lt alpha B → score_le B V → window_ok alpha B m1 v1 →
  let V' := score_min V v1 in
  let B' := score_min B V' in
  (score_leb B' alpha = true →
     score_le V' V ∧ window_ok alpha B (score_min m1 M) V') ∧
  (¬ score_leb B' alpha = true →
     score_lt alpha B' ∧ score_le B' V' ∧
     (score_le v V' ∧ window_ok alpha B' M v →
      score_le v V ∧ window_ok alpha B (score_min m1 M) v)).
Proof.
  intros HaB HBV Hok V' B'. subst V' B'.
  bound_scores K [V; B; alpha; v1; m1; M; v].
  rank_lia K.
Qed.

Lemma window_ok_exact alpha beta m : window_ok alpha beta m m.
Proof. bound_scores K [alpha; beta; m]. rank_lia K. Qed.

Lemma max_loop_done (V A beta : score) :
  score_lt A beta → score_le V A →
  score_le V V ∧ window_ok A beta NegInf V.
Proof.
  intros HAb HVA.
  bound_scores K [V; A; beta; NegInf]. rank_lia K.
Qed.

Lemma min_loop_done (V B alpha : score) :
  score_lt alpha B → score_le B V →
  score_le V V ∧ window_ok alpha B PosInf V.
Proof.
  intros HaB HBV.
  bound_scores K [V; B; alpha; PosInf]. rank_lia K.
Qed.

(** With the full window the search returns the value itself. *)
Lemma window_ok_full m v : window_ok NegInf PosInf m v → v = m.
Proof.
  intros Hok.
  bound_scores K [m; v; NegInf; PosInf]. rank_lia K.
Qed.

Lemma score_max_swap a b c :
  score_max a (score_max b c) = score_max b (score_max a c).
Proof. bound_scores K [a; b; c]. rank_lia K. Qed.

Lemma score_min_swap a b c :
  score_min a (score_min b c) = score_min b (score_min a c).
Proof. bound_scores K [a; b; c]. rank_lia K. Qed.

Lemma foldr_score_max_perm (l l' : list score) :
  l ≡ₚ l' → foldr score_max NegInf l = foldr score_max NegInf l'.
Proof.
  induction 1 as [| x l l' _ IH | x y l | l1 l2 l3 _ IH1 _ IH2]; simpl.
  - done.
  - by rewrite IH.
  - apply score_max_swap.
  - by rewrite IH1.
Qed.

Lemma foldr_score_min_perm (l l' : list score) :
  l ≡ₚ l' → foldr score_min PosInf l = foldr score_min PosInf l'.
Proof.
  induction 1 as [| x l l' _ IH | x y l | l1 l2 l3 _ IH1 _ IH2]; simpl.
  - done.
  - by rewrite IH.
  - apply score_min_swap.
  - by rewrite IH1.
Qed.

(** ** Sorting the moves *)

Lemma sorted_insert_perm {A} (key : A → Z) (reverse : bool) x l :
  sorted_insert key reverse x l ≡ₚ x :: l.
Proof.
  induction l as [| y l IH]; simpl; [done |].
  destruct (comes_first key reverse y x); [| done].
  rewrite IH. apply Permutation_swap.
Qed.

Lemma py_sorted_perm {A} (key : A → Z) (reverse : bool) l :
  py_sorted key reverse l ≡ₚ l.
Proof.
  unfold py_sorted. induction l as [| x l IH]; simpl; [done |].
  by rewrite sorted_insert_perm, IH.
Qed.

(** ** Running the search *)

Lemma returns_ret {A} (a : A) w (P : A → Prop) : P a → returns (ret a) w P.
Proof. intros Ha. by exists a, w. Qed.

Lemma returns_lift {A} (o : option A) a w (P : A → Prop) :
  o = Some a → P a → returns (lift o) w P.
Proof. intros -> Ha. by exists a, w. Qed.

Lemma returns_bind {A B} (c : M A) (k : A → M B) w (Q : A → Prop)
    (P : B → Prop) :
  returns c w Q → (∀ a w', Q a → returns (k a) w' P) →
  returns (bind c k) w P.
Proof.
  intros (a & w' & Hc & Ha) Hk. destruct (Hk a w' Ha) as (r & w'' & Hr & HP).
  exists r, w''. split; [| done]. unfold bind. by rewrite Hc.
Qed.

Lemma returns_bind_lift {A B} (o : option A) a (k : A → M B) w
    (P : B → Prop) :
  o = Some a → returns (k a) w P → returns (bind (lift o) k) w P.
Proof.
  intros -> (r & w' & Hr & HP). exists r, w'. split; [| done].
  unfold bind, lift. by rewrite Hr.
Qed.

Lemma returns_mono {A} (c : M A) w (P Q : A → Prop) :
  returns c w P → (∀ a, P a → Q a) → returns c w Q.
Proof. intros (a & w' & Hc & Ha) HPQ. exists a, w'. auto. Qed.

Lemma make_move_valid b col piece :
  wf_board b → is_valid_move b col = Some true →
  ∃ b', make_move b col piece = Some b' ∧ wf_board b'.
Proof.
  intros Hwf Hvalid.
  pose proof (is_valid_move_range b col true Hwf Hvalid) as Hcol.
  destruct (make_move b col piece) as [b' |] eqn:Hmove.
  - exists b'. split; [done |]. by eapply make_move_wf.
  - by rewrite make_move_place in Hmove.
Qed.

Lemma random_choice_returns rand (l : list Z) w :
  l ≠ [] → returns (random_choice rand l) w (λ x, x ∈ l).
Proof.
  intros Hl. unfold returns, random_choice.
  destruct (lookup_lt_is_Some_2 l (rand (random_draws w) `mod` length l)%nat)
    as [x Hx].
  { apply Nat.mod_upper_bound. by destruct l. }
  rewrite Hx. eexists _, _. split; [done |]. by eapply list_elem_of_lookup_2.
Qed.

Section SearchFacts.
#[local] Opaque check_win evaluate_board is_terminal_node get_valid_moves
  make_move.

Lemma leaf_result_returns b w :
  wf_board b → returns (leaf_result b) w (λ r, r = (static_value b, None)).
Proof.
  intros Hwf. unfold leaf_result, static_value.
  destruct (check_win_is_Some b AI_PIECE Hwf) as [ai Hai].
  destruct (check_win_is_Some b HUMAN_PIECE Hwf) as [human Hhuman].
  destruct (evaluate_board_is_Some b AI_PIECE Hwf) as [s Hs].
  rewrite Hai, Hhuman, Hs.
  eapply returns_bind_lift; [done |].
  destruct ai; [by apply returns_ret |].
  eapply returns_bind_lift; [done |].
  destruct human; [by apply returns_ret |].
  eapply returns_bind_lift; [done |].
  by apply returns_ret.
Qed.

Lemma order_moves_loop b piece moves : ∀ acc,
  wf_board b → Forall (λ m, is_valid_move b m = Some true) moves →
  ∃ scored,
    for_each (λ move move_scores,
                temp_board ← make_move b move piece;
                score ← evaluate_board temp_board AI_PIECE;
                Some (move_scores ++ [(score, move)]))
             moves acc = Some (acc ++ scored) ∧
    snd <$> scored = moves.
Proof.
  induction moves as [| m moves IH]; intros acc Hwf Hvalid.
  - exists []. by rewrite app_nil_r.
  - apply Forall_cons in Hvalid as [Hm Hvalid]. simpl.
    destruct (make_move_valid b m piece Hwf Hm) as (temp & -> & Hwf').
    rewrite bind_Some_l.
    destruct (evaluate_board_is_Some temp AI_PIECE Hwf') as [s ->].
    rewrite !bind_Some_l.
    destruct (IH (acc ++ [(s, m)]) Hwf Hvalid) as (scored & -> & Hsnd).
    exists ((s, m) :: scored). split.
    + by rewrite <- app_assoc.
    + csimpl. by rewrite Hsnd.
Qed.

Lemma order_moves_perm b maximizingPlayer moves :
  wf_board b → Forall (λ m, is_valid_move b m = Some true) moves →
  ∃ moves', order_moves b maximizingPlayer moves = Some moves' ∧
            moves' ≡ₚ moves.
Proof.
  intros Hwf Hvalid. unfold order_moves.
  destruct (order_moves_loop b
              (if maximizingPlayer then AI_PIECE else HUMAN_PIECE)
              moves [] Hwf Hvalid) as (scored & -> & Hsnd).
  rewrite bind_Some_l. eexists. split; [done |].
  simpl. rewrite <- Hsnd. apply fmap_Permutation, py_sorted_perm.
Qed.

Lemma max_loop_sound search (value_of : board → score) b beta :
  wf_board b →
  (∀ child alpha w,
     wf_board child → score_lt alpha beta →
     returns (search child alpha) w
             (λ r, window_ok alpha beta (value_of child) r.1)) →
  ∀ moves value alpha best_move w,
    Forall (λ m, is_valid_move b m = Some true) moves →
    score_lt alpha beta → score_le value alpha →
    returns (max_loop search b moves value alpha beta best_move) w
      (λ r, score_le value r.1 ∧
            window_ok alpha beta
              (foldr score_max NegInf
                 ((λ m, value_of (default b (make_move b m AI_PIECE)))
                    <$> moves)) r.1).
Proof.
  intros Hwf Hsearch.
  induction moves as [| m moves IH];
    intros value alpha best_move w Hvalid Hab Hva.
  { apply returns_ret. simpl. by apply max_loop_done. }
  apply Forall_cons in Hvalid as [Hm Hvalid].
  destruct (make_move_valid b m AI_PIECE Hwf Hm) as (child & Hchild & Hwf').
  cbn [max_loop fmap list_fmap foldr]. rewrite Hchild.
  eapply returns_bind_lift; [done |].
  eapply returns_bind; [by apply Hsearch |]. intros [v1 m1] w2 Hv1.
  simpl in Hv1. cbn [default].
  change (if score_ltb value v1 then v1 else value)
    with (score_max value v1).
  set (M := foldr score_max NegInf _).
  destruct (score_leb beta (score_max alpha (score_max value v1))) eqn:Hcut.
  - apply returns_ret. simpl.
    by apply (max_step value alpha beta v1 (value_of child) M value).
  - eapply returns_mono.
    + apply IH; [done | |].
      * apply (max_step value alpha beta v1 (value_of child) M value);
          [done .. | congruence].
      * apply (max_step value alpha beta v1 (value_of child) M value);
          [done .. | congruence].
    + intros [v mv] Hv. simpl in *.
      apply (max_step value alpha beta v1 (value_of child) M v);
        [done .. | congruence | done].
Qed.

Lemma min_loop_sound search (value_of : board → score) b alpha :
  wf_board b →
  (∀ child beta w,
     wf_board child → score_lt alpha beta →
     returns (search child beta) w
             (λ r, window_ok alpha beta (value_of child) r.1)) →
  ∀ moves value beta best_move w,
    Forall (λ m, is_valid_move b m = Some true) moves →
    score_lt alpha beta → score_le beta value →
    returns (min_loop search b moves value alpha beta best_move) w
      (λ r, score_le r.1 value ∧
            window_ok alpha beta
              (foldr score_min PosInf
                 ((λ m, value_of (default b (make_move b m HUMAN_PIECE)))
                    <$> moves)) r.1).
Proof.
  intros Hwf Hsearch.
  induction moves as [| m moves IH];
    intros value beta best_move w Hvalid Hab Hbv.
  { apply returns_ret. simpl. by apply min_loop_done. }
  apply Forall_cons in Hvalid as [Hm Hvalid].
  destruct (make_move_valid b m HUMAN_PIECE Hwf Hm)
    as (child & Hchild & Hwf').
  cbn [min_loop fmap list_fmap foldr]. rewrite Hchild.
  eapply returns_bind_lift; [done |].
  eapply returns_bind; [by apply Hsearch |]. intros [v1 m1] w2 Hv1.
  simpl in Hv1. cbn [default].
  change (if score_ltb v1 value then v1 else value)
    with (score_min value v1).
  set (M := foldr score_min PosInf _).
  destruct (score_leb (score_min beta (score_min value v1)) alpha) eqn:Hcut.
  - apply returns_ret. simpl.
    by apply (min_step value beta alpha v1 (value_of child) M value).
  - eapply returns_mono.
    + apply IH; [done | |].
      * apply (min_step value beta alpha v1 (value_of child) M value);
          [done .. | congruence].
      * apply (min_step value beta alpha v1 (value_of child) M value);
          [done .. | congruence].
    + intros [v mv] Hv. simpl in *.
      apply (min_step value beta alpha v1 (value_of child) M v);
        [done .. | congruence | done].
Qed.
End SearchFacts.

(** ** Alpha-beta search returns the minimax value *)

Section MinimaxFacts.
#[local] Opaque check_win evaluate_board is_terminal_node get_valid_moves
  make_move order_moves leaf_result max_loop min_loop.

Context (now : nat → float) (rand : nat → nat).
Context (start_time time_limit : float) (version : Z).

Lemma count_node_returns depth w :
  returns (count_node depth) w (λ _, True).
Proof. by eexists _, _. Qed.

Lemma time_time_returns w (P : float → Prop) :
  (∀ k, P (now k)) → returns (time_time now) w P.
Proof. intros HP. eexists _, _. split; [done | apply HP]. Qed.

Lemma valid_moves_Forall b moves :
  wf_board b → get_valid_moves b = Some moves →
  Forall (λ m, is_valid_move b m = Some true) moves.
Proof.
  intros Hwf Hmoves. apply Forall_forall. intros m Hm.
  by apply (get_valid_moves_elem b moves m Hwf Hmoves).
Qed.

(** The moves the loops go through: the valid moves, reordered by
    version 2. *)
Lemma ordered_moves_returns b maximizingPlayer moves w :
  wf_board b → get_valid_moves b = Some moves →
  returns (if version =? 2
           then lift (order_moves b maximizingPlayer moves)
           else ret moves) w
          (λ moves', moves' ≡ₚ moves).
Proof.
  intros Hwf Hmoves. destruct (version =? 2).
  - destruct (order_moves_perm b maximizingPlayer moves Hwf) as
      (moves' & Horder & Hperm); [by apply valid_moves_Forall |].
    by eapply returns_lift.
  - by apply returns_ret.
Qed.

Lemma score_le_NegInf s : score_le NegInf s.
Proof. by destruct s. Qed.

Lemma score_le_PosInf s : score_le s PosInf.
Proof. by destruct s. Qed.

Lemma minimax_sound :
  no_timeout now start_time time_limit →
  ∀ depth b alpha beta maximizingPlayer w,
    wf_board b → score_lt alpha beta →
    returns (minimax now rand b depth alpha beta maximizingPlayer
                     start_time time_limit version) w
            (λ r, window_ok alpha beta
                    (game_value depth maximizingPlayer b) r.1).
Proof.
  intros Hclock.
  induction depth as [| depth IH];
    intros b alpha beta maximizingPlayer w Hwf Hab; cbn [minimax].
  - eapply returns_bind; [apply count_node_returns |]. intros _ w1 _.
    eapply returns_bind;
      [apply (time_time_returns _
         (λ t, (time_limit <? t - start_time)%float = false));
       apply Hclock |].
    intros t w2 Ht. cbv beta in Ht.
    rewrite Ht.
    eapply returns_mono; [by apply leaf_result_returns |].
    intros r ->. simpl. apply window_ok_exact.
  - eapply returns_bind; [apply count_node_returns |]. intros _ w1 _.
    eapply returns_bind;
      [apply (time_time_returns _
         (λ t, (time_limit <? t - start_time)%float = false));
       apply Hclock |].
    intros t w2 Ht. cbv beta in Ht.
    rewrite Ht.
    destruct (is_terminal_node_is_Some b Hwf) as [terminal Hterm].
    eapply returns_bind_lift; [done |].
    cbn [game_value]. rewrite Hterm. cbn [default].
    destruct terminal.
    { eapply returns_mono; [by apply leaf_result_returns |].
      intros r ->. simpl. apply window_ok_exact. }
    pose proof (get_valid_moves_filter b Hwf) as Hmoves.
    eapply returns_bind_lift; [done |].
    rewrite Hmoves. cbn [default].
    set (moves := filter _ _) in *.
    eapply returns_bind; [by apply ordered_moves_returns |].
    intros moves' w3 Hperm. cbv beta in Hperm.
    assert (Forall (λ m, is_valid_move b m = Some true) moves') as Hvalid.
    { rewrite Hperm. by apply valid_moves_Forall. }
    eapply returns_bind.
    { apply random_choice_returns. intros ->.
      apply Permutation_nil_l in Hperm.
      by eapply valid_moves_nonempty. }
    intros best_move w4 _.
    destruct maximizingPlayer; cbn [negb].
    + eapply returns_mono.
      * apply (max_loop_sound _ (game_value depth false) b beta Hwf);
          [| done | done | apply score_le_NegInf].
        intros child alpha' w' Hchild Halpha'. by apply IH.
      * intros r [_ Hr].
        by rewrite (foldr_score_max_perm _ _
                      (fmap_Permutation _ _ _ Hperm)) in Hr.
    + eapply returns_mono.
      * apply (min_loop_sound _ (game_value depth true) b alpha Hwf);
          [| done | done | apply score_le_PosInf].
        intros child beta' w' Hchild Hbeta'. by apply IH.
      * intros r [_ Hr].
        by rewrite (foldr_score_min_perm _ _
                      (fmap_Permutation _ _ _ Hperm)) in Hr.
Qed.

(** Called with the full window, as [get_ai_move] does, the search
    returns the minimax value of the position. *)
Lemma minimax_full_window depth b maximizingPlayer w :
  no_timeout now start_time time_limit → wf_board b →
  ∃ move w',
    minimax now rand b depth NegInf PosInf maximizingPlayer
            start_time time_limit version w
    = Some ((game_value depth maximizingPlayer b, move), w').
Proof.
  intros Hclock Hwf.
  destruct (minimax_sound Hclock depth b NegInf PosInf maximizingPlayer w)
    as ([v move] & w' & Hrun & Hok); [done | done |].
  exists move, w'. simpl in Hok. by rewrite (window_ok_full _ _ Hok) in Hrun.
Qed.
End MinimaxFacts.

(** C1: on every well-formed board and for every depth, when the deadline is
    never reached, the search without move ordering (version 1) and the
    search with move ordering (version 2), called with the full window,
    both return, and they return the same score: the minimax value of the
    position at that depth.  The clocks, the random draws and the counters
    of the two runs may differ. *)
Theorem minimax_versions_same_score
    (now1 now2 : nat → float) (rand1 rand2 : nat → nat)
    (start_time1 time_limit1 start_time2 time_limit2 : float)
    (b : board) (depth : nat) (maximizingPlayer : bool) (w1 w2 : world) :
  wf_board b →
  no_timeout now1 start_time1 time_limit1 →
  no_timeout now2 start_time2 time_limit2 →
  ∃ score move1 move2 w1' w2',
    minimax now1 rand1 b depth NegInf PosInf maximizingPlayer
            start_time1 time_limit1 1 w1 = Some ((score, move1), w1') ∧
    minimax now2 rand2 b depth NegInf PosInf maximizingPlayer
            start_time2 time_limit2 2 w2 = Some ((score, move2), w2') ∧
    score = game_value depth maximizingPlayer b.
Proof.
  intros Hwf Hclock1 Hclock2.
  destruct (minimax_full_window now1 rand1 start_time1 time_limit1 1
              depth b maximizingPlayer w1 Hclock1 Hwf) as (move1 & w1' & H1).
  destruct (minimax_full_window now2 rand2 start_time2 time_limit2 2
              depth b maximizingPlayer w2 Hclock2 Hwf) as (move2 & w2' & H2).
  by exists (game_value depth maximizingPlayer b), move1, move2, w1', w2'.
Qed.

(** Inside the recursion the window is narrower, and there the two versions
    may return different bounds; they still agree once the results are
    clamped to the window, since both are sound for the same value. *)
Lemma window_ok_clamp alpha beta m v1 v2 :
  score_lt alpha beta →
  window_ok alpha beta m v1 → window_ok alpha beta m v2 →
  score_max alpha (score_min beta v1) = score_max alpha (score_min beta v2).
Proof.
  intros Hab H1 H2.
  bound_scores K [alpha; beta; m; v1; v2]. rank_lia K.
Qed.

Lemma minimax_versions_any_window
    (now : nat → float) (rand1 rand2 : nat → nat)
    (start_time time_limit : float)
    (b : board) (depth : nat) (alpha beta : score) (maximizingPlayer : bool)
    (w1 w2 : world) :
  wf_board b → no_timeout now start_time time_limit → score_lt alpha beta →
  ∃ v1 move1 w1' v2 move2 w2',
    minimax now rand1 b depth alpha beta maximizingPlayer
            start_time time_limit 1 w1 = Some ((v1, move1), w1') ∧
    minimax now rand2 b depth alpha beta maximizingPlayer
            start_time time_limit 2 w2 = Some ((v2, move2), w2') ∧
    score_max alpha (score_min beta v1) = score_max alpha (score_min beta v2).
Proof.
  intros Hwf Hclock Hab.
  destruct (minimax_sound now rand1 start_time time_limit 1 Hclock depth b
              alpha beta maximizingPlayer w1 Hwf Hab)
    as ([v1 move1] & w1' & Hrun1 & Hok1).
  destruct (minimax_sound now rand2 start_time time_limit 2 Hclock depth b
              alpha beta maximizingPlayer w2 Hwf Hab)
    as ([v2 move2] & w2' & Hrun2 & Hok2).
  exists v1, move1, w1', v2, move2, w2'. split; [done |]. split; [done |].
  by eapply window_ok_clamp.
Qed.

(** ** When the search reports no move *)

Lemma bind_Some_inv {A B} (c : M A) (k : A → M B) w r :
  bind c k w = Some r → ∃ a w1, c w = Some (a, w1) ∧ k a w1 = Some r.
Proof.
  unfold bind. destruct (c w) as [[a w1] |]; [| done].
  intros Hk. by exists a, w1.
Qed.

Lemma lift_Some_inv {A} (o : option A) w a w1 :
  lift o w = Some (a, w1) → o = Some a ∧ w1 = w.
Proof. unfold lift. destruct o; [| done]. by intros [= -> ->]. Qed.

Section NoMove.
#[local] Opaque check_win evaluate_board is_terminal_node get_valid_moves
  make_move order_moves.

Context (now : nat → float) (rand : nat → nat).

Lemma max_loop_keeps_move search b beta moves :
  ∀ value alpha best_move w v mv w',
    max_loop search b moves value alpha beta (Some best_move) w
    = Some ((v, mv), w') →
    is_Some mv.
Proof.
  induction moves as [| m moves IH];
    intros value alpha best_move w v mv w' Hrun; cbn [max_loop] in Hrun.
  { injection Hrun as _ <- _. by eexists. }
  apply bind_Some_inv in Hrun as (child & w1 & _ & Hrun).
  apply bind_Some_inv in Hrun as ([new_score m'] & w2 & _ & Hrun).
  destruct (score_leb beta _).
  - injection Hrun as _ <- _. destruct (score_ltb value new_score); by eexists.
  - destruct (score_ltb value new_score); by eapply IH.
Qed.

Lemma min_loop_keeps_move search b alpha moves :
  ∀ value beta best_move w v mv w',
    min_loop search b moves value alpha beta (Some best_move) w
    = Some ((v, mv), w') →
    is_Some mv.
Proof.
  induction moves as [| m moves IH];
    intros value beta best_move w v mv w' Hrun; cbn [min_loop] in Hrun.
  { injection Hrun as _ <- _. by eexists. }
  apply bind_Some_inv in Hrun as (child & w1 & _ & Hrun).
  apply bind_Some_inv in Hrun as ([new_score m'] & w2 & _ & Hrun).
  destruct (score_leb _ alpha).
  - injection Hrun as _ <- _. destruct (score_ltb new_score value); by eexists.
  - destruct (score_ltb new_score value); by eapply IH.
Qed.

(** A call of [minimax] answers with no move only at its first two
    tests. *)
Lemma minimax_None_move b depth alpha beta maximizingPlayer
    start_time time_limit version w s w' :
  minimax now rand b depth alpha beta maximizingPlayer
          start_time time_limit version w = Some ((s, None), w') →
  deadline_passed now start_time time_limit (clock_reads w) = true ∨
  depth = 0%nat ∨
  is_terminal_node b = Some true.
Proof.
  intros Hrun. destruct depth as [| depth]; [by right; left |].
  cbn [minimax] in Hrun.
  apply bind_Some_inv in Hrun as ([] & w1 & Hcount & Hrun).
  injection Hcount as <-.
  apply bind_Some_inv in Hrun as (t & w2 & Htime & Hrun).
  injection Htime as <- <-. cbn [clock_reads] in Hrun.
  fold (deadline_passed now start_time time_limit (clock_reads w)) in Hrun.
  destruct (deadline_passed now start_time time_limit (clock_reads w));
    [by left |].
  right; right.
  apply bind_Some_inv in Hrun as (terminal & w3 & Hterm & Hrun).
  apply lift_Some_inv in Hterm as [Hterm ->].
  destruct terminal; [done | exfalso].
  apply bind_Some_inv in Hrun as (moves & w4 & _ & Hrun).
  apply bind_Some_inv in Hrun as (moves' & w5 & _ & Hrun).
  apply bind_Some_inv in Hrun as (best_move & w6 & _ & Hrun).
  destruct maximizingPlayer.
  - by apply max_loop_keeps_move in Hrun as [? ?].
  - by apply min_loop_keeps_move in Hrun as [? ?].
Qed.

(** Every call of [minimax] that returns has read the clock. *)
Lemma max_loop_clock search b beta moves :
  (∀ child alpha w r w',
     search child alpha w = Some (r, w') →
     (clock_reads w ≤ clock_reads w')%nat) →
  ∀ value alpha best_move w r w',
    max_loop search b moves value alpha beta best_move w = Some (r, w') →
    (clock_reads w ≤ clock_reads w')%nat.
Proof.
  intros Hsearch.
  induction moves as [| m moves IH];
    intros value alpha best_move w r w' Hrun; cbn [max_loop] in Hrun.
  { by injection Hrun as _ <-. }
  apply bind_Some_inv in Hrun as (child & w1 & Hchild & Hrun).
  apply lift_Some_inv in Hchild as [_ ->].
  apply bind_Some_inv in Hrun as ([new_score m'] & w2 & Hcall & Hrun).
  apply Hsearch in Hcall.
  destruct (score_leb beta _).
  - injection Hrun as _ <-. done.
  - apply IH in Hrun. lia.
Qed.

Lemma min_loop_clock search b alpha moves :
  (∀ child beta w r w',
     search child beta w = Some (r, w') →
     (clock_reads w ≤ clock_reads w')%nat) →
  ∀ value beta best_move w r w',
    min_loop search b moves value alpha beta best_move w = Some (r, w') →
    (clock_reads w ≤ clock_reads w')%nat.
Proof.
  intros Hsearch.
  induction moves as [| m moves IH];
    intros value beta best_move w r w' Hrun; cbn [min_loop] in Hrun.
  { by injection Hrun as _ <-. }
  apply bind_Some_inv in Hrun as (child & w1 & Hchild & Hrun).
  apply lift_Some_inv in Hchild as [_ ->].
  apply bind_Some_inv in Hrun as ([new_score m'] & w2 & Hcall & Hrun).
  apply Hsearch in Hcall.
  destruct (score_leb _ alpha).
  - injection Hrun as _ <-. done.
  - apply IH in Hrun. lia.
Qed.

Lemma leaf_result_clock b w r w' :
  leaf_result b w = Some (r, w') → w' = w.
Proof.
  unfold leaf_result. intros Hrun.
  apply bind_Some_inv in Hrun as (ai & w1 & Hai & Hrun).
  apply lift_Some_inv in Hai as [_ ->].
  destruct ai; [by injection Hrun as _ <- |].
  apply bind_Some_inv in Hrun as (human & w2 & Hhuman & Hrun).
  apply lift_Some_inv in Hhuman as [_ ->].
  destruct human; [by injection Hrun as _ <- |].
  apply bind_Some_inv in Hrun as (s & w3 & Hs & Hrun).
  apply lift_Some_inv in Hs as [_ ->].
  by injection Hrun as _ <-.
Qed.

Lemma minimax_clock start_time time_limit version depth :
  ∀ b alpha beta maximizingPlayer w r w',
    minimax now rand b depth alpha beta maximizingPlayer
            start_time time_limit version w = Some (r, w') →
    (clock_reads w < clock_reads w')%nat.
Proof.
  induction depth as [| depth IH];
    intros b alpha beta maximizingPlayer w r w' Hrun; cbn [minimax] in Hrun.
  - apply bind_Some_inv in Hrun as ([] & w1 & Hcount & Hrun).
    injection Hcount as <-.
    apply bind_Some_inv in Hrun as (t & w2 & Htime & Hrun).
    injection Htime as <- <-.
    destruct (_ <? _)%float.
    + apply bind_Some_inv in Hrun as (s & w3 & Hs & Hrun).
      apply lift_Some_inv in Hs as [_ ->].
      injection Hrun as _ <-. simpl. lia.
    + apply leaf_result_clock in Hrun as ->. simpl. lia.
  - apply bind_Some_inv in Hrun as ([] & w1 & Hcount & Hrun).
    injection Hcount as <-.
    apply bind_Some_inv in Hrun as (t & w2 & Htime & Hrun).
    injection Htime as <- <-.
    destruct (_ <? _)%float.
    { apply bind_Some_inv in Hrun as (s & w3 & Hs & Hrun).
      apply lift_Some_inv in Hs as [_ ->].
      injection Hrun as _ <-. simpl. lia. }
    apply bind_Some_inv in Hrun as (terminal & w3 & Hterm & Hrun).
    apply lift_Some_inv in Hterm as [_ ->].
    destruct terminal.
    { apply leaf_result_clock in Hrun as ->. simpl. lia. }
    apply bind_Some_inv in Hrun as (moves & w4 & Hmoves & Hrun).
    apply lift_Some_inv in Hmoves as [_ ->].
    apply bind_Some_inv in Hrun as (moves' & w5 & Hmoves' & Hrun).
    assert (w5 = mk_world (S (nodes_visited w))
              (Nat.max (max_depth_reached w) (S depth))
              (S (clock_reads w)) (random_draws w)) as ->.
    { destruct (version =? 2).
      - by apply lift_Some_inv in Hmoves' as [_ ->].
      - by injection Hmoves' as _ <-. }
    apply bind_Some_inv in Hrun as (best_move & w6 & Hbest & Hrun).
    assert (clock_reads w6 = S (clock_reads w)) as Hw6.
    { unfold random_choice in Hbest. destruct (_ !! _); [| done].
      by injection Hbest as _ <-. }
    destruct maximizingPlayer.
    + apply max_loop_clock in Hrun; [lia |].
      intros child alpha' w7 r' w8 Hcall. apply IH in Hcall. lia.
    + apply min_loop_clock in Hrun; [lia |].
      intros child beta' w7 r' w8 Hcall. apply IH in Hcall. lia.
Qed.

(** Once [get_ai_move] holds a move, later iterations never replace it by
    no move, provided the clock does not run back across the deadline. *)
Lemma get_ai_move_loop_keeps_move b version start_time time_limit fuel :
  deadline_stays_passed now start_time time_limit →
  is_terminal_node b = Some false →
  ∀ depth best_move w r w',
    get_ai_move_loop now rand fuel b version start_time time_limit
                     (S depth) (Some best_move) w = Some (Some r, w') →
    is_Some r.
Proof.
  intros Hmono Hterm.
  induction fuel as [| fuel IH]; intros depth best_move w r w' Hrun;
    cbn [get_ai_move_loop] in Hrun; [done |].
  apply bind_Some_inv in Hrun as (t & w1 & Htime & Hrun).
  injection Htime as <- <-.
  destruct (_ <? _)%float.
  { injection Hrun as <- _. by eexists. }
  apply bind_Some_inv in Hrun as ([s move] & w2 & Hcall & Hrun).
  apply bind_Some_inv in Hrun as (t' & w3 & Htime & Hrun).
  injection Htime as <- <-.
  destruct (now (clock_reads w2) - start_time <? time_limit)%float
    eqn:Hin; [| by eapply IH].
  destruct move as [move |]; [by eapply IH | exfalso].
  pose proof (minimax_clock _ _ _ _ _ _ _ _ _ _ _ Hcall) as Hclock.
  apply minimax_None_move in Hcall as [Hlate | [? | Hterm']];
    [| done | congruence].
  cbn [clock_reads] in *.
  apply (Hmono _ (clock_reads w2)) in Hlate; [| lia].
  apply float_ltb_asym in Hlate. congruence.
Qed.

Lemma get_ai_move_None b version time_limit fuel w nodes deepest total w' :
  let start_time := now (clock_reads w) in
  deadline_stays_passed now start_time time_limit →
  is_terminal_node b = Some false →
  get_ai_move now rand fuel b version time_limit w
  = Some (Some (None, nodes, deepest, total), w') →
  deadline_passed now start_time time_limit (S (clock_reads w)) = true ∨
  ∃ r w1,
    minimax now rand b 1 NegInf PosInf true start_time time_limit version
            (mk_world 0 0 (S (S (clock_reads w))) (random_draws w))
    = Some (r, w1) ∧
    in_time now start_time time_limit (clock_reads w1) = false.
Proof.
  intros start_time Hmono Hterm Hrun. unfold get_ai_move in Hrun.
  apply bind_Some_inv in Hrun as (t0 & w0 & Htime & Hrun).
  injection Htime as <- <-. fold start_time in Hrun.
  apply bind_Some_inv in Hrun as ([] & w1 & Hreset & Hrun).
  injection Hreset as <-. cbn [clock_reads random_draws] in Hrun.
  apply bind_Some_inv in Hrun as (res & w2 & Hloop & Hrun).
  destruct res as [best_move |].
  2:{ by injection Hrun. }
  apply bind_Some_inv in Hrun as (t & w3 & _ & Hrun).
  apply bind_Some_inv in Hrun as ([n d] & w4 & _ & Hrun).
  injection Hrun as -> _ _ _ _.
  destruct fuel as [| fuel]; cbn [get_ai_move_loop] in Hloop; [done |].
  apply bind_Some_inv in Hloop as (t1 & w5 & Htime & Hloop).
  injection Htime as <- <-. cbn [clock_reads] in Hloop.
  fold (deadline_passed now start_time time_limit (S (clock_reads w)))
    in Hloop.
  destruct (deadline_passed now start_time time_limit (S (clock_reads w)));
    [by left | right].
  apply bind_Some_inv in Hloop as ([s move] & w6 & Hcall & Hloop).
  cbn [nodes_visited max_depth_reached clock_reads random_draws] in Hcall.
  exists (s, move), w6. split; [done |].
  apply bind_Some_inv in Hloop as (t' & w7 & Htime & Hloop).
  injection Htime as <- <-.
  fold (in_time now start_time time_limit (clock_reads w6)) in Hloop.
  destruct (in_time now start_time time_limit (clock_reads w6)) eqn:Hin;
    [exfalso | done].
  destruct move as [move |].
  { by apply get_ai_move_loop_keeps_move in Hloop as [? ?]. }
  pose proof (minimax_clock _ _ _ _ _ _ _ _ _ _ _ Hcall) as Hclock.
  apply minimax_None_move in Hcall as [Hlate | [? | Hterm']];
    [| done | congruence].
  cbn [clock_reads] in *.
  apply (Hmono _ (clock_reads w6)) in Hlate; [| lia].
  apply float_ltb_asym in Hlate. unfold in_time in Hin. congruence.
Qed.
End NoMove.

Lemma terminal_cases b :
  wf_board b → is_terminal_node b = Some true →
  check_win b HUMAN_PIECE = Some true ∨
  check_win b AI_PIECE = Some true ∨
  get_valid_moves b = Some [].
Proof.
  intros Hwf Hterm. unfold is_terminal_node in Hterm.
  destruct (check_win b HUMAN_PIECE) as [[] |]; [by left | | done].
  destruct (check_win b AI_PIECE) as [[] |]; [by right; left | | done].
  right; right. simpl in Hterm.
  destruct (check_tie_spec b Hwf) as (t & Htie & _ & Hiff).
  rewrite Htie in Hterm. injection Hterm as ->.
  rewrite get_valid_moves_filter by done. f_equal.
  destruct (filter _ _) as [| col rest] eqn:Hfilter; [done | exfalso].
  assert (col ∈ filter (λ c, is_valid_move b c = Some true) (py_range 0 COLS))
    as [Hvalid Hcol%py_range_elem]%list_elem_of_filter
    by (rewrite Hfilter; left).
  destruct (proj1 Hiff eq_refl col Hcol) as (c & Hc & Hne).
  unfold is_valid_move in Hvalid. rewrite Hc in Hvalid. simpl in Hvalid.
  injection Hvalid as Heq%Z.eqb_eq. done.
Qed.

(** C5 (as the code has it): [minimax] answers with no move only when its
    deadline test [time.time() - start_time > time_limit] is true at the
    call, the depth is 0, a side has four in a row, or the board has no
    legal move.  [get_ai_move], on a position that is not terminal and
    with a clock that does not run back across the deadline, answers with
    no move only when its first deadline test is already true, so that no
    search is started, or when the test
    [time.time() - start_time < time_limit] that it makes right after the
    depth-1 search is false: the elapsed time, as the float subtraction
    gives it, is not less than the limit. *)
Theorem no_move_only_at_early_exit (now : nat → float) (rand : nat → nat) :
  (∀ b depth alpha beta maximizingPlayer start_time time_limit version
     w s w',
     wf_board b →
     minimax now rand b depth alpha beta maximizingPlayer
             start_time time_limit version w = Some ((s, None), w') →
     deadline_passed now start_time time_limit (clock_reads w) = true ∨
     depth = 0%nat ∨
     check_win b HUMAN_PIECE = Some true ∨
     check_win b AI_PIECE = Some true ∨
     get_valid_moves b = Some []) ∧
  (∀ b version time_limit fuel w nodes deepest total w',
     let start_time := now (clock_reads w) in
     deadline_stays_passed now start_time time_limit →
     is_terminal_node b = Some false →
     get_ai_move now rand fuel b version time_limit w
     = Some (Some (None, nodes, deepest, total), w') →
     deadline_passed now start_time time_limit (S (clock_reads w)) = true ∨
     ∃ r w1,
       minimax now rand b 1 NegInf PosInf true start_time time_limit version
               (mk_world 0 0 (S (S (clock_reads w))) (random_draws w))
       = Some (r, w1) ∧
       in_time now start_time time_limit (clock_reads w1) = false).
Proof.
  split.
  - intros b depth alpha beta maximizingPlayer start_time time_limit version
      w s w' Hwf Hrun.
    apply minimax_None_move in Hrun as [Hlate | [Hdepth | Hterm]];
      [by left | by right; left |].
    right; right. by apply terminal_cases.
  - intros b version time_limit fuel w nodes deepest total w' start_time
      Hsteady Hterm Hrun.
    by eapply get_ai_move_None.
Qed.

Lemma step_clock_stays_passed n :
  deadline_stays_passed (step_clock n) 0 1.
Proof.
  intros i j Hij. unfold deadline_passed, step_clock.
  destruct (Nat.ltb_spec i n); [done |].
  destruct (Nat.ltb_spec j n); [lia | done].
Qed.

Lemma no_move_only_at_early_exit_witness :
  (wf_board sample_board ∧
   minimax (step_clock 0) first_choice sample_board 3 NegInf PosInf true 0 1
           1 initial_world
   = Some ((Fin 0, None), mk_world 1 3 1 0)) ∧
  (deadline_stays_passed (step_clock 3)
     (step_clock 3 (clock_reads initial_world)) 1 ∧
   is_terminal_node sample_board = Some false ∧
   get_ai_move (step_clock 3) first_choice 5 sample_board 1 1 initial_world
   = Some (Some (None, 6%nat, 1%nat, 100%float), mk_world 6 1 11 1)) ∧
  (deadline_passed (step_clock 0) 0 1 (clock_reads initial_world) = true ∨
   3%nat = 0%nat ∨
   check_win sample_board HUMAN_PIECE = Some true ∨
   check_win sample_board AI_PIECE = Some true ∨
   get_valid_moves sample_board = Some []) ∧
  (deadline_passed (step_clock 3) (step_clock 3 (clock_reads initial_world))
     1 (S (clock_reads initial_world)) = true ∨
   ∃ r w1,
     minimax (step_clock 3) first_choice sample_board 1 NegInf PosInf true
             (step_clock 3 (clock_reads initial_world)) 1 1
             (mk_world 0 0 (S (S (clock_reads initial_world)))
                       (random_draws initial_world))
     = Some (r, w1) ∧
     in_time (step_clock 3) (step_clock 3 (clock_reads initial_world)) 1
             (clock_reads w1) = false).
Proof.
  destruct (no_move_only_at_early_exit (step_clock 0) first_choice)
    as [Hminimax _].
  destruct (no_move_only_at_early_exit (step_clock 3) first_choice)
    as [_ Hai].
  split; [split; [exact sample_board_wf | vm_compute; reflexivity] |].
  split.
  { split; [exact (step_clock_stays_passed 3) |].
    split; vm_compute; reflexivity. }
  split.
  - apply (Hminimax sample_board 3%nat NegInf PosInf true 0%float 1%float 1
             initial_world (Fin 0) (mk_world 1 3 1 0)).
    + exact sample_board_wf.
    + vm_compute; reflexivity.
  - apply (Hai sample_board 1 1%float 5%nat initial_world 6%nat 1%nat
             100%float (mk_world 6 1 11 1)).
    + exact (step_clock_stays_passed 3).
    + vm_compute; reflexivity.
    + vm_compute; reflexivity.
Defined.

(** C5, refuted: three calls that answer with no move on boards that have
    five legal moves: a search cut short by the deadline at its root, a
    search on a position the human has already won, and [get_ai_move] when
    the deadline passes during the depth-1 search. *)
Lemma none_move_with_legal_moves_counterexample :
  get_valid_moves sample_board = Some [0; 1; 2; 3; 4] ∧
  get_valid_moves human_won_board = Some [0; 1; 2; 3; 4] ∧
  minimax (step_clock 0) first_choice sample_board 3 NegInf PosInf true 0 1
          1 initial_world
  = Some ((Fin 0, None), mk_world 1 3 1 0) ∧
  minimax frozen_clock first_choice human_won_board 3 NegInf PosInf true 0 1
          1 initial_world
  = Some ((NegInf, None), mk_world 1 3 1 0) ∧
  get_ai_move (step_clock 3) first_choice 5 sample_board 1 1 initial_world
  = Some (Some (None, 6%nat, 1%nat, 100%float), mk_world 6 1 11 1).
Proof. repeat split; vm_compute; reflexivity. Qed.

(** The depth-1 search need not be cut short for its move to be dropped:
    on [exact_limit_clock] the search of [sample_board] ends exactly
    [time_limit] after the start with the move 2 and no node timed out; the
    elapsed time is not less than the limit, and [get_ai_move] answers
    with no move. *)
Example none_move_at_the_exact_limit :
  (∀ k, (k ≤ 8)%nat → deadline_passed exact_limit_clock 0 1 k = false) ∧
  minimax exact_limit_clock first_choice sample_board 1 NegInf PosInf true
          0 1 1 (mk_world 0 0 2 0)
  = Some ((Fin 3, Some 2), mk_world 6 1 8 1) ∧
  in_time exact_limit_clock 0 1 8 = false ∧
  get_ai_move exact_limit_clock first_choice 5 sample_board 1 1
              initial_world
  = Some (Some (None, 6%nat, 1%nat, 2%float), mk_world 6 1 11 1).
Proof.
  split.
  { intros k Hk. do 9 (destruct k as [| k]; [reflexivity |]). lia. }
  repeat split; vm_compute; reflexivity.
Qed.

(** The elapsed time is the rounded difference of two floats: for a start
    at [0.1] and a reading of [1.1] it is exactly [1], which is not more
    than a limit of [1], and the search goes on. *)
Example deadline_test_rounds :
  (float_1_1 - float_0_1)%float = 1%float ∧
  deadline_passed (λ _, float_1_1) float_0_1 1 0 = false ∧
  minimax (λ _, float_1_1) first_choice sample_board 1 NegInf PosInf true
          float_0_1 1 1 initial_world
  = Some ((Fin 3, Some 2), mk_world 6 1 6 1).
Proof. repeat split; vm_compute; reflexivity. Qed.

(** ** The two versions on an example *)

Lemma frozen_clock_no_timeout : no_timeout frozen_clock 0 1.
Proof. by intros k. Qed.

Lemma minimax_versions_same_score_witness :
  (wf_board sample_board ∧ no_timeout frozen_clock 0 1) ∧
  ∃ score move1 move2 w1' w2',
    minimax frozen_clock first_choice sample_board 4 NegInf PosInf false
            0 1 1 initial_world = Some ((score, move1), w1') ∧
    minimax frozen_clock first_choice sample_board 4 NegInf PosInf false
            0 1 2 initial_world = Some ((score, move2), w2') ∧
    score = game_value 4 false sample_board.
Proof.
  split; [split; [exact sample_board_wf | exact frozen_clock_no_timeout] |].
  apply (minimax_versions_same_score frozen_clock frozen_clock
           first_choice first_choice 0 1 0 1 sample_board 4 false
           initial_world initial_world).
  - exact sample_board_wf.
  - exact frozen_clock_no_timeout.
  - exact frozen_clock_no_timeout.
Defined.

(** Same score, different columns, fewer nodes with move ordering. *)
Example minimax_versions_on_sample_board :
  minimax frozen_clock first_choice sample_board 4 NegInf PosInf false
          0 1 1 initial_world
  = Some ((Fin 7, Some 0), mk_world 306 4 306 93) ∧
  minimax frozen_clock first_choice sample_board 4 NegInf PosInf false
          0 1 2 initial_world
  = Some ((Fin 7, Some 2), mk_world 97 4 97 44).
Proof. split; vm_compute; reflexivity. Qed.

(** With the window [(0, 1)] both versions fail high on this position, with
    different bounds. *)
Example minimax_narrow_window_on_sample_board :
  fst <$> minimax frozen_clock first_choice sample_board 1 (Fin 0) (Fin 1)
                  true 0 1 1 initial_world
  = Some (Fin 2, Some 1) ∧
  fst <$> minimax frozen_clock first_choice sample_board 1 (Fin 0) (Fin 1)
                  true 0 1 2 initial_world
  = Some (Fin 3, Some 2).
Proof. split; vm_compute; reflexivity. Qed.

(** ** What [check_win] detects *)

Lemma andM_true a b : andM a b = Some true ↔ a = Some true ∧ b = Some true.
Proof.
  unfold andM. destruct a as [[] |]; simpl; split; try done.
  - by intros [_ ?].
  - by intros [? _].
  - by intros [? _].
Qed.

Lemma orM_true a b :
  is_Some a → orM a b = Some true ↔ a = Some true ∨ b = Some true.
Proof.
  intros [x ->]. unfold orM. destruct x; simpl; split; try done.
  - by left.
  - by right.
  - by intros [? | ?].
Qed.

Lemma cell_is_true b piece row col :
  cell_is b piece row col = Some true ↔ cell b row col = Some piece.
Proof.
  unfold cell_is. destruct (cell b row col) as [c |]; simpl; [| done].
  destruct (Z.eqb_spec c piece); split; (done || congruence).
Qed.

Lemma line4_true b piece dr dc row col :
  line4 b piece dr dc (row, col) = Some true ↔
  ∀ i, 0 ≤ i < 4 → cell b (row + i * dr) (col + i * dc) = Some piece.
Proof.
  unfold line4. rewrite !andM_true, !cell_is_true. split.
  - intros (H0 & H1 & H2 & H3) i Hi.
    assert (i = 0 ∨ i = 1 ∨ i = 2 ∨ i = 3) as [-> | [-> | [-> | ->]]] by lia.
    + by rewrite !Z.mul_0_l, !Z.add_0_r.
    + by rewrite !Z.mul_1_l.
    + done.
    + done.
  - intros Hall.
    pose proof (Hall 0) as H0. pose proof (Hall 1) as H1.
    rewrite !Z.mul_0_l, !Z.add_0_r in H0. rewrite !Z.mul_1_l in H1.
    repeat split; [apply H0 | apply H1 | apply (Hall 2) | apply (Hall 3)]; lia.
Qed.

Lemma existsM_true {A} (f : A → option bool) (l : list A) :
  (∀ x, x ∈ l → is_Some (f x)) →
  existsM f l = Some true ↔ ∃ x, x ∈ l ∧ f x = Some true.
Proof.
  intros Hf. destruct (existsM_spec f l Hf) as (t & -> & Hiff).
  rewrite <- Hiff. split; [by intros [= ->] | by intros ->].
Qed.

Lemma check_win_lines b piece :
  wf_board b →
  check_win b piece = Some true ↔ four_in_a_row b piece.
Proof.
  intros Hwf.
  assert (∀ dr dc row col,
            0 ≤ row < ROWS → 0 ≤ row + 3 * dr < ROWS →
            0 ≤ col < COLS → 0 ≤ col + 3 * dc < COLS →
            is_Some (line4 b piece dr dc (row, col))) as Hline
    by (intros; by apply line4_is_Some).
  assert (∀ x, x ∈ nested (py_range 0 ROWS) (py_range 0 (COLS - 3)) →
               is_Some (line4 b piece 0 1 x)) as Hh.
  { intros [row col] [Hr%py_range_elem Hc%py_range_elem]%nested_elem.
    apply Hline; unfold ROWS, COLS in *; lia. }
  assert (∀ x, x ∈ swap_pairs (nested (py_range 0 COLS)
                                  (py_range 0 (ROWS - 3))) →
               is_Some (line4 b piece 1 0 x)) as Hv.
  { intros [row col]
      [Hc%py_range_elem Hr%py_range_elem]%swap_pairs_elem%nested_elem.
    apply Hline; unfold ROWS, COLS in *; lia. }
  assert (∀ x, x ∈ nested (py_range 0 (ROWS - 3)) (py_range 0 (COLS - 3)) →
               is_Some (line4 b piece 1 1 x)) as Hd.
  { intros [row col] [Hr%py_range_elem Hc%py_range_elem]%nested_elem.
    apply Hline; unfold ROWS, COLS in *; lia. }
  assert (∀ x, x ∈ nested (py_range 3 ROWS) (py_range 0 (COLS - 3)) →
               is_Some (line4 b piece (-1) 1 x)) as Hu.
  { intros [row col] [Hr%py_range_elem Hc%py_range_elem]%nested_elem.
    apply Hline; unfold ROWS, COLS in *; lia. }
  unfold check_win.
  do 3 rewrite orM_true by (by apply existsM_is_Some).
  rewrite !existsM_true by done.
  unfold four_in_a_row, directions. split.
  - intros [([row col] & Hin & Hl) | [([row col] & Hin & Hl)
           | [([row col] & Hin & Hl) | ([row col] & Hin & Hl)]]];
      rewrite line4_true in Hl.
    + apply nested_elem in Hin as [Hr Hc].
      apply py_range_elem in Hr, Hc.
      exists row, col, 0, 1. split; [by repeat constructor |].
      intros i Hi. split; [| split; [| by apply Hl]];
        unfold ROWS, COLS in *; lia.
    + apply swap_pairs_elem, nested_elem in Hin as [Hc Hr].
      apply py_range_elem in Hr, Hc.
      exists row, col, 1, 0. split; [by repeat constructor |].
      intros i Hi. split; [| split; [| by apply Hl]];
        unfold ROWS, COLS in *; lia.
    + apply nested_elem in Hin as [Hr Hc].
      apply py_range_elem in Hr, Hc.
      exists row, col, 1, 1. split; [by repeat constructor |].
      intros i Hi. split; [| split; [| by apply Hl]];
        unfold ROWS, COLS in *; lia.
    + apply nested_elem in Hin as [Hr Hc].
      apply py_range_elem in Hr, Hc.
      exists row, col, (-1), 1. split; [by repeat constructor |].
      intros i Hi. split; [| split; [| by apply Hl]];
        unfold ROWS, COLS in *; lia.
  - intros (row & col & dr & dc & Hdir & Hall).
    pose proof (Hall 0) as (Hr0 & Hc0 & _); [lia |].
    pose proof (Hall 3) as (Hr3 & Hc3 & _); [lia |].
    assert (line4 b piece dr dc (row, col) = Some true) as Hl.
    { apply line4_true. intros i Hi. by apply Hall. }
    repeat (apply elem_of_cons in Hdir as [[= -> ->] | Hdir]);
      [| | | | by apply elem_of_nil in Hdir].
    + left. exists (row, col). split; [| done].
      apply nested_elem. rewrite !py_range_elem. unfold ROWS, COLS in *. lia.
    + right; left. exists (row, col). split; [| done].
      apply swap_pairs_elem, nested_elem. rewrite !py_range_elem.
      unfold ROWS, COLS in *. lia.
    + right; right; left. exists (row, col). split; [| done].
      apply nested_elem. rewrite !py_range_elem. unfold ROWS, COLS in *. lia.
    + right; right; right. exists (row, col). split; [| done].
      apply nested_elem. rewrite !py_range_elem. unfold ROWS, COLS in *. lia.
Qed.

(** X1: on a well-formed board [check_win] answers [True] exactly when four
    cells in a horizontal, vertical or diagonal line inside the grid all
    hold the piece; it never raises. *)
Theorem check_win_four_in_a_row (b : board) (piece : Z) :
  wf_board b →
  is_Some (check_win b piece) ∧
  (check_win b piece = Some true ↔ four_in_a_row b piece).
Proof.
  intros Hwf. split; [by apply check_win_is_Some | by apply check_win_lines].
Qed.

Lemma check_win_four_in_a_row_witness :
  wf_board full_board_with_win ∧
  is_Some (check_win full_board_with_win HUMAN_PIECE) ∧
  (check_win full_board_with_win HUMAN_PIECE = Some true ↔
   four_in_a_row full_board_with_win HUMAN_PIECE).
Proof.
  split; [exact full_board_with_win_wf |].
  exact (check_win_four_in_a_row full_board_with_win HUMAN_PIECE
           full_board_with_win_wf).
Defined.

(** ** Where the piece lands, and what stays *)

Lemma make_move_Some_range b col piece b' :
  wf_board b → make_move b col piece = Some b' → - COLS ≤ col < COLS.
Proof.
  intros Hwf. unfold make_move. rewrite py_range_down_rows.
  cbn [make_move_loop].
  destruct (wf_board_row_is_Some b 5 Hwf) as [r Hr]; [done |].
  rewrite Hr. rewrite bind_Some_l.
  destruct (py_index r col) as [c |] eqn:Hc; [| done].
  intros _. apply py_index_Some_range in Hc.
  by rewrite (wf_board_row b 5 r Hwf Hr) in Hc.
Qed.

(** Every cell of the result is the cell of the input, except one empty
    cell of the chosen column, which holds the piece. *)
Lemma make_move_cells b col piece b' :
  wf_board b → make_move b col piece = Some b' →
  ∀ row c, 0 ≤ row < ROWS → 0 ≤ c < COLS →
    cell b' row c = cell b row c ∨
    (cell b row c = Some EMPTY ∧ cell b' row c = Some piece ∧
     c = col `mod` COLS).
Proof.
  intros Hwf Hmove row c Hrow Hc.
  pose proof (make_move_Some_range b col piece b' Hwf Hmove) as Hcol.
  destruct (landing_row b col) as [row0 |] eqn:Hland.
  - rewrite (cell_make_move b col piece row0 b') by done.
    destruct (decide (row = row0 ∧ c = col `mod` COLS)) as [[-> ->] | ?];
      [right | by left].
    apply landing_row_Some in Hland as (_ & Hempty & _).
    by rewrite <- cell_mod.
  - rewrite make_move_place, Hland in Hmove by done.
    injection Hmove as <-. by left.
Qed.

Lemma make_move_keeps_pieces b col piece b' row c x :
  wf_board b → make_move b col piece = Some b' →
  0 ≤ row < ROWS → 0 ≤ c < COLS →
  cell b row c = Some x → x ≠ EMPTY → cell b' row c = Some x.
Proof.
  intros Hwf Hmove Hrow Hc Hx Hne.
  destruct (make_move_cells b col piece b' Hwf Hmove row c Hrow Hc)
    as [-> | (Hempty & _)]; [done | congruence].
Qed.

(** X2: on a well-formed board a legal [make_move] puts the piece into the
    lowest empty cell of the column (every cell below it is occupied) and
    changes no other cell of the board. *)
Theorem make_move_lowest_empty_cell (b : board) (col piece : Z) :
  wf_board b → is_valid_move b col = Some true →
  ∃ b' row,
    make_move b col piece = Some b' ∧
    0 ≤ row < ROWS ∧ cell b row col = Some EMPTY ∧
    (∀ row', row < row' < ROWS → occupied b row' col) ∧
    (∀ r c, 0 ≤ r < ROWS → 0 ≤ c < COLS →
       cell b' r c =
       if decide (r = row ∧ c = col `mod` COLS) then Some piece
       else cell b r c).
Proof.
  intros Hwf Hvalid.
  pose proof (is_valid_move_range b col true Hwf Hvalid) as Hcol.
  destruct (landing_row_valid b col Hvalid) as [row Hland].
  destruct (make_move_valid b col piece Hwf Hvalid) as (b' & Hmove & _).
  pose proof (landing_row_Some b col row Hland) as (Hrow & Hempty & Hbelow).
  exists b', row. repeat split; try done; try lia.
  - intros row' Hrow'. apply occupied_not_empty; [done | lia | done |].
    by apply Hbelow.
  - by apply (cell_make_move b col piece row b').
Qed.

Lemma make_move_lowest_empty_cell_witness :
  (wf_board sample_board ∧ is_valid_move sample_board 0 = Some true) ∧
  ∃ b' row,
    make_move sample_board 0 AI_PIECE = Some b' ∧
    0 ≤ row < ROWS ∧ cell sample_board row 0 = Some EMPTY ∧
    (∀ row', row < row' < ROWS → occupied sample_board row' 0) ∧
    (∀ r c, 0 ≤ r < ROWS → 0 ≤ c < COLS →
       cell b' r c =
       if decide (r = row ∧ c = 0 `mod` COLS) then Some AI_PIECE
       else cell sample_board r c).
Proof.
  split; [split; [exact sample_board_wf | reflexivity] |].
  apply (make_move_lowest_empty_cell sample_board 0 AI_PIECE).
  - exact sample_board_wf.
  - reflexivity.
Defined.

(** X3: a win is never undone: if a player has four in a row, they still
    have it after any call of [make_move] that returns, whatever the column
    and the piece. *)
Theorem check_win_persists (b : board) (piece col q : Z) (b' : board) :
  wf_board b → piece ≠ EMPTY →
  check_win b piece = Some true →
  make_move b col q = Some b' →
  check_win b' piece = Some true.
Proof.
  intros Hwf Hpiece Hwin Hmove.
  pose proof (make_move_Some_range b col q b' Hwf Hmove) as Hcol.
  pose proof (make_move_wf b col q b' Hwf Hcol Hmove) as Hwf'.
  apply check_win_lines in Hwin as (row & c & dr & dc & Hdir & Hall);
    [| done].
  apply check_win_lines; [done |].
  exists row, c, dr, dc. split; [done |].
  intros i Hi. destruct (Hall i Hi) as (Hr & Hc & Hcell).
  split; [done |]. split; [done |].
  exact (make_move_keeps_pieces b col q b' _ _ piece Hwf Hmove Hr Hc Hcell
           Hpiece).
Qed.

Lemma check_win_persists_witness :
  (wf_board human_won_board ∧ HUMAN_PIECE ≠ EMPTY ∧
   check_win human_won_board HUMAN_PIECE = Some true ∧
   make_move human_won_board 4 AI_PIECE =
   Some [ [0; 0; 0; 0; 0];
          [0; 0; 0; 0; 0];
          [0; 0; 0; 0; 0];
          [0; 0; 0; 0; 0];
          [2; 2; 2; 0; 0];
          [1; 1; 1; 1; 2] ]) ∧
  check_win [ [0; 0; 0; 0; 0];
              [0; 0; 0; 0; 0];
              [0; 0; 0; 0; 0];
              [0; 0; 0; 0; 0];
              [2; 2; 2; 0; 0];
              [1; 1; 1; 1; 2] ] HUMAN_PIECE = Some true.
Proof.
  assert (wf_board human_won_board) as Hwf by (by apply wf_boardb_true).
  split; [split; [exact Hwf | split; [done | split; reflexivity]] |].
  apply (check_win_persists human_won_board HUMAN_PIECE 4 AI_PIECE);
    [exact Hwf | done | reflexivity | reflexivity].
Defined.

(** ** Moves in different columns commute *)

Lemma list_find_ext_in {A} (P Q : A → Prop) `{∀ x, Decision (P x)}
    `{∀ x, Decision (Q x)} (l : list A) :
  (∀ x, x ∈ l → P x ↔ Q x) → list_find P l = list_find Q l.
Proof.
  induction l as [| x l IH]; intros HPQ; simpl; [done |].
  rewrite (decide_ext (P x) (Q x)) by (apply HPQ; left).
  rewrite IH; [done |]. intros y Hy. apply HPQ. by right.
Qed.

Lemma place_commute b r1 k1 p1 r2 k2 p2 :
  k1 ≠ k2 →
  place (place b r1 k1 p1) r2 k2 p2 = place (place b r2 k2 p2) r1 k1 p1.
Proof.
  intros Hk. unfold place.
  destruct (b !! r1) as [x1 |] eqn:H1, (b !! r2) as [x2 |] eqn:H2;
    rewrite ?H1, ?H2; try done.
  - destruct (decide (r1 = r2)) as [-> | Hr].
    + rewrite H1 in H2. injection H2 as <-.
      rewrite !list_lookup_insert_eq by (by eapply lookup_lt_Some).
      rewrite !list_insert_insert_eq. f_equal.
      by apply list_insert_insert_ne.
    + rewrite !list_lookup_insert_ne by done. rewrite H1, H2.
      apply list_insert_insert_ne. congruence.
  - rewrite list_lookup_insert_ne; [by rewrite H2 |].
    intros <-. congruence.
  - rewrite list_lookup_insert_ne; [by rewrite H1 |].
    intros <-. congruence.
Qed.

Lemma landing_row_other_column b c1 p1 b1 c2 :
  wf_board b → make_move b c1 p1 = Some b1 →
  - COLS ≤ c2 < COLS → c1 `mod` COLS ≠ c2 `mod` COLS →
  landing_row b1 c2 = landing_row b c2.
Proof.
  intros Hwf Hmove Hc2 Hne.
  pose proof (make_move_Some_range b c1 p1 b1 Hwf Hmove) as Hc1.
  pose proof (make_move_wf b c1 p1 b1 Hwf Hc1 Hmove) as Hwf1.
  pose proof (number_lt_COLS c2) as Hc2'.
  unfold landing_row. f_equal. apply list_find_ext_in.
  intros row Hrow%rows_from_bottom_elem.
  rewrite (cell_mod b1), (cell_mod b) by done.
  destruct (make_move_cells b c1 p1 b1 Hwf Hmove row (c2 `mod` COLS))
    as [-> | (_ & _ & Heq)]; [done | done | done | congruence].
Qed.

Lemma make_move_commute b c1 p1 c2 p2 :
  wf_board b → - COLS ≤ c1 < COLS → - COLS ≤ c2 < COLS →
  c1 `mod` COLS ≠ c2 `mod` COLS →
  make_move b c1 p1 ≫= (λ b1, make_move b1 c2 p2) =
  make_move b c2 p2 ≫= (λ b2, make_move b2 c1 p1).
Proof.
  intros Hwf Hc1 Hc2 Hne.
  destruct (make_move b c1 p1) as [b1 |] eqn:H1;
    [| by rewrite make_move_place in H1].
  destruct (make_move b c2 p2) as [b2 |] eqn:H2;
    [| by rewrite make_move_place in H2].
  rewrite !bind_Some_l.
  pose proof (make_move_wf b c1 p1 b1 Hwf Hc1 H1) as Hwf1.
  pose proof (make_move_wf b c2 p2 b2 Hwf Hc2 H2) as Hwf2.
  rewrite !make_move_place by done.
  rewrite (landing_row_other_column b c1 p1 b1 c2) by done.
  rewrite (landing_row_other_column b c2 p2 b2 c1) by done.
  rewrite make_move_place in H1, H2 by done.
  injection H1 as <-. injection H2 as <-.
  pose proof (number_lt_COLS c1). pose proof (number_lt_COLS c2).
  destruct (landing_row b c1) as [r1 |], (landing_row b c2) as [r2 |];
    try done.
  f_equal. apply place_commute. lia.
Qed.

(** X4: two moves into different columns can be made in either order: the
    resulting boards are equal. *)
Theorem make_move_different_columns_commute
    (b : board) (c1 p1 c2 p2 : Z) :
  wf_board b → - COLS ≤ c1 < COLS → - COLS ≤ c2 < COLS →
  c1 `mod` COLS ≠ c2 `mod` COLS →
  ∃ b12,
    make_move b c1 p1 ≫= (λ b1, make_move b1 c2 p2) = Some b12 ∧
    make_move b c2 p2 ≫= (λ b2, make_move b2 c1 p1) = Some b12.
Proof.
  intros Hwf Hc1 Hc2 Hne.
  rewrite <- (make_move_commute b c1 p1 c2 p2) by done.
  destruct (make_move b c1 p1) as [b1 |] eqn:H1;
    [| by rewrite make_move_place in H1].
  rewrite bind_Some_l.
  pose proof (make_move_wf b c1 p1 b1 Hwf Hc1 H1) as Hwf1.
  destruct (make_move b1 c2 p2) as [b12 |] eqn:H2;
    [| by rewrite make_move_place in H2].
  by exists b12.
Qed.

Lemma make_move_different_columns_commute_witness :
  (wf_board sample_board ∧ - COLS ≤ 0 < COLS ∧ - COLS ≤ 2 < COLS ∧
   0 `mod` COLS ≠ 2 `mod` COLS) ∧
  ∃ b12,
    make_move sample_board 0 HUMAN_PIECE
      ≫= (λ b1, make_move b1 2 AI_PIECE) = Some b12 ∧
    make_move sample_board 2 AI_PIECE
      ≫= (λ b2, make_move b2 0 HUMAN_PIECE) = Some b12.
Proof.
  split; [split; [exact sample_board_wf | done] |].
  apply (make_move_different_columns_commute sample_board 0 HUMAN_PIECE 2
           AI_PIECE); [exact sample_board_wf | done ..].
Defined.

(** ** Draws, terminal positions and full columns *)

Lemma is_valid_move_true_iff b col :
  wf_board b → 0 ≤ col < COLS →
  is_valid_move b col = Some true ↔ ¬ occupied b 0 col.
Proof.
  intros Hwf Hcol.
  rewrite occupied_not_empty by (done || unfold ROWS, COLS in *; lia).
  unfold is_valid_move.
  destruct (cell_is_Some b 0 col Hwf) as [c Hc];
    [done | unfold COLS in *; lia |].
  rewrite Hc. simpl. destruct (Z.eqb_spec c EMPTY) as [-> | Hne]; split.
  - intros _ Habs. by apply Habs.
  - done.
  - done.
  - intros Habs. exfalso. apply Habs. congruence.
Qed.

Lemma is_valid_move_false_iff b col :
  wf_board b → 0 ≤ col < COLS →
  is_valid_move b col = Some false ↔ occupied b 0 col.
Proof.
  intros Hwf Hcol.
  rewrite occupied_not_empty by (done || unfold ROWS, COLS in *; lia).
  unfold is_valid_move.
  destruct (cell_is_Some b 0 col Hwf) as [c Hc];
    [done | unfold COLS in *; lia |].
  rewrite Hc. simpl. destruct (Z.eqb_spec c EMPTY) as [-> | Hne]; split;
    (done || congruence).
Qed.

Lemma check_tie_no_moves b :
  wf_board b → check_tie b = Some true ↔ get_valid_moves b = Some [].
Proof.
  intros Hwf. destruct (check_tie_spec b Hwf) as (t & Htie & _ & Hiff).
  rewrite Htie, get_valid_moves_filter by done. split.
  - intros [= ->]. f_equal.
    destruct (filter _ _) as [| col rest] eqn:Hfilter; [done | exfalso].
    assert (col ∈ filter (λ c, is_valid_move b c = Some true)
                         (py_range 0 COLS))
      as [Hvalid Hcol%py_range_elem]%list_elem_of_filter
      by (rewrite Hfilter; left).
    apply is_valid_move_true_iff in Hvalid; [| done | done].
    apply Hvalid. by apply Hiff.
  - intros [= Hnil]. f_equal. apply Hiff. intros col Hcol.
    destruct (is_valid_move_is_Some b col Hwf) as [[] Hfree]; [lia | |].
    2:{ by apply is_valid_move_false_iff in Hfree. }
    exfalso.
    assert (col ∈ filter (λ c, is_valid_move b c = Some true)
                         (py_range 0 COLS)) as Hin.
    { apply list_elem_of_filter. split; [done |]. by apply py_range_elem. }
    rewrite Hnil in Hin. by apply elem_of_nil in Hin.
Qed.

(** X5: [check_tie] answers [True] exactly when [get_valid_moves] returns
    the empty list. *)
Theorem check_tie_iff_no_valid_moves (b : board) :
  wf_board b →
  is_Some (check_tie b) ∧
  (check_tie b = Some true ↔ get_valid_moves b = Some []).
Proof.
  intros Hwf. split; [by apply check_tie_is_Some | by apply check_tie_no_moves].
Qed.

Lemma check_tie_iff_no_valid_moves_witness :
  wf_board full_board_with_win ∧
  is_Some (check_tie full_board_with_win) ∧
  (check_tie full_board_with_win = Some true ↔
   get_valid_moves full_board_with_win = Some []).
Proof.
  split; [exact full_board_with_win_wf |].
  exact (check_tie_iff_no_valid_moves full_board_with_win
           full_board_with_win_wf).
Defined.

(** X6: on a board that satisfies gravity, [check_tie] answers [True]
    exactly when the board is full: every one of its cells is occupied. *)
Theorem check_tie_iff_board_full (b : board) :
  wf_board b → gravity b →
  check_tie b = Some true ↔
  ∀ row col, 0 ≤ row < ROWS → 0 ≤ col < COLS → occupied b row col.
Proof.
  intros Hwf Hg. destruct (check_tie_spec b Hwf) as (t & -> & _ & Hiff).
  split.
  - intros [= ->] row col Hrow Hcol.
    pose proof (proj1 Hiff eq_refl col Hcol) as Htop.
    destruct (decide (row = 0)) as [-> | Hne]; [done |].
    apply (Hg col 0 row); (done || lia).
  - intros Hfull. f_equal. apply Hiff. intros col Hcol.
    apply Hfull; [done | done].
Qed.

Lemma full_board_with_win_gravity : gravity full_board_with_win.
Proof. by apply gravityb_sound. Qed.

Lemma check_tie_iff_board_full_witness :
  (wf_board full_board_with_win ∧ gravity full_board_with_win) ∧
  (check_tie full_board_with_win = Some true ↔
   ∀ row col, 0 ≤ row < ROWS → 0 ≤ col < COLS →
     occupied full_board_with_win row col).
Proof.
  split; [split; [exact full_board_with_win_wf
                 | exact full_board_with_win_gravity] |].
  exact (check_tie_iff_board_full full_board_with_win
           full_board_with_win_wf full_board_with_win_gravity).
Defined.

(** X7: a position is terminal exactly when one of the players has four in
    a row or no column is playable. *)
Theorem is_terminal_node_iff (b : board) :
  wf_board b →
  is_Some (is_terminal_node b) ∧
  (is_terminal_node b = Some true ↔
   four_in_a_row b HUMAN_PIECE ∨ four_in_a_row b AI_PIECE ∨
   get_valid_moves b = Some []).
Proof.
  intros Hwf. split; [by apply is_terminal_node_is_Some |].
  unfold is_terminal_node.
  rewrite orM_true by (by apply check_win_is_Some).
  rewrite orM_true by (by apply check_win_is_Some).
  by rewrite !check_win_lines, check_tie_no_moves.
Qed.

Lemma is_terminal_node_iff_witness :
  wf_board human_won_board ∧
  is_Some (is_terminal_node human_won_board) ∧
  (is_terminal_node human_won_board = Some true ↔
   four_in_a_row human_won_board HUMAN_PIECE ∨
   four_in_a_row human_won_board AI_PIECE ∨
   get_valid_moves human_won_board = Some []).
Proof.
  assert (wf_board human_won_board) as Hwf by (by apply wf_boardb_true).
  split; [exact Hwf |].
  exact (is_terminal_node_iff human_won_board Hwf).
Defined.

(** ** A column is playable until it holds six pieces *)

Lemma filter_length_lt {A} (P : A → Prop) `{∀ x, Decision (P x)}
    (l : list A) :
  (length (filter P l) < length l)%nat ↔ ∃ i x, l !! i = Some x ∧ ¬ P x.
Proof.
  induction l as [| a l IH]; simpl.
  { split; [lia | by intros (i & x & ? & _)]. }
  rewrite filter_cons. destruct (decide (P a)) as [Ha | Ha]; simpl.
  - rewrite <- Nat.succ_lt_mono, IH. split.
    + intros (i & x & Hi & Hx). by exists (S i), x.
    + intros ([| i] & x & Hi & Hx); simpl in Hi.
      * by injection Hi as ->.
      * by exists i, x.
  - pose proof (length_filter P l). split; [| lia].
    intros _. by exists 0%nat, a.
Qed.

Lemma column_playable_iff b col :
  wf_board b → gravity b → 0 ≤ col < COLS →
  ∃ n, occupied_in_column b col = Some n ∧
       (is_valid_move b col = Some true ↔ (n < Z.to_nat ROWS)%nat).
Proof.
  intros Hwf Hg Hcol.
  destruct (column_array_lookup b col Hwf) as (arr & Harr & Hlen & Hlook);
    [lia |].
  unfold occupied_in_column. rewrite Harr. simpl. eexists. split; [done |].
  rewrite <- Hlen, filter_length_lt.
  rewrite is_valid_move_true_iff by done. split.
  - intros Hfree. exists 0%nat.
    destruct (cell_is_Some b 0 col Hwf) as [c Hc]; [done | lia |].
    exists c. rewrite Hlook by (unfold ROWS; lia). split; [done |].
    intros Hne. apply Hfree. by exists c.
  - intros (i & x & Hi & Hx) Htop.
    assert (i < Z.to_nat ROWS)%nat as Hilt
      by (rewrite <- Hlen; by eapply lookup_lt_Some).
    rewrite Hlook in Hi by done.
    assert (occupied b (Z.of_nat i) col) as (y & Hy & Hne).
    { destruct (decide (i = 0%nat)) as [-> | Hpos]; [done |].
      apply (Hg col 0 (Z.of_nat i)); (done || lia). }
    apply Hx. congruence.
Qed.

(** X8: on a board that satisfies gravity, [is_valid_move] answers [True]
    for a column exactly when the column holds fewer than six pieces, so
    testing the top cell is enough. *)
Theorem is_valid_move_iff_column_not_full (b : board) (col : Z) :
  wf_board b → gravity b → 0 ≤ col < COLS →
  ∃ n, occupied_in_column b col = Some n ∧
       (is_valid_move b col = Some true ↔ (n < Z.to_nat ROWS)%nat).
Proof. exact (column_playable_iff b col). Qed.

Lemma is_valid_move_iff_column_not_full_witness :
  (wf_board full_column_board ∧ gravity full_column_board ∧ 0 ≤ 0 < COLS) ∧
  ∃ n, occupied_in_column full_column_board 0 = Some n ∧
       (is_valid_move full_column_board 0 = Some true ↔
        (n < Z.to_nat ROWS)%nat).
Proof.
  split; [split; [exact full_column_board_wf
                 | split; [exact full_column_board_gravity | done]] |].
  apply (is_valid_move_iff_column_not_full full_column_board 0);
    [exact full_column_board_wf | exact full_column_board_gravity | done].
Defined.

(** ** The board as Python objects: what the callers rely on *)

Lemma deepcopy_fresh h g nb h1 :
  Heap.deepcopy h g = Some (nb, h1) →
  Heap.grid_objs h !! nb = None ∧
  ∃ ls', Heap.grid_objs h1 !! nb = Some ls' ∧
         Forall (λ l', Heap.row_objs h !! l' = None) ls'.
Proof.
  unfold Heap.deepcopy. intros Hcopy.
  destruct (Heap.grid_objs h !! g) as [ls |]; [| done]. simpl in Hcopy.
  destruct (Heap.deepcopy_rows h ∅ ls) as [[[ls' h'] memo'] |] eqn:Hrows;
    [| done].
  simpl in Hcopy. injection Hcopy as <- <-.
  destruct (HeapFacts.deepcopy_rows_ok h ls h ∅ ls' h' memo')
    as ((_ & Hgrid & _) & _ & Hall); [| done |].
  { split; [apply HeapFacts.preserved_refl |]. split; [done |].
    intros l l' Hl. by rewrite lookup_empty in Hl. }
  split.
  - rewrite <- Hgrid. apply HeapFacts.fresh_grid_None.
  - exists ls'. simpl. rewrite lookup_insert_eq. split; [done |].
    eapply Forall_impl; [done |]. by intros l [? _].
Qed.

Lemma heap_make_move_loop_grid nb col piece rows : ∀ h res h',
  Heap.make_move_loop h nb rows col piece = Some (res, h') →
  Heap.grid_objs h' = Heap.grid_objs h.
Proof.
  induction rows as [| row rows IH]; intros h res h' Hloop; simpl in Hloop.
  { by injection Hloop as _ <-. }
  destruct (Heap.grid_objs h !! nb) as [ls |]; [| done]. simpl in Hloop.
  destruct (py_index ls row) as [l |]; [| by injection Hloop as _ <-].
  destruct (Heap.row_objs h !! l) as [r |]; [| done]. simpl in Hloop.
  destruct (py_index r col) as [c |]; [| by injection Hloop as _ <-].
  destruct (c =? EMPTY); [| by eapply IH].
  destruct (py_setitem r col piece); by injection Hloop as _ <-.
Qed.

Lemma heap_make_move_fresh h b col piece nb h' :
  Heap.make_move h b col piece = Some (Heap.Ok nb, h') →
  Heap.grid_objs h !! nb = None ∧
  ∃ ls', Heap.grid_objs h' !! nb = Some ls' ∧
         Forall (λ l', Heap.row_objs h !! l' = None) ls'.
Proof.
  unfold Heap.make_move. generalize (py_range_down (ROWS - 1) (-1)).
  intros rows Hmove.
  destruct (Heap.deepcopy h b) as [[nb1 h1] |] eqn:Hcopy; [| done].
  simpl in Hmove.
  destruct (Heap.make_move_loop h1 nb1 rows col piece)
    as [[res h2] |] eqn:Hloop; [| done].
  simpl in Hmove. destruct res; [| done]. injection Hmove as <- <-.
  destruct (deepcopy_fresh h b nb1 h1 Hcopy) as (Hnew & ls' & Hnb & Hall).
  split; [done |]. exists ls'. split; [| done].
  by rewrite (heap_make_move_loop_grid nb1 col piece rows h1 _ h2 Hloop).
Qed.

(** X9: on a board whose rows are distinct objects, the [make_move] that
    works on Python objects returns what [make_move] on board values
    computes and raises [IndexError] exactly when it raises; the board it
    returns is a new list object whose rows are new, distinct row objects,
    so it shares nothing with the input. *)
Theorem heap_make_move_returns_fresh_copy
    (h : Heap.heap) (b : Heap.loc) (v : board) (col piece : Z) :
  Heap.read_board h b = Some v → Heap.alias_free h b →
  match make_move v col piece with
  | Some v' =>
      ∃ nb h' ls',
        Heap.make_move h b col piece = Some (Heap.Ok nb, h') ∧
        Heap.read_board h' nb = Some v' ∧
        Heap.grid_objs h !! nb = None ∧
        Heap.grid_objs h' !! nb = Some ls' ∧ NoDup ls' ∧
        Forall (λ l', Heap.row_objs h !! l' = None) ls'
  | None =>
      ∃ h', Heap.make_move h b col piece = Some (Heap.IndexError, h')
  end.
Proof.
  intros Hread Halias.
  pose proof (make_move_refines h b v col piece Hread Halias) as Href.
  destruct (make_move v col piece) as [v' |]; [| done].
  destruct Href as (nb & h' & Hmove & Hread' & ls0 & Hls0 & Hnodup).
  destruct (heap_make_move_fresh h b col piece nb h' Hmove)
    as (Hnew & ls' & Hnb & Hall).
  rewrite Hnb in Hls0. injection Hls0 as <-.
  by exists nb, h', ls'.
Qed.

Lemma initial_board_read :
  Heap.read_board initial_heap initial_board = Some create_board ∧
  Heap.alias_free initial_heap initial_board.
Proof.
  apply (create_board_refines Heap.empty_heap). reflexivity.
Qed.

Lemma heap_make_move_returns_fresh_copy_witness :
  (Heap.read_board initial_heap initial_board = Some create_board ∧
   Heap.alias_free initial_heap initial_board) ∧
  match make_move create_board 2 AI_PIECE with
  | Some v' =>
      ∃ nb h' ls',
        Heap.make_move initial_heap initial_board 2 AI_PIECE
        = Some (Heap.Ok nb, h') ∧
        Heap.read_board h' nb = Some v' ∧
        Heap.grid_objs initial_heap !! nb = None ∧
        Heap.grid_objs h' !! nb = Some ls' ∧ NoDup ls' ∧
        Forall (λ l', Heap.row_objs initial_heap !! l' = None) ls'
  | None =>
      ∃ h', Heap.make_move initial_heap initial_board 2 AI_PIECE
            = Some (Heap.IndexError, h')
  end.
Proof.
  split; [exact initial_board_read |].
  apply (heap_make_move_returns_fresh_copy initial_heap initial_board
           create_board 2 AI_PIECE); apply initial_board_read.
Defined.

Lemma create_board_loop_preserved rows : ∀ h acc ls h',
  Heap.create_board_loop h rows acc = (ls, h') → Heap.preserved h h'.
Proof.
  induction rows as [| row rows IH]; intros h acc ls h' Hrun; simpl in Hrun.
  { injection Hrun as _ <-. apply HeapFacts.preserved_refl. }
  apply IH in Hrun. eapply HeapFacts.preserved_trans; [| done].
  apply HeapFacts.set_row_preserved, HeapFacts.fresh_row_None.
Qed.

(** X10: in every heap, [create_board] builds the empty board as a new
    list object holding six distinct row objects, and leaves every object
    of the heap as it was. *)
Theorem heap_create_board_distinct_rows (h : Heap.heap) :
  let g := (Heap.create_board h).1 in
  let h' := (Heap.create_board h).2 in
  Heap.read_board h' g = Some create_board ∧
  Heap.alias_free h' g ∧
  Heap.grid_objs h !! g = None ∧
  Heap.preserved h h'.
Proof.
  intros g h'.
  destruct (create_board_refines h g h') as [Hread Halias];
    [by rewrite (surjective_pairing (Heap.create_board h)) |].
  split; [done |]. split; [done |].
  subst g h'. unfold Heap.create_board.
  destruct (Heap.create_board_loop h (py_range 0 ROWS) []) as [ls h1] eqn:Hloop.
  pose proof (create_board_loop_preserved _ _ _ _ _ Hloop) as [Hrows Hgrids].
  simpl. split.
  - destruct (Heap.grid_objs h !! fresh (dom (Heap.grid_objs h1)))
      as [x |] eqn:Hx; [| done].
    apply Hgrids in Hx. by rewrite HeapFacts.fresh_grid_None in Hx.
  - eapply HeapFacts.preserved_trans; [done |].
    apply HeapFacts.set_grid_preserved, HeapFacts.fresh_grid_None.
Qed.

(** ** Minimax without pruning (FirstVersion) *)

Lemma first_version_is_terminal_node b :
  wf_board b → FirstVersionSearch.is_terminal_node b = is_terminal_node b.
Proof.
  intros Hwf. destruct (check_tie_spec b Hwf) as (t & Htie & Htie' & _).
  unfold FirstVersionSearch.is_terminal_node, is_terminal_node.
  by rewrite Htie, Htie'.
Qed.

Lemma score_max_assoc a b c :
  score_max (score_max a b) c = score_max a (score_max b c).
Proof. bound_scores K [a; b; c]. rank_lia K. Qed.

Lemma score_min_assoc a b c :
  score_min (score_min a b) c = score_min a (score_min b c).
Proof. bound_scores K [a; b; c]. rank_lia K. Qed.

Lemma score_max_NegInf a : score_max NegInf a = a.
Proof. by destruct a. Qed.

Lemma score_min_PosInf a : score_min PosInf a = a.
Proof. by destruct a. Qed.

Section FirstVersionFacts.
#[local] Opaque check_win evaluate_board is_terminal_node get_valid_moves
  make_move leaf_result FirstVersionSearch.is_terminal_node.

Context (now : nat → float) (rand : nat → nat).
Context (start_time time_limit : float).

Lemma first_version_max_loop search (value_of : board → score) b :
  wf_board b →
  (∀ child w, wf_board child →
     returns (search child) w (λ r, r.1 = value_of child)) →
  ∀ moves value best_move w,
    Forall (λ m, is_valid_move b m = Some true) moves →
    returns (FirstVersionSearch.max_loop search b moves value best_move) w
      (λ r, r.1 = score_max value
                    (foldr score_max NegInf
                       ((λ m, value_of (default b (make_move b m AI_PIECE)))
                          <$> moves))).
Proof.
  intros Hwf Hsearch.
  induction moves as [| m moves IH]; intros value best_move w Hvalid.
  { apply returns_ret. simpl. by destruct value. }
  apply Forall_cons in Hvalid as [Hm Hvalid].
  destruct (make_move_valid b m AI_PIECE Hwf Hm) as (child & Hchild & Hwf').
  cbn [FirstVersionSearch.max_loop fmap list_fmap foldr]. rewrite Hchild.
  eapply returns_bind_lift; [done |].
  eapply returns_bind; [by apply Hsearch |]. intros [v1 m1] w2 Hv1.
  simpl in Hv1. subst v1. cbn [default].
  change (if score_ltb value (value_of child) then value_of child else value)
    with (score_max value (value_of child)).
  eapply returns_mono; [by apply IH |].
  intros r ->. apply score_max_assoc.
Qed.

Lemma first_version_min_loop search (value_of : board → score) b :
  wf_board b →
  (∀ child w, wf_board child →
     returns (search child) w (λ r, r.1 = value_of child)) →
  ∀ moves value best_move w,
    Forall (λ m, is_valid_move b m = Some true) moves →
    returns (FirstVersionSearch.min_loop search b moves value best_move) w
      (λ r, r.1 = score_min value
                    (foldr score_min PosInf
                       ((λ m, value_of (default b (make_move b m HUMAN_PIECE)))
                          <$> moves))).
Proof.
  intros Hwf Hsearch.
  induction moves as [| m moves IH]; intros value best_move w Hvalid.
  { apply returns_ret. simpl. by destruct value. }
  apply Forall_cons in Hvalid as [Hm Hvalid].
  destruct (make_move_valid b m HUMAN_PIECE Hwf Hm)
    as (child & Hchild & Hwf').
  cbn [FirstVersionSearch.min_loop fmap list_fmap foldr]. rewrite Hchild.
  eapply returns_bind_lift; [done |].
  eapply returns_bind; [by apply Hsearch |]. intros [v1 m1] w2 Hv1.
  simpl in Hv1. subst v1. cbn [default].
  change (if score_ltb (value_of child) value then value_of child else value)
    with (score_min value (value_of child)).
  eapply returns_mono; [by apply IH |].
  intros r ->. apply score_min_assoc.
Qed.

Lemma first_version_minimax_value :
  no_timeout now start_time time_limit →
  ∀ depth b maximizingPlayer w,
    wf_board b →
    returns (FirstVersionSearch.minimax now rand b depth maximizingPlayer
               start_time time_limit) w
            (λ r, r.1 = game_value depth maximizingPlayer b).
Proof.
  intros Hclock.
  induction depth as [| depth IH]; intros b maximizingPlayer w Hwf;
    cbn [FirstVersionSearch.minimax].
  - eapply returns_bind; [apply count_node_returns |]. intros _ w1 _.
    eapply returns_bind;
      [apply (time_time_returns now _
         (λ t, (time_limit <? t - start_time)%float = false));
       apply Hclock |].
    intros t w2 Ht. cbv beta in Ht.
    rewrite Ht.
    eapply returns_mono; [by apply leaf_result_returns |]. by intros r ->.
  - eapply returns_bind; [apply count_node_returns |]. intros _ w1 _.
    eapply returns_bind;
      [apply (time_time_returns now _
         (λ t, (time_limit <? t - start_time)%float = false));
       apply Hclock |].
    intros t w2 Ht. cbv beta in Ht.
    rewrite Ht.
    destruct (is_terminal_node_is_Some b Hwf) as [terminal Hterm].
    eapply returns_bind_lift;
      [by rewrite first_version_is_terminal_node |].
    cbn [game_value]. rewrite Hterm. cbn [default].
    destruct terminal.
    { eapply returns_mono; [by apply leaf_result_returns |]. by intros r ->. }
    pose proof (get_valid_moves_filter b Hwf) as Hmoves.
    eapply returns_bind_lift; [done |].
    rewrite Hmoves. cbn [default].
    set (moves := filter _ _) in *.
    eapply returns_bind.
    { apply random_choice_returns. by eapply valid_moves_nonempty. }
    intros best_move w4 _.
    destruct maximizingPlayer; cbn [negb].
    + eapply returns_mono.
      * apply (first_version_max_loop _ (game_value depth false) b Hwf);
          [| by apply valid_moves_Forall].
        intros child w' Hchild. by apply IH.
      * intros r ->. apply score_max_NegInf.
    + eapply returns_mono.
      * apply (first_version_min_loop _ (game_value depth true) b Hwf);
          [| by apply valid_moves_Forall].
        intros child w' Hchild. by apply IH.
      * intros r ->. apply score_min_PosInf.
Qed.
End FirstVersionFacts.

(** X11: pruning does not change the score.  On every well-formed board,
    for every depth and either side to move, when the deadline is never
    reached, the plain minimax of [FirstVersion_connect4.py] and the
    alpha-beta minimax of [AI_connect_4.py] (either version, called with
    the full window) both return, with the same score. *)
Theorem pruning_keeps_the_score
    (now1 now2 : nat → float) (rand1 rand2 : nat → nat)
    (start_time1 time_limit1 start_time2 time_limit2 : float) (version : Z)
    (b : board) (depth : nat) (maximizingPlayer : bool) (w1 w2 : world) :
  wf_board b →
  no_timeout now1 start_time1 time_limit1 →
  no_timeout now2 start_time2 time_limit2 →
  ∃ score move1 move2 w1' w2',
    FirstVersionSearch.minimax now1 rand1 b depth maximizingPlayer
      start_time1 time_limit1 w1 = Some ((score, move1), w1') ∧
    minimax now2 rand2 b depth NegInf PosInf maximizingPlayer
      start_time2 time_limit2 version w2 = Some ((score, move2), w2').
Proof.
  intros Hwf Hclock1 Hclock2.
  destruct (first_version_minimax_value now1 rand1 start_time1 time_limit1
              Hclock1 depth b maximizingPlayer w1 Hwf)
    as ([v move1] & w1' & H1 & Hv).
  destruct (minimax_full_window now2 rand2 start_time2 time_limit2 version
              depth b maximizingPlayer w2 Hclock2 Hwf) as (move2 & w2' & H2).
  simpl in Hv. subst v.
  by exists (game_value depth maximizingPlayer b), move1, move2, w1', w2'.
Qed.

Lemma pruning_keeps_the_score_witness :
  (wf_board sample_board ∧ no_timeout frozen_clock 0 1) ∧
  ∃ score move1 move2 w1' w2',
    FirstVersionSearch.minimax frozen_clock first_choice sample_board 3 true
      0 1 initial_world = Some ((score, move1), w1') ∧
    minimax frozen_clock first_choice sample_board 3 NegInf PosInf true
      0 1 2 initial_world = Some ((score, move2), w2').
Proof.
  split; [split; [exact sample_board_wf | exact frozen_clock_no_timeout] |].
  apply (pruning_keeps_the_score frozen_clock frozen_clock first_choice
           first_choice 0 1 0 1 2 sample_board 3 true initial_world
           initial_world).
  - exact sample_board_wf.
  - exact frozen_clock_no_timeout.
  - exact frozen_clock_no_timeout.
Defined.

(** ** The move the search returns *)

Lemma random_choice_inv rand (l : list Z) w x w' :
  random_choice rand l w = Some (x, w') → x ∈ l.
Proof.
  unfold random_choice.
  destruct (l !! _) as [y |] eqn:Hy; [| done].
  intros [= <- _]. by eapply list_elem_of_lookup_2.
Qed.

Lemma leaf_result_move b w v mv w' :
  leaf_result b w = Some ((v, mv), w') → mv = None.
Proof.
  unfold leaf_result. intros Hrun.
  apply bind_Some_inv in Hrun as (ai & w1 & _ & Hrun).
  destruct ai; [by injection Hrun as _ <- _ |].
  apply bind_Some_inv in Hrun as (human & w2 & _ & Hrun).
  destruct human; [by injection Hrun as _ <- _ |].
  apply bind_Some_inv in Hrun as (s & w3 & _ & Hrun).
  by injection Hrun as _ <- _.
Qed.

Section MoveFacts.
#[local] Opaque check_win evaluate_board is_terminal_node get_valid_moves
  make_move order_moves leaf_result FirstVersionSearch.is_terminal_node.

Context (now : nat → float) (rand : nat → nat).

Lemma max_loop_move search b beta moves :
  ∀ value alpha best_move w v mv w',
    max_loop search b moves value alpha beta best_move w
    = Some ((v, mv), w') →
    mv = best_move ∨ ∃ m, m ∈ moves ∧ mv = Some m.
Proof.
  induction moves as [| m moves IH];
    intros value alpha best_move w v mv w' Hrun; cbn [max_loop] in Hrun.
  { injection Hrun as _ <- _. by left. }
  apply bind_Some_inv in Hrun as (child & w1 & _ & Hrun).
  apply bind_Some_inv in Hrun as ([new_score m'] & w2 & _ & Hrun).
  destruct (score_leb beta _).
  - injection Hrun as _ <- _. destruct (score_ltb value new_score).
    + right. exists m. split; [constructor | done].
    + by left.
  - apply IH in Hrun as [-> | (m0 & Hm0 & ->)].
    + destruct (score_ltb value new_score); [| by left].
      right. exists m. split; [constructor | done].
    + right. exists m0. split; [by constructor | done].
Qed.

Lemma min_loop_move search b alpha moves :
  ∀ value beta best_move w v mv w',
    min_loop search b moves value alpha beta best_move w
    = Some ((v, mv), w') →
    mv = best_move ∨ ∃ m, m ∈ moves ∧ mv = Some m.
Proof.
  induction moves as [| m moves IH];
    intros value beta best_move w v mv w' Hrun; cbn [min_loop] in Hrun.
  { injection Hrun as _ <- _. by left. }
  apply bind_Some_inv in Hrun as (child & w1 & _ & Hrun).
  apply bind_Some_inv in Hrun as ([new_score m'] & w2 & _ & Hrun).
  destruct (score_leb _ alpha).
  - injection Hrun as _ <- _. destruct (score_ltb new_score value).
    + right. exists m. split; [constructor | done].
    + by left.
  - apply IH in Hrun as [-> | (m0 & Hm0 & ->)].
    + destruct (score_ltb new_score value); [| by left].
      right. exists m. split; [constructor | done].
    + right. exists m0. split; [by constructor | done].
Qed.

Lemma minimax_move_valid start_time time_limit version b depth alpha beta
    maximizingPlayer w v m w' :
  wf_board b →
  minimax now rand b depth alpha beta maximizingPlayer
          start_time time_limit version w = Some ((v, Some m), w') →
  0 ≤ m < COLS ∧ is_valid_move b m = Some true.
Proof.
  intros Hwf Hrun. destruct depth as [| depth]; cbn [minimax] in Hrun.
  - apply bind_Some_inv in Hrun as ([] & w1 & _ & Hrun).
    apply bind_Some_inv in Hrun as (t & w2 & _ & Hrun).
    destruct (_ <? _)%float.
    + apply bind_Some_inv in Hrun as (s & w3 & _ & Hrun). done.
    + by apply leaf_result_move in Hrun.
  - apply bind_Some_inv in Hrun as ([] & w1 & _ & Hrun).
    apply bind_Some_inv in Hrun as (t & w2 & _ & Hrun).
    destruct (_ <? _)%float.
    { apply bind_Some_inv in Hrun as (s & w3 & _ & Hrun). done. }
    apply bind_Some_inv in Hrun as (terminal & w3 & _ & Hrun).
    destruct terminal; [by apply leaf_result_move in Hrun |].
    apply bind_Some_inv in Hrun as (moves & w4 & Hmoves & Hrun).
    apply lift_Some_inv in Hmoves as [Hmoves ->].
    apply bind_Some_inv in Hrun as (moves' & w5 & Hmoves' & Hrun).
    assert (moves' ≡ₚ moves) as Hperm.
    { destruct (ordered_moves_returns version b maximizingPlayer moves w3
                  Hwf Hmoves) as (l & w6 & Heq & Hl).
      rewrite Heq in Hmoves'. by injection Hmoves' as <- _. }
    apply bind_Some_inv in Hrun as (best_move & w6 & Hbest & Hrun).
    apply random_choice_inv in Hbest.
    assert (m ∈ moves') as Hm.
    { destruct maximizingPlayer.
      - apply max_loop_move in Hrun as [[= ->] | (m0 & Hm0 & [= ->])]; done.
      - apply min_loop_move in Hrun as [[= ->] | (m0 & Hm0 & [= ->])]; done. }
    rewrite Hperm in Hm.
    by apply (get_valid_moves_elem b moves m Hwf Hmoves).
Qed.

Lemma get_ai_move_loop_move_valid b version start_time time_limit fuel :
  wf_board b →
  ∀ depth best_move w m w',
    (∀ m0, best_move = Some m0 →
           0 ≤ m0 < COLS ∧ is_valid_move b m0 = Some true) →
    get_ai_move_loop now rand fuel b version start_time time_limit
                     depth best_move w = Some (Some (Some m), w') →
    0 ≤ m < COLS ∧ is_valid_move b m = Some true.
Proof.
  intros Hwf.
  induction fuel as [| fuel IH]; intros depth best_move w m w' Hbest Hrun;
    cbn [get_ai_move_loop] in Hrun; [done |].
  apply bind_Some_inv in Hrun as (t & w1 & _ & Hrun).
  destruct (_ <? _)%float.
  { injection Hrun as -> _. by apply Hbest. }
  apply bind_Some_inv in Hrun as ([s move] & w2 & Hcall & Hrun).
  apply bind_Some_inv in Hrun as (t' & w3 & _ & Hrun).
  eapply IH; [| exact Hrun].
  intros m0 Hm0. destruct (_ <? _)%float; [| by apply Hbest].
  subst move. by eapply minimax_move_valid.
Qed.

Lemma first_version_max_loop_move search b moves :
  ∀ value best_move w v mv w',
    FirstVersionSearch.max_loop search b moves value best_move w
    = Some ((v, mv), w') →
    mv = best_move ∨ ∃ m, m ∈ moves ∧ mv = Some m.
Proof.
  induction moves as [| m moves IH];
    intros value best_move w v mv w' Hrun;
    cbn [FirstVersionSearch.max_loop] in Hrun.
  { injection Hrun as _ <- _. by left. }
  apply bind_Some_inv in Hrun as (child & w1 & _ & Hrun).
  apply bind_Some_inv in Hrun as ([new_score m'] & w2 & _ & Hrun).
  apply IH in Hrun as [-> | (m0 & Hm0 & ->)].
  - destruct (score_ltb value new_score); [| by left].
    right. exists m. split; [constructor | done].
  - right. exists m0. split; [by constructor | done].
Qed.

Lemma first_version_min_loop_move search b moves :
  ∀ value best_move w v mv w',
    FirstVersionSearch.min_loop search b moves value best_move w
    = Some ((v, mv), w') →
    mv = best_move ∨ ∃ m, m ∈ moves ∧ mv = Some m.
Proof.
  induction moves as [| m moves IH];
    intros value best_move w v mv w' Hrun;
    cbn [FirstVersionSearch.min_loop] in Hrun.
  { injection Hrun as _ <- _. by left. }
  apply bind_Some_inv in Hrun as (child & w1 & _ & Hrun).
  apply bind_Some_inv in Hrun as ([new_score m'] & w2 & _ & Hrun).
  apply IH in Hrun as [-> | (m0 & Hm0 & ->)].
  - destruct (score_ltb new_score value); [| by left].
    right. exists m. split; [constructor | done].
  - right. exists m0. split; [by constructor | done].
Qed.

Lemma first_version_minimax_move_valid start_time time_limit b depth
    maximizingPlayer w v m w' :
  wf_board b →
  FirstVersionSearch.minimax now rand b depth maximizingPlayer
    start_time time_limit w = Some ((v, Some m), w') →
  0 ≤ m < COLS ∧ is_valid_move b m = Some true.
Proof.
  intros Hwf Hrun. destruct depth as [| depth];
    cbn [FirstVersionSearch.minimax] in Hrun.
  - apply bind_Some_inv in Hrun as ([] & w1 & _ & Hrun).
    apply bind_Some_inv in Hrun as (t & w2 & _ & Hrun).
    destruct (_ <? _)%float.
    + apply bind_Some_inv in Hrun as (s & w3 & _ & Hrun). done.
    + by apply leaf_result_move in Hrun.
  - apply bind_Some_inv in Hrun as ([] & w1 & _ & Hrun).
    apply bind_Some_inv in Hrun as (t & w2 & _ & Hrun).
    destruct (_ <? _)%float.
    { apply bind_Some_inv in Hrun as (s & w3 & _ & Hrun). done. }
    apply bind_Some_inv in Hrun as (terminal & w3 & _ & Hrun).
    destruct terminal; [by apply leaf_result_move in Hrun |].
    apply bind_Some_inv in Hrun as (moves & w4 & Hmoves & Hrun).
    apply lift_Some_inv in Hmoves as [Hmoves ->].
    apply bind_Some_inv in Hrun as (best_move & w6 & Hbest & Hrun).
    apply random_choice_inv in Hbest.
    assert (m ∈ moves) as Hm.
    { destruct maximizingPlayer.
      - apply first_version_max_loop_move in Hrun
          as [[= ->] | (m0 & Hm0 & [= ->])]; done.
      - apply first_version_min_loop_move in Hrun
          as [[= ->] | (m0 & Hm0 & [= ->])]; done. }
    by apply (get_valid_moves_elem b moves m Hwf Hmoves).
Qed.

Lemma first_version_get_ai_move_loop_move_valid b start_time time_limit
    fuel :
  wf_board b →
  ∀ depth best_move w m w',
    (∀ m0, best_move = Some m0 →
           0 ≤ m0 < COLS ∧ is_valid_move b m0 = Some true) →
    FirstVersionSearch.get_ai_move_loop now rand fuel b start_time
      time_limit depth best_move w = Some (Some (Some m), w') →
    0 ≤ m < COLS ∧ is_valid_move b m = Some true.
Proof.
  intros Hwf.
  induction fuel as [| fuel IH]; intros depth best_move w m w' Hbest Hrun;
    cbn [FirstVersionSearch.get_ai_move_loop] in Hrun; [done |].
  apply bind_Some_inv in Hrun as (t & w1 & _ & Hrun).
  destruct (_ <? _)%float.
  { injection Hrun as -> _. by apply Hbest. }
  apply bind_Some_inv in Hrun as ([s move] & w2 & Hcall & Hrun).
  apply bind_Some_inv in Hrun as (t' & w3 & _ & Hrun).
  eapply IH; [| exact Hrun].
  intros m0 Hm0. destruct (_ <? _)%float; [| by apply Hbest].
  subst move. by eapply first_version_minimax_move_valid.
Qed.
End MoveFacts.

(** X12: whatever the clock, the window, the version and the random
    draws, a move returned by [minimax] on a well-formed board is a
    playable column: it lies in [0, COLS) and [is_valid_move] holds for
    it. *)
Theorem minimax_returns_playable_column
    (now : nat → float) (rand : nat → nat) (b : board) (depth : nat)
    (alpha beta : score) (maximizingPlayer : bool)
    (start_time time_limit : float) (version : Z) (w w' : world)
    (v : score) (m : Z) :
  wf_board b →
  minimax now rand b depth alpha beta maximizingPlayer
          start_time time_limit version w = Some ((v, Some m), w') →
  0 ≤ m < COLS ∧ is_valid_move b m = Some true.
Proof. apply minimax_move_valid. Qed.

(** X13: whatever the clock, the version and the random draws, a move
    returned by [get_ai_move] on a well-formed board is a playable column,
    so the [make_move] that [main] does with it puts the piece of the AI
    on the board. *)
Theorem get_ai_move_returns_playable_column
    (now : nat → float) (rand : nat → nat) (fuel : nat) (b : board)
    (version : Z) (time_limit : float) (w w' : world) (m : Z)
    (nodes deepest : nat) (total : float) :
  wf_board b →
  get_ai_move now rand fuel b version time_limit w
  = Some (Some (Some m, nodes, deepest, total), w') →
  0 ≤ m < COLS ∧ is_valid_move b m = Some true ∧
  ∃ b', make_move b m AI_PIECE = Some b' ∧ wf_board b'.
Proof.
  intros Hwf Hrun. unfold get_ai_move in Hrun.
  apply bind_Some_inv in Hrun as (start_time & w0 & _ & Hrun).
  apply bind_Some_inv in Hrun as ([] & w1 & _ & Hrun).
  apply bind_Some_inv in Hrun as (res & w2 & Hloop & Hrun).
  destruct res as [best_move |]; [| by injection Hrun].
  apply bind_Some_inv in Hrun as (t & w3 & _ & Hrun).
  apply bind_Some_inv in Hrun as ([n d] & w4 & _ & Hrun).
  injection Hrun as -> _ _ _ _.
  apply get_ai_move_loop_move_valid in Hloop as [Hm Hvalid];
    [| done | done].
  split; [done |]. split; [done |]. by apply make_move_valid.
Qed.

(** X14: the same for [FirstVersion_connect4.py]: a move returned by its
    [minimax] or by its [get_ai_move] on a well-formed board is a playable
    column. *)
Theorem first_version_returns_playable_column
    (now : nat → float) (rand : nat → nat) (b : board) (m : Z) :
  wf_board b →
  ((∃ depth maximizingPlayer start_time time_limit w v w',
      FirstVersionSearch.minimax now rand b depth maximizingPlayer
        start_time time_limit w = Some ((v, Some m), w')) ∨
   (∃ fuel time_limit w nodes deepest total w',
      FirstVersionSearch.get_ai_move now rand fuel b time_limit w
      = Some (Some (Some m, nodes, deepest, total), w'))) →
  0 ≤ m < COLS ∧ is_valid_move b m = Some true.
Proof.
  intros Hwf [Hrun | Hrun].
  - destruct Hrun as (depth & maxi & st & tl & w & v & w' & Hrun).
    by eapply first_version_minimax_move_valid.
  - destruct Hrun as (fuel & tl & w & nodes & deepest & total & w' & Hrun).
    unfold FirstVersionSearch.get_ai_move in Hrun.
    apply bind_Some_inv in Hrun as (start_time & w0 & _ & Hrun).
    apply bind_Some_inv in Hrun as ([] & w1 & _ & Hrun).
    apply bind_Some_inv in Hrun as (res & w2 & Hloop & Hrun).
    destruct res as [best_move |]; [| by injection Hrun].
    apply bind_Some_inv in Hrun as (t & w3 & _ & Hrun).
    apply bind_Some_inv in Hrun as ([n d] & w4 & _ & Hrun).
    injection Hrun as -> _ _ _ _.
    by apply first_version_get_ai_move_loop_move_valid in Hloop.
Qed.

Lemma minimax_returns_playable_column_witness :
  (wf_board sample_board ∧
   minimax frozen_clock first_choice sample_board 2 NegInf PosInf true 0 1 2
           initial_world = Some ((Fin 3, Some 2), mk_world 15 2 15 6)) ∧
  0 ≤ 2 < COLS ∧ is_valid_move sample_board 2 = Some true.
Proof.
  split; [split; [exact sample_board_wf | vm_compute; reflexivity] |].
  apply (minimax_returns_playable_column frozen_clock first_choice
           sample_board 2 NegInf PosInf true 0 1 2 initial_world
           (mk_world 15 2 15 6) (Fin 3) 2).
  - exact sample_board_wf.
  - vm_compute; reflexivity.
Defined.

Lemma get_ai_move_returns_playable_column_witness :
  (wf_board sample_board ∧
   get_ai_move (step_clock 9) first_choice 3 sample_board 1 1 initial_world
   = Some (Some (Some 2, 6%nat, 1%nat, 100%float), mk_world 6 1 11 1)) ∧
  0 ≤ 2 < COLS ∧ is_valid_move sample_board 2 = Some true ∧
  ∃ b', make_move sample_board 2 AI_PIECE = Some b' ∧ wf_board b'.
Proof.
  split; [split; [exact sample_board_wf | vm_compute; reflexivity] |].
  apply (get_ai_move_returns_playable_column (step_clock 9) first_choice 3
           sample_board 1 1 initial_world (mk_world 6 1 11 1) 2 6%nat 1%nat
           100).
  - exact sample_board_wf.
  - vm_compute; reflexivity.
Defined.

Lemma first_version_returns_playable_column_witness :
  (wf_board sample_board ∧
   FirstVersionSearch.get_ai_move (step_clock 9) first_choice 4
     sample_board 1 initial_world
   = Some (Some (Some 2, 6%nat, 1%nat, 100%float), mk_world 6 1 11 1)) ∧
  0 ≤ 2 < COLS ∧ is_valid_move sample_board 2 = Some true.
Proof.
  split; [split; [exact sample_board_wf | vm_compute; reflexivity] |].
  apply (first_version_returns_playable_column (step_clock 9) first_choice
           sample_board 2).
  - exact sample_board_wf.
  - right. exists 4%nat, 1%float, initial_world, 6%nat, 1%nat, 100%float,
      (mk_world 6 1 11 1). vm_compute; reflexivity.
Defined.

(** ** The returned move is a best move *)

Lemma returns_and {A} (c : M A) w (P Q : A → Prop) :
  returns c w P → returns c w Q → returns c w (λ a, P a ∧ Q a).
Proof.
  intros (a & w1 & Hc & Ha) (a' & w2 & Hc' & Ha').
  rewrite Hc in Hc'. injection Hc' as <- <-. by exists a, w1.
Qed.

Lemma score_max_absorb a b : score_max a (score_max a b) = score_max a b.
Proof. bound_scores K [a; b]. rank_lia K. Qed.

Lemma score_min_absorb a b : score_min a (score_min a b) = score_min a b.
Proof. bound_scores K [a; b]. rank_lia K. Qed.

(** One step of the maximizing loop at the root: the window is
    [(value, +inf)], so a score that improves [value] is exact. *)
Lemma max_best_step (value v1 m1 : score) :
  score_lt value PosInf → window_ok value PosInf m1 v1 →
  score_le value (score_max value v1) ∧
  score_le m1 (score_max value v1) ∧
  (score_ltb value v1 = true → score_max value v1 = m1) ∧
  (score_ltb value v1 = false → score_max value v1 = value).
Proof.
  intros Hv Hok.
  assert (score_ltb value v1 = true ↔ score_lt value v1) as -> by done.
  assert (score_ltb value v1 = false ↔ score_le v1 value) as -> by done.
  bound_scores K [value; v1; m1; PosInf]. rank_lia K.
Qed.

Lemma min_best_step (value v1 m1 : score) :
  score_lt NegInf value → window_ok NegInf value m1 v1 →
  score_le (score_min value v1) value ∧
  score_le (score_min value v1) m1 ∧
  (score_ltb v1 value = true → score_min value v1 = m1) ∧
  (score_ltb v1 value = false → score_min value v1 = value).
Proof.
  intros Hv Hok.
  assert (score_ltb v1 value = true ↔ score_lt v1 value) as -> by done.
  assert (score_ltb v1 value = false ↔ score_le value v1) as -> by done.
  bound_scores K [value; v1; m1; NegInf]. rank_lia K.
Qed.

Lemma score_le_trans a b c : score_le a b → score_le b c → score_le a c.
Proof. intros Hab Hbc. bound_scores K [a; b; c]. rank_lia K. Qed.

Lemma score_le_refl a : score_le a a.
Proof. bound_scores K [a]. rank_lia K. Qed.

Section BestMove.
#[local] Opaque check_win evaluate_board is_terminal_node get_valid_moves
  make_move order_moves leaf_result.

Context (now : nat → float) (rand : nat → nat).
Context (start_time time_limit : float) (version : Z).

Lemma max_loop_best search (value_of : board → score) b :
  wf_board b →
  (∀ child alpha w,
     wf_board child → score_lt alpha PosInf →
     returns (search child alpha) w
             (λ r, window_ok alpha PosInf (value_of child) r.1)) →
  ∀ moves value best w,
    Forall (λ m, is_valid_move b m = Some true) moves →
    score_lt value PosInf →
    returns (max_loop search b moves value value PosInf (Some best)) w
      (λ r, score_le value r.1 ∧
            (∀ m, m ∈ moves →
               score_le (value_of (default b (make_move b m AI_PIECE)))
                        r.1) ∧
            ∃ m, r.2 = Some m ∧
              ((m = best ∧ r.1 = value) ∨
               (m ∈ moves ∧
                value_of (default b (make_move b m AI_PIECE)) = r.1))).
Proof.
  intros Hwf Hsearch.
  induction moves as [| m moves IH]; intros value best w Hvalid Hvalue.
  { apply returns_ret. simpl. split; [apply score_le_refl |].
    split; [by intros m Hm%elem_of_nil |]. exists best. by split; [| left]. }
  apply Forall_cons in Hvalid as [Hm Hvalid].
  destruct (make_move_valid b m AI_PIECE Hwf Hm) as (child & Hchild & Hwf').
  cbn [max_loop]. rewrite Hchild.
  eapply returns_bind_lift; [done |].
  eapply returns_bind; [by apply Hsearch |]. intros [v1 m1] w2 Hv1.
  simpl in Hv1.
  change (if score_ltb value v1 then v1 else value)
    with (score_max value v1).
  rewrite score_max_absorb.
  destruct (max_best_step value v1 (value_of child) Hvalue Hv1)
    as (Hle & Hchild_le & Himproved & Hsame).
  assert (∀ v, score_le (score_max value v1) v →
               ∀ m0, m0 ∈ m :: moves →
                 (∀ m', m' ∈ moves →
                    score_le (value_of (default b (make_move b m' AI_PIECE)))
                             v) →
                 score_le (value_of (default b (make_move b m0 AI_PIECE))) v)
    as Hall.
  { intros v Hv m0 [-> | Hm0]%elem_of_cons Hrest; [| by apply Hrest].
    rewrite Hchild. simpl. by eapply score_le_trans. }
  replace (if score_ltb value v1 then Some m else Some best)
    with (Some (if score_ltb value v1 then m else best))
    by (by destruct (score_ltb value v1)).
  set (best' := if score_ltb value v1 then m else best).
  assert ((best' = best ∧ score_max value v1 = value) ∨
          (best' = m ∧ value_of child = score_max value v1)) as Hbest'.
  { subst best'. destruct (score_ltb value v1) eqn:Himp.
    - right. split; [done |]. symmetry. by apply Himproved.
    - left. split; [done |]. by apply Hsame. }
  clearbody best'.
  destruct (score_leb PosInf (score_max value v1)) eqn:Hcut.
  - apply returns_ret. simpl. split; [done |]. split.
    { intros m0 Hm0. apply (Hall _ (score_le_refl _) m0 Hm0).
      intros m' _. apply negb_true_iff in Hcut.
      by destruct (score_max value v1). }
    exists best'. split; [done |].
    destruct Hbest' as [[-> Hb] | [-> Hb]]; [by left | right].
    split; [constructor |]. by rewrite Hchild.
  - apply negb_false_iff in Hcut.
    eapply returns_mono; [by apply IH |].
    intros [v mv] (Hv & Hrest & m0 & Hmv & Hm0). simpl in *.
    split; [by eapply score_le_trans |].
    split; [intros m' Hm'; by apply Hall |].
    exists m0. split; [done |].
    destruct Hm0 as [[-> ->] | [Hm0 Hvalue0]].
    + destruct Hbest' as [[-> Hb] | [-> Hb]]; [by left | right].
      split; [constructor |]. by rewrite Hchild.
    + right. split; [by constructor | done].
Qed.

Lemma min_loop_best search (value_of : board → score) b :
  wf_board b →
  (∀ child beta w,
     wf_board child → score_lt NegInf beta →
     returns (search child beta) w
             (λ r, window_ok NegInf beta (value_of child) r.1)) →
  ∀ moves value best w,
    Forall (λ m, is_valid_move b m = Some true) moves →
    score_lt NegInf value →
    returns (min_loop search b moves value NegInf value (Some best)) w
      (λ r, score_le r.1 value ∧
            (∀ m, m ∈ moves →
               score_le r.1
                 (value_of (default b (make_move b m HUMAN_PIECE)))) ∧
            ∃ m, r.2 = Some m ∧
              ((m = best ∧ r.1 = value) ∨
               (m ∈ moves ∧
                value_of (default b (make_move b m HUMAN_PIECE)) = r.1))).
Proof.
  intros Hwf Hsearch.
  induction moves as [| m moves IH]; intros value best w Hvalid Hvalue.
  { apply returns_ret. simpl. split; [apply score_le_refl |].
    split; [by intros m Hm%elem_of_nil |]. exists best. by split; [| left]. }
  apply Forall_cons in Hvalid as [Hm Hvalid].
  destruct (make_move_valid b m HUMAN_PIECE Hwf Hm)
    as (child & Hchild & Hwf').
  cbn [min_loop]. rewrite Hchild.
  eapply returns_bind_lift; [done |].
  eapply returns_bind; [by apply Hsearch |]. intros [v1 m1] w2 Hv1.
  simpl in Hv1.
  change (if score_ltb v1 value then v1 else value)
    with (score_min value v1).
  rewrite score_min_absorb.
  destruct (min_best_step value v1 (value_of child) Hvalue Hv1)
    as (Hle & Hchild_le & Himproved & Hsame).
  assert (∀ v, score_le v (score_min value v1) →
               ∀ m0, m0 ∈ m :: moves →
                 (∀ m', m' ∈ moves →
                    score_le v
                      (value_of (default b (make_move b m' HUMAN_PIECE)))) →
                 score_le v
                   (value_of (default b (make_move b m0 HUMAN_PIECE))))
    as Hall.
  { intros v Hv m0 [-> | Hm0]%elem_of_cons Hrest; [| by apply Hrest].
    rewrite Hchild. simpl. by eapply score_le_trans. }
  replace (if score_ltb v1 value then Some m else Some best)
    with (Some (if score_ltb v1 value then m else best))
    by (by destruct (score_ltb v1 value)).
  set (best' := if score_ltb v1 value then m else best).
  assert ((best' = best ∧ score_min value v1 = value) ∨
          (best' = m ∧ value_of child = score_min value v1)) as Hbest'.
  { subst best'. destruct (score_ltb v1 value) eqn:Himp.
    - right. split; [done |]. symmetry. by apply Himproved.
    - left. split; [done |]. by apply Hsame. }
  clearbody best'.
  destruct (score_leb (score_min value v1) NegInf) eqn:Hcut.
  - apply returns_ret. simpl. split; [done |]. split.
    { intros m0 Hm0. apply (Hall _ (score_le_refl _) m0 Hm0).
      intros m' _. apply negb_true_iff in Hcut.
      destruct (score_min value v1); try done.
      apply score_le_NegInf. }
    exists best'. split; [done |].
    destruct Hbest' as [[-> Hb] | [-> Hb]]; [by left | right].
    split; [constructor |]. by rewrite Hchild.
  - apply negb_false_iff in Hcut.
    eapply returns_mono; [by apply IH |].
    intros [v mv] (Hv & Hrest & m0 & Hmv & Hm0). simpl in *.
    split; [by eapply score_le_trans |].
    split; [intros m' Hm'; by apply Hall |].
    exists m0. split; [done |].
    destruct Hm0 as [[-> ->] | [Hm0 Hvalue0]].
    + destruct Hbest' as [[-> Hb] | [-> Hb]]; [by left | right].
      split; [constructor |]. by rewrite Hchild.
    + right. split; [by constructor | done].
Qed.

Lemma minimax_best_move :
  no_timeout now start_time time_limit →
  ∀ depth b maximizingPlayer w,
    wf_board b → is_terminal_node b = Some false →
    returns (minimax now rand b (S depth) NegInf PosInf maximizingPlayer
               start_time time_limit version) w
      (λ r, ∃ m child,
         r.2 = Some m ∧ is_valid_move b m = Some true ∧
         make_move b m (if maximizingPlayer then AI_PIECE else HUMAN_PIECE)
         = Some child ∧
         game_value depth (negb maximizingPlayer) child = r.1).
Proof.
  intros Hclock depth b maximizingPlayer w Hwf Hterm. cbn [minimax].
  eapply returns_bind; [apply count_node_returns |]. intros _ w1 _.
  eapply returns_bind;
    [apply (time_time_returns now _
         (λ t, (time_limit <? t - start_time)%float = false));
     apply Hclock |].
  intros t w2 Ht. cbv beta in Ht.
  rewrite Ht.
  eapply returns_bind_lift; [done |].
  pose proof (get_valid_moves_filter b Hwf) as Hmoves.
  eapply returns_bind_lift; [done |].
  set (moves := filter _ _) in *.
  eapply returns_bind; [by apply ordered_moves_returns |].
  intros moves' w3 Hperm. cbv beta in Hperm.
  assert (Forall (λ m, is_valid_move b m = Some true) moves') as Hvalid.
  { rewrite Hperm. by apply valid_moves_Forall. }
  eapply returns_bind.
  { apply random_choice_returns. intros ->.
    apply Permutation_nil_l in Hperm. by eapply valid_moves_nonempty. }
  intros best w4 Hbest. cbv beta in Hbest.
  assert (∀ m piece, m ∈ moves' →
            ∃ child, make_move b m piece = Some child ∧
                     is_valid_move b m = Some true) as Hchildren.
  { intros m piece Hm. rewrite Forall_forall in Hvalid.
    destruct (make_move_valid b m piece Hwf (Hvalid m Hm))
      as (child & Hchild & _).
    exists child. split; [done |]. by apply Hvalid. }
  destruct maximizingPlayer; cbn [negb].
  - eapply returns_mono.
    + apply (max_loop_best _ (game_value depth false) b Hwf);
        [| done | done].
      intros child alpha' w' Hchild Halpha'.
      by apply minimax_sound.
    + intros [v mv] (_ & Hall & m & Hmv & Hm). simpl in *.
      destruct Hm as [[-> ->] | [Hm Hvalue]].
      * destruct (Hchildren best AI_PIECE Hbest) as (child & Hchild & Hv).
        exists best, child. split; [done |]. split; [done |].
        split; [done |].
        specialize (Hall best Hbest). rewrite Hchild in Hall.
        simpl in Hall. by destruct (game_value depth false child).
      * destruct (Hchildren m AI_PIECE Hm) as (child & Hchild & Hv).
        exists m, child. split; [done |]. split; [done |].
        split; [done |]. by rewrite Hchild in Hvalue.
  - eapply returns_mono.
    + apply (min_loop_best _ (game_value depth true) b Hwf);
        [| done | done].
      intros child beta' w' Hchild Hbeta'.
      by apply minimax_sound.
    + intros [v mv] (_ & Hall & m & Hmv & Hm). simpl in *.
      destruct Hm as [[-> ->] | [Hm Hvalue]].
      * destruct (Hchildren best HUMAN_PIECE Hbest)
          as (child & Hchild & Hv).
        exists best, child. split; [done |]. split; [done |].
        split; [done |].
        specialize (Hall best Hbest). rewrite Hchild in Hall.
        simpl in Hall. by destruct (game_value depth true child).
      * destruct (Hchildren m HUMAN_PIECE Hm) as (child & Hchild & Hv).
        exists m, child. split; [done |]. split; [done |].
        split; [done |]. by rewrite Hchild in Hvalue.
Qed.
End BestMove.

(** X15: the move of a search that is not cut short is a best move.  On a
    well-formed board that is not terminal, when the deadline is never
    reached, [minimax] at depth [depth + 1] with the full window returns
    the minimax value of the position together with a playable column, and
    the position after that move has that same minimax value at depth
    [depth] for the other side. *)
Theorem minimax_returns_best_move
    (now : nat → float) (rand : nat → nat)
    (start_time time_limit : float) (version : Z)
    (b : board) (depth : nat) (maximizingPlayer : bool) (w : world) :
  wf_board b → is_terminal_node b = Some false →
  no_timeout now start_time time_limit →
  ∃ m child w',
    minimax now rand b (S depth) NegInf PosInf maximizingPlayer
            start_time time_limit version w
    = Some ((game_value (S depth) maximizingPlayer b, Some m), w') ∧
    is_valid_move b m = Some true ∧
    make_move b m (if maximizingPlayer then AI_PIECE else HUMAN_PIECE)
    = Some child ∧
    game_value depth (negb maximizingPlayer) child
    = game_value (S depth) maximizingPlayer b.
Proof.
  intros Hwf Hterm Hclock.
  destruct (minimax_full_window now rand start_time time_limit version
              (S depth) b maximizingPlayer w Hclock Hwf)
    as (move & w' & Hrun).
  destruct (minimax_best_move now rand start_time time_limit version Hclock
              depth b maximizingPlayer w Hwf Hterm)
    as (r & w'' & Hrun' & m & child & Hmove & Hvalid & Hchild & Hvalue).
  rewrite Hrun in Hrun'. injection Hrun' as <- <-. simpl in *. subst move.
  by exists m, child, w'.
Qed.

Lemma minimax_returns_best_move_witness :
  (wf_board sample_board ∧ is_terminal_node sample_board = Some false ∧
   no_timeout frozen_clock 0 1) ∧
  ∃ m child w',
    minimax frozen_clock first_choice sample_board 3 NegInf PosInf true
            0 1 2 initial_world
    = Some ((game_value 3 true sample_board, Some m), w') ∧
    is_valid_move sample_board m = Some true ∧
    make_move sample_board m AI_PIECE = Some child ∧
    game_value 2 false child = game_value 3 true sample_board.
Proof.
  split.
  { split; [exact sample_board_wf |].
    split; [vm_compute; reflexivity | exact frozen_clock_no_timeout]. }
  apply (minimax_returns_best_move frozen_clock first_choice 0 1 2
           sample_board 2 true initial_world).
  - exact sample_board_wf.
  - vm_compute; reflexivity.
  - exact frozen_clock_no_timeout.
Defined.

(** ** Termination of the search and what it reports *)

Lemma returns_bind_eq {A B} (c : M A) (k : A → M B) w a w1
    (P : B → Prop) :
  c w = Some (a, w1) → returns (k a) w1 P → returns (bind c k) w P.
Proof.
  intros Hc (r & w' & Hr & HP). exists r, w'. split; [| done].
  unfold bind. by rewrite Hc.
Qed.

Lemma returns_bind_time {B} (now : nat → float) (k : float → M B) w
    (P : B → Prop) :
  returns (k (now (clock_reads w)))
          (mk_world (nodes_visited w) (max_depth_reached w)
                    (S (clock_reads w)) (random_draws w)) P →
  returns (bind (time_time now) k) w P.
Proof. by apply returns_bind_eq. Qed.

Section Totality.
#[local] Opaque check_win evaluate_board is_terminal_node get_valid_moves
  make_move order_moves leaf_result.

Context (now : nat → float) (rand : nat → nat).
Context (start_time time_limit : float) (version : Z).

Lemma max_loop_total search b beta :
  wf_board b →
  (∀ child alpha w, wf_board child →
     returns (search child alpha) w (λ _, True)) →
  ∀ moves value alpha best_move w,
    Forall (λ m, is_valid_move b m = Some true) moves →
    returns (max_loop search b moves value alpha beta best_move) w
            (λ _, True).
Proof.
  intros Hwf Hsearch.
  induction moves as [| m moves IH]; intros value alpha best_move w Hvalid.
  { by apply returns_ret. }
  apply Forall_cons in Hvalid as [Hm Hvalid].
  destruct (make_move_valid b m AI_PIECE Hwf Hm) as (child & Hchild & Hwf').
  cbn [max_loop]. eapply returns_bind_lift; [done |].
  eapply returns_bind; [by apply Hsearch |]. intros [v1 m1] w2 _.
  destruct (score_leb beta _); [by apply returns_ret | by apply IH].
Qed.

Lemma min_loop_total search b alpha :
  wf_board b →
  (∀ child beta w, wf_board child →
     returns (search child beta) w (λ _, True)) →
  ∀ moves value beta best_move w,
    Forall (λ m, is_valid_move b m = Some true) moves →
    returns (min_loop search b moves value alpha beta best_move) w
            (λ _, True).
Proof.
  intros Hwf Hsearch.
  induction moves as [| m moves IH]; intros value beta best_move w Hvalid.
  { by apply returns_ret. }
  apply Forall_cons in Hvalid as [Hm Hvalid].
  destruct (make_move_valid b m HUMAN_PIECE Hwf Hm)
    as (child & Hchild & Hwf').
  cbn [min_loop]. eapply returns_bind_lift; [done |].
  eapply returns_bind; [by apply Hsearch |]. intros [v1 m1] w2 _.
  destruct (score_leb _ alpha); [by apply returns_ret | by apply IH].
Qed.

(** On a well-formed board [minimax] returns, whatever the clock. *)
Lemma minimax_total :
  ∀ depth b alpha beta maximizingPlayer w,
    wf_board b →
    returns (minimax now rand b depth alpha beta maximizingPlayer
                     start_time time_limit version) w (λ _, True).
Proof.
  induction depth as [| depth IH];
    intros b alpha beta maximizingPlayer w Hwf; cbn [minimax].
  - eapply returns_bind; [apply count_node_returns |]. intros _ w1 _.
    eapply returns_bind; [by apply (time_time_returns now _ (λ _, True)) |].
    intros t w2 _.
    destruct (evaluate_board_is_Some b AI_PIECE Hwf) as [s Hs].
    destruct (_ <? _)%float.
    + eapply returns_bind_lift; [done |]. by apply returns_ret.
    + eapply returns_mono; [by apply leaf_result_returns | done].
  - eapply returns_bind; [apply count_node_returns |]. intros _ w1 _.
    eapply returns_bind; [by apply (time_time_returns now _ (λ _, True)) |].
    intros t w2 _.
    destruct (evaluate_board_is_Some b AI_PIECE Hwf) as [s Hs].
    destruct (_ <? _)%float.
    { eapply returns_bind_lift; [done |]. by apply returns_ret. }
    destruct (is_terminal_node_is_Some b Hwf) as [terminal Hterm].
    eapply returns_bind_lift; [done |].
    destruct terminal.
    { eapply returns_mono; [by apply leaf_result_returns | done]. }
    pose proof (get_valid_moves_filter b Hwf) as Hmoves.
    eapply returns_bind_lift; [done |].
    set (moves := filter _ _) in *.
    eapply returns_bind; [by apply ordered_moves_returns |].
    intros moves' w3 Hperm. cbv beta in Hperm.
    assert (Forall (λ m, is_valid_move b m = Some true) moves') as Hvalid.
    { rewrite Hperm. by apply valid_moves_Forall. }
    eapply returns_bind.
    { apply random_choice_returns. intros ->.
      apply Permutation_nil_l in Hperm. by eapply valid_moves_nonempty. }
    intros best_move w4 _.
    destruct maximizingPlayer.
    + apply max_loop_total; [done | | done].
      intros child alpha' w' Hchild. by apply IH.
    + apply min_loop_total; [done | | done].
      intros child beta' w' Hchild. by apply IH.
Qed.

Lemma get_ai_move_loop_terminates b (N : nat) :
  wf_board b →
  (∀ k, (N ≤ k)%nat →
        deadline_passed now start_time time_limit k = true) →
  ∀ fuel depth best_move w,
    (N < clock_reads w + fuel)%nat → (0 < fuel)%nat →
    returns (get_ai_move_loop now rand fuel b version start_time time_limit
               depth best_move) w
            (λ r, is_Some r).
Proof.
  intros Hwf Hlate.
  induction fuel as [| fuel IH]; intros depth best_move w HN Hfuel; [lia |].
  cbn [get_ai_move_loop]. apply returns_bind_time.
  fold (deadline_passed now start_time time_limit (clock_reads w)).
  destruct (deadline_passed now start_time time_limit (clock_reads w))
    eqn:Hin.
  { by apply returns_ret. }
  assert (clock_reads w < N)%nat as Hw.
  { destruct (Nat.lt_ge_cases (clock_reads w) N) as [? | Hge]; [done |].
    apply Hlate in Hge. congruence. }
  destruct (minimax_total depth b NegInf PosInf true
              (mk_world (nodes_visited w) (max_depth_reached w)
                        (S (clock_reads w)) (random_draws w)) Hwf)
    as ([s move] & w2 & Hcall & _).
  pose proof (minimax_clock _ _ _ _ _ _ _ _ _ _ _ _ _ Hcall) as Hclock.
  cbn [clock_reads] in Hclock.
  eapply returns_bind_eq; [exact Hcall |]. apply returns_bind_time.
  apply IH; cbn [clock_reads]; lia.
Qed.

Lemma get_ai_move_loop_runs_on b :
  wf_board b →
  no_timeout now start_time time_limit →
  ∀ fuel depth best_move w,
    returns (get_ai_move_loop now rand fuel b version start_time time_limit
               depth best_move) w
            (λ r, r = None).
Proof.
  intros Hwf Hclock.
  induction fuel as [| fuel IH]; intros depth best_move w.
  { by apply returns_ret. }
  cbn [get_ai_move_loop]. apply returns_bind_time.
  fold (deadline_passed now start_time time_limit (clock_reads w)).
  rewrite Hclock.
  eapply returns_bind; [by apply minimax_total |]. intros [s move] w2 _.
  apply returns_bind_time. apply IH.
Qed.
End Totality.

(** X16: [get_ai_move] returns once the deadline test stays true.  On a
    well-formed board, if the test
    [time.time() - start_time > time_limit], with the rounded float
    difference the code computes, is true on every reading of the clock
    from the [N]-th on, the [while True] loop ends within [N + 1]
    iterations and [get_ai_move] returns its four results, whatever the
    version and the random draws. *)
Theorem get_ai_move_terminates
    (now : nat → float) (rand : nat → nat) (b : board) (version : Z)
    (time_limit : float) (w : world) (N fuel : nat) :
  wf_board b →
  (∀ k, (N ≤ k)%nat →
        deadline_passed now (now (clock_reads w)) time_limit k = true) →
  (N < fuel)%nat →
  ∃ best_move nodes deepest total w',
    get_ai_move now rand fuel b version time_limit w
    = Some (Some (best_move, nodes, deepest, total), w').
Proof.
  intros Hwf Hlate Hfuel.
  destruct (get_ai_move_loop_terminates now rand (now (clock_reads w))
              time_limit version b N Hwf Hlate fuel 1 None
              (mk_world 0 0 (S (clock_reads w)) (random_draws w)))
    as (r & w1 & Hloop & [best_move ->]); cbn [clock_reads]; [lia | lia |].
  unfold get_ai_move, bind, time_time, reset_counters, get_counters, ret.
  cbn [clock_reads random_draws]. rewrite Hloop.
  by eexists best_move, _, _, _, _.
Qed.

Lemma step_clock_passed n k :
  (n ≤ k)%nat → deadline_passed (step_clock n) 0 1 k = true.
Proof.
  intros Hk. unfold deadline_passed, step_clock.
  by destruct (Nat.ltb_spec k n); [lia |].
Qed.

Lemma get_ai_move_terminates_witness :
  (wf_board sample_board ∧
   (∀ k, (9 ≤ k)%nat →
      deadline_passed (step_clock 9)
        (step_clock 9 (clock_reads initial_world)) 1 k = true) ∧
   (9 < 10)%nat) ∧
  ∃ best_move nodes deepest total w',
    get_ai_move (step_clock 9) first_choice 10 sample_board 2 1
                initial_world
    = Some (Some (best_move, nodes, deepest, total), w').
Proof.
  split.
  { split; [exact sample_board_wf |].
    split; [exact (step_clock_passed 9) | lia]. }
  apply (get_ai_move_terminates (step_clock 9) first_choice sample_board 2 1
           initial_world 9 10).
  - exact sample_board_wf.
  - exact (step_clock_passed 9).
  - lia.
Defined.

(** The hypothesis reads the test of the code, not the exact difference of
    the readings: with a start at [0.1] and every later reading [1.1], the
    exact difference is more than 1 but the float difference is 1, the
    deadline test is never true, and the loop does not end. *)
Example get_ai_move_rounded_deadline :
  no_timeout (λ k, if k is O then float_0_1 else float_1_1) float_0_1 1 ∧
  get_ai_move (λ k, if k is O then float_0_1 else float_1_1) first_choice 2
              sample_board 1 1 initial_world
  = Some (None, mk_world 29 2 34 7).
Proof.
  split; [by intros [| k] |]. vm_compute; reflexivity.
Qed.

(** X17: the clock is the only way out of the loop of [get_ai_move].  On
    a well-formed board, if the deadline test
    [time.time() - start_time > time_limit] is false on every reading of
    the clock, no number of iterations makes [get_ai_move] return: every
    bound on the iterations is used up. *)
Theorem get_ai_move_needs_the_clock
    (now : nat → float) (rand : nat → nat) (b : board) (version : Z)
    (time_limit : float) (w : world) (fuel : nat) :
  wf_board b →
  no_timeout now (now (clock_reads w)) time_limit →
  ∃ w', get_ai_move now rand fuel b version time_limit w = Some (None, w').
Proof.
  intros Hwf Hclock.
  destruct (get_ai_move_loop_runs_on now rand (now (clock_reads w))
              time_limit version b Hwf Hclock fuel 1 None
              (mk_world 0 0 (S (clock_reads w)) (random_draws w)))
    as (r & w1 & Hloop & ->).
  unfold get_ai_move, bind, time_time, reset_counters, ret.
  cbn [clock_reads random_draws]. rewrite Hloop.
  by eexists.
Qed.

Lemma get_ai_move_needs_the_clock_witness :
  (wf_board sample_board ∧
   no_timeout frozen_clock (frozen_clock (clock_reads initial_world)) 1) ∧
  ∃ w', get_ai_move frozen_clock first_choice 3 sample_board 1 1
          initial_world = Some (None, w').
Proof.
  split; [split; [exact sample_board_wf | exact frozen_clock_no_timeout] |].
  apply (get_ai_move_needs_the_clock frozen_clock first_choice sample_board
           1 1 initial_world 3).
  - exact sample_board_wf.
  - exact frozen_clock_no_timeout.
Defined.

(** ** The counters and the reported time *)

Section Counters.
#[local] Opaque check_win evaluate_board is_terminal_node get_valid_moves
  make_move order_moves.

Context (now : nat → float) (rand : nat → nat).

Lemma max_loop_counters (d : nat) search b beta moves :
  (∀ child alpha w r w',
     search child alpha w = Some (r, w') →
     ((d ≤ max_depth_reached w)%nat →
      max_depth_reached w' = max_depth_reached w) ∧
     (nodes_visited w ≤ nodes_visited w')%nat) →
  ∀ value alpha best_move w r w',
    max_loop search b moves value alpha beta best_move w = Some (r, w') →
    ((d ≤ max_depth_reached w)%nat →
     max_depth_reached w' = max_depth_reached w) ∧
    (nodes_visited w ≤ nodes_visited w')%nat.
Proof.
  intros Hsearch.
  induction moves as [| m moves IH];
    intros value alpha best_move w r w' Hrun; cbn [max_loop] in Hrun.
  { by injection Hrun as _ <-. }
  apply bind_Some_inv in Hrun as (child & w1 & Hchild & Hrun).
  apply lift_Some_inv in Hchild as [_ ->].
  apply bind_Some_inv in Hrun as ([new_score m'] & w2 & Hcall & Hrun).
  apply Hsearch in Hcall as [Hdepth Hnodes].
  destruct (score_leb beta _).
  - injection Hrun as _ <-. done.
  - apply IH in Hrun as [Hdepth' Hnodes']. split; [| lia].
    intros Hd. rewrite Hdepth', Hdepth; [done | done | ].
    by rewrite Hdepth.
Qed.

Lemma min_loop_counters (d : nat) search b alpha moves :
  (∀ child beta w r w',
     search child beta w = Some (r, w') →
     ((d ≤ max_depth_reached w)%nat →
      max_depth_reached w' = max_depth_reached w) ∧
     (nodes_visited w ≤ nodes_visited w')%nat) →
  ∀ value beta best_move w r w',
    min_loop search b moves value alpha beta best_move w = Some (r, w') →
    ((d ≤ max_depth_reached w)%nat →
     max_depth_reached w' = max_depth_reached w) ∧
    (nodes_visited w ≤ nodes_visited w')%nat.
Proof.
  intros Hsearch.
  induction moves as [| m moves IH];
    intros value beta best_move w r w' Hrun; cbn [min_loop] in Hrun.
  { by injection Hrun as _ <-. }
  apply bind_Some_inv in Hrun as (child & w1 & Hchild & Hrun).
  apply lift_Some_inv in Hchild as [_ ->].
  apply bind_Some_inv in Hrun as ([new_score m'] & w2 & Hcall & Hrun).
  apply Hsearch in Hcall as [Hdepth Hnodes].
  destruct (score_leb _ alpha).
  - injection Hrun as _ <-. done.
  - apply IH in Hrun as [Hdepth' Hnodes']. split; [| lia].
    intros Hd. rewrite Hdepth', Hdepth; [done | done | ].
    by rewrite Hdepth.
Qed.

(** A call of [minimax] at depth [depth] counts at least one node and
    raises [max_depth_reached] to [depth] if it was lower. *)
Lemma minimax_counters start_time time_limit version depth :
  ∀ b alpha beta maximizingPlayer w r w',
    minimax now rand b depth alpha beta maximizingPlayer
            start_time time_limit version w = Some (r, w') →
    max_depth_reached w' = Nat.max (max_depth_reached w) depth ∧
    (nodes_visited w < nodes_visited w')%nat.
Proof.
  induction depth as [| depth IH];
    intros b alpha beta maximizingPlayer w r w' Hrun; cbn [minimax] in Hrun.
  - apply bind_Some_inv in Hrun as ([] & w1 & Hcount & Hrun).
    injection Hcount as <-.
    apply bind_Some_inv in Hrun as (t & w2 & Htime & Hrun).
    injection Htime as <- <-.
    destruct (_ <? _)%float.
    + apply bind_Some_inv in Hrun as (s & w3 & Hs & Hrun).
      apply lift_Some_inv in Hs as [_ ->].
      injection Hrun as _ <-. simpl. lia.
    + apply leaf_result_clock in Hrun as ->. simpl. lia.
  - apply bind_Some_inv in Hrun as ([] & w1 & Hcount & Hrun).
    injection Hcount as <-.
    apply bind_Some_inv in Hrun as (t & w2 & Htime & Hrun).
    injection Htime as <- <-.
    destruct (_ <? _)%float.
    { apply bind_Some_inv in Hrun as (s & w3 & Hs & Hrun).
      apply lift_Some_inv in Hs as [_ ->].
      injection Hrun as _ <-. simpl. lia. }
    apply bind_Some_inv in Hrun as (terminal & w3 & Hterm & Hrun).
    apply lift_Some_inv in Hterm as [_ ->].
    destruct terminal.
    { apply leaf_result_clock in Hrun as ->. simpl. lia. }
    apply bind_Some_inv in Hrun as (moves & w4 & Hmoves & Hrun).
    apply lift_Some_inv in Hmoves as [_ ->].
    apply bind_Some_inv in Hrun as (moves' & w5 & Hmoves' & Hrun).
    assert (w5 = mk_world (S (nodes_visited w))
              (Nat.max (max_depth_reached w) (S depth))
              (S (clock_reads w)) (random_draws w)) as ->.
    { destruct (version =? 2).
      - by apply lift_Some_inv in Hmoves' as [_ ->].
      - by injection Hmoves' as _ <-. }
    apply bind_Some_inv in Hrun as (best_move & w6 & Hbest & Hrun).
    assert (max_depth_reached w6 = Nat.max (max_depth_reached w) (S depth) ∧
            nodes_visited w6 = S (nodes_visited w)) as [Hdepth6 Hnodes6].
    { unfold random_choice in Hbest. destruct (_ !! _); [| done].
      by injection Hbest as _ <-. }
    assert (((depth ≤ max_depth_reached w6)%nat →
             max_depth_reached w' = max_depth_reached w6) ∧
            (nodes_visited w6 ≤ nodes_visited w')%nat) as [Hdepth Hnodes].
    { destruct maximizingPlayer.
      - eapply (max_loop_counters depth); [| exact Hrun].
        intros child alpha' w7 r' w8 Hcall. apply IH in Hcall. lia.
      - eapply (min_loop_counters depth); [| exact Hrun].
        intros child beta' w7 r' w8 Hcall. apply IH in Hcall. lia. }
    split; [| lia]. rewrite Hdepth; lia.
Qed.

Lemma get_ai_move_loop_report b version start_time time_limit fuel :
  ∀ depth best_move w r w',
    depth = S (max_depth_reached w) →
    (max_depth_reached w ≤ nodes_visited w)%nat →
    (is_Some best_move → (1 ≤ max_depth_reached w)%nat) →
    get_ai_move_loop now rand fuel b version start_time time_limit
                     depth best_move w = Some (Some r, w') →
    (max_depth_reached w' ≤ nodes_visited w')%nat ∧
    (is_Some r → (1 ≤ max_depth_reached w')%nat) ∧
    ∃ k, clock_reads w' = S k ∧
         deadline_passed now start_time time_limit k = true.
Proof.
  induction fuel as [| fuel IH];
    intros depth best_move w r w' Hdepth Hnodes Hbest Hrun;
    cbn [get_ai_move_loop] in Hrun; [done |].
  apply bind_Some_inv in Hrun as (t & w1 & Htime & Hrun).
  injection Htime as <- <-.
  fold (deadline_passed now start_time time_limit (clock_reads w)) in Hrun.
  destruct (deadline_passed now start_time time_limit (clock_reads w))
    eqn:Hout.
  { injection Hrun as <- <-. cbn [max_depth_reached nodes_visited clock_reads].
    split; [done |]. split; [done |]. by exists (clock_reads w). }
  apply bind_Some_inv in Hrun as ([s move] & w2 & Hcall & Hrun).
  apply minimax_counters in Hcall as [Hdepth2 Hnodes2].
  cbn [max_depth_reached nodes_visited] in Hdepth2, Hnodes2.
  apply bind_Some_inv in Hrun as (t' & w3 & Htime & Hrun).
  injection Htime as <- <-.
  eapply IH; [| | | exact Hrun]; cbn [max_depth_reached nodes_visited].
  - lia.
  - lia.
  - intros _. lia.
Qed.
End Counters.

(** X18: what [get_ai_move] reports.  With a clock that does not run
    back across the deadline, the time it reports is always more than
    [time_limit] (in the comparison of floats that the code uses); the
    depth it reports is at most the number of nodes it reports; and when it
    returns a move, the reported depth is at least 1. *)
Theorem get_ai_move_report
    (now : nat → float) (rand : nat → nat) (fuel : nat) (b : board)
    (version : Z) (time_limit : float) (w w' : world)
    (best_move : option Z) (nodes deepest : nat) (total : float) :
  deadline_stays_passed now (now (clock_reads w)) time_limit →
  get_ai_move now rand fuel b version time_limit w
  = Some (Some (best_move, nodes, deepest, total), w') →
  (time_limit <? total)%float = true ∧ (deepest ≤ nodes)%nat ∧
  (is_Some best_move → (1 ≤ deepest)%nat).
Proof.
  intros Hmono Hrun. unfold get_ai_move in Hrun.
  apply bind_Some_inv in Hrun as (start_time & w0 & Htime & Hrun).
  injection Htime as <- <-.
  apply bind_Some_inv in Hrun as ([] & w1 & Hreset & Hrun).
  injection Hreset as <-.
  apply bind_Some_inv in Hrun as (res & w2 & Hloop & Hrun).
  destruct res as [r |]; [| by injection Hrun].
  apply get_ai_move_loop_report in Hloop
    as (Hnodes & Hbest & k & Hk & Hlate);
    [| done | cbn [max_depth_reached nodes_visited]; lia
     | by intros [? ?]].
  apply bind_Some_inv in Hrun as (t & w3 & Htime & Hrun).
  injection Htime as <- <-.
  apply bind_Some_inv in Hrun as ([n d] & w4 & Hcount & Hrun).
  injection Hcount as <- <- <-.
  cbn [nodes_visited max_depth_reached] in Hrun.
  injection Hrun as <- <- <- <- _.
  split; [| done].
  apply (Hmono k (clock_reads w2)); [lia | done].
Qed.

Lemma get_ai_move_report_witness :
  (deadline_stays_passed (step_clock 9)
     (step_clock 9 (clock_reads initial_world)) 1 ∧
   get_ai_move (step_clock 9) first_choice 3 sample_board 1 1 initial_world
   = Some (Some (Some 2, 6%nat, 1%nat, 100%float), mk_world 6 1 11 1)) ∧
  (1 <? 100)%float = true ∧ (1 ≤ 6)%nat ∧
  (is_Some (Some 2) → (1 ≤ 1)%nat).
Proof.
  split.
  { split; [exact (step_clock_stays_passed 9) | vm_compute; reflexivity]. }
  apply (get_ai_move_report (step_clock 9) first_choice 3 sample_board 1 1
           initial_world (mk_world 6 1 11 1) (Some 2) 6%nat 1%nat 100).
  - exact (step_clock_stays_passed 9).
  - vm_compute; reflexivity.
Defined.

(** ** Left and right are treated alike *)

Lemma list_length_5 (r : list Z) :
  length r = 5%nat → ∃ a b c d e, r = [a; b; c; d; e].
Proof.
  destruct r as [| a [| b [| c [| d [| e [| f r]]]]]]; try done.
  intros _. by exists a, b, c, d, e.
Qed.

Lemma wf_board_rows (b : board) :
  wf_board b →
  ∃ r0 r1 r2 r3 r4 r5,
    b = [r0; r1; r2; r3; r4; r5] ∧
    Forall (λ r, length r = 5%nat) [r0; r1; r2; r3; r4; r5].
Proof.
  intros [Hlen Hrows].
  destruct b as [| r0 [| r1 [| r2 [| r3 [| r4 [| r5 [| r6 b]]]]]]];
    try done.
  by exists r0, r1, r2, r3, r4, r5.
Qed.

Ltac board_cells b Hwf :=
  let Hrows := fresh "Hrows" in
  destruct (wf_board_rows b Hwf) as (? & ? & ? & ? & ? & ? & -> & Hrows);
  repeat (apply Forall_cons in Hrows as [?%list_length_5 Hrows]);
  clear Hrows;
  repeat match goal with
         | H : ∃ _, _ |- _ => destruct H as (? & ? & ? & ? & ? & ->)
         end.

Lemma py_count_rev4 a b c d piece :
  py_count [a; b; c; d] piece = py_count [d; c; b; a] piece.
Proof.
  unfold py_count. f_equal. simpl.
  destruct (Z.eq_dec a piece), (Z.eq_dec b piece), (Z.eq_dec c piece),
    (Z.eq_dec d piece); done.
Qed.

Lemma evaluate_window_rev4 a b c d piece :
  evaluate_window [a; b; c; d] piece = evaluate_window [d; c; b; a] piece.
Proof.
  unfold evaluate_window. by rewrite !(py_count_rev4 a b c d).
Qed.

Ltac index_cases H :=
  repeat (apply elem_of_cons in H as [-> | H]);
  [.. | by apply elem_of_nil in H].

Lemma cell_mirror b row col :
  wf_board b → 0 ≤ row < ROWS → 0 ≤ col < COLS →
  cell (mirror b) row col = cell b row (COLS - 1 - col).
Proof.
  intros Hwf Hrow Hcol. board_cells b Hwf. unfold ROWS, COLS in *.
  assert (row ∈ [0; 1; 2; 3; 4; 5]) as Hr by (rewrite !elem_of_cons; lia).
  assert (col ∈ [0; 1; 2; 3; 4]) as Hc by (rewrite !elem_of_cons; lia).
  clear Hrow Hcol. index_cases Hr; index_cases Hc; reflexivity.
Qed.

Lemma wf_mirror b : wf_board b → wf_board (mirror b).
Proof.
  intros [Hlen Hrows]. unfold mirror. split.
  - by rewrite length_fmap.
  - apply Forall_fmap. eapply Forall_impl; [done |].
    intros r Hr. simpl. by rewrite length_reverse.
Qed.

Lemma mirror_involutive b : mirror (mirror b) = b.
Proof.
  unfold mirror. induction b as [| r b IH]; [done |].
  rewrite !fmap_cons, reverse_involutive. by f_equal.
Qed.

Lemma place_mirror b row col piece :
  wf_board b → 0 ≤ row < ROWS → 0 ≤ col < COLS →
  place (mirror b) (Z.to_nat row) (Z.to_nat (COLS - 1 - col)) piece
  = mirror (place b (Z.to_nat row) (Z.to_nat col) piece).
Proof.
  intros Hwf Hrow Hcol. board_cells b Hwf. unfold ROWS, COLS in *.
  assert (row ∈ [0; 1; 2; 3; 4; 5]) as Hr by (rewrite !elem_of_cons; lia).
  assert (col ∈ [0; 1; 2; 3; 4]) as Hc by (rewrite !elem_of_cons; lia).
  clear Hrow Hcol. index_cases Hr; index_cases Hc; reflexivity.
Qed.

Section Mirror.
#[local] Arguments evaluate_window : simpl never.
#[local] Arguments py_count : simpl never.

Lemma evaluate_board_mirror b piece :
  wf_board b → evaluate_board (mirror b) piece = evaluate_board b piece.
Proof.
  intros Hwf. board_cells b Hwf. clear Hwf.
  unfold evaluate_board, mirror, column_array, diag_window.
  simpl.
  repeat match goal with
         | |- context [py_slice ?l ?lo ?hi] =>
             let v := eval cbv in (py_slice l lo hi) in
             change (py_slice l lo hi) with v
         end.
  repeat match goal with
         | |- context [py_count (?x :: ?l) ?p] =>
             generalize (py_count (x :: l) p); intros ?
         end.
  repeat match goal with
         | |- _ = Some ?R =>
             match R with
             | context [evaluate_window [?a; ?b; ?c; ?d] ?p] =>
                 try rewrite (evaluate_window_rev4 d c b a p);
                 generalize (evaluate_window [a; b; c; d] p); intros ?
             end
         end.
  f_equal. lia.
Qed.
End Mirror.

Lemma four_in_a_row_mirror b piece :
  wf_board b → four_in_a_row b piece → four_in_a_row (mirror b) piece.
Proof.
  intros Hwf (row & col & dr & dc & Hdir & Hall).
  assert (∀ r c, 0 ≤ r < ROWS → 0 ≤ c < COLS → cell b r c = Some piece →
                 cell (mirror b) r (COLS - 1 - c) = Some piece) as Hcell.
  { intros r c Hr Hc Hp. rewrite cell_mirror by (done || lia).
    by replace (COLS - 1 - (COLS - 1 - c)) with c by lia. }
  unfold directions in Hdir.
  repeat (apply elem_of_cons in Hdir as [[= -> ->] | Hdir]);
    [| | | | by apply elem_of_nil in Hdir].
  - exists row, (COLS - 1 - (col + 3)), 0, 1.
    split; [by repeat constructor |]. intros i Hi.
    destruct (Hall (3 - i)) as (Hr & Hc & Hp); [lia |].
    split; [lia |]. split; [lia |].
    replace (row + i * 0) with (row + (3 - i) * 0) by lia.
    replace (COLS - 1 - (col + 3) + i * 1)
      with (COLS - 1 - (col + (3 - i) * 1)) by lia.
    by apply Hcell.
  - exists row, (COLS - 1 - col), 1, 0.
    split; [by repeat constructor |]. intros i Hi.
    destruct (Hall i) as (Hr & Hc & Hp); [lia |].
    split; [lia |]. split; [lia |].
    replace (COLS - 1 - col + i * 0) with (COLS - 1 - (col + i * 0)) by lia.
    by apply Hcell.
  - exists (row + 3), (COLS - 1 - (col + 3)), (-1), 1.
    split; [by repeat constructor |]. intros i Hi.
    destruct (Hall (3 - i)) as (Hr & Hc & Hp); [lia |].
    split; [lia |]. split; [lia |].
    replace (row + 3 + i * -1) with (row + (3 - i) * 1) by lia.
    replace (COLS - 1 - (col + 3) + i * 1)
      with (COLS - 1 - (col + (3 - i) * 1)) by lia.
    by apply Hcell.
  - exists (row - 3), (COLS - 1 - (col + 3)), 1, 1.
    split; [by repeat constructor |]. intros i Hi.
    destruct (Hall (3 - i)) as (Hr & Hc & Hp); [lia |].
    split; [lia |]. split; [lia |].
    replace (row - 3 + i * 1) with (row + (3 - i) * -1) by lia.
    replace (COLS - 1 - (col + 3) + i * 1)
      with (COLS - 1 - (col + (3 - i) * 1)) by lia.
    by apply Hcell.
Qed.

Lemma check_win_mirror b piece :
  wf_board b → check_win (mirror b) piece = check_win b piece.
Proof.
  intros Hwf. pose proof (wf_mirror b Hwf) as Hwf'.
  destruct (check_win_is_Some b piece Hwf) as [v Hv].
  destruct (check_win_is_Some (mirror b) piece Hwf') as [v' Hv'].
  rewrite Hv, Hv'. destruct v, v'; try done; exfalso.
  - apply check_win_lines, four_in_a_row_mirror, check_win_lines in Hv;
      [congruence | done .. ].
  - apply check_win_lines, four_in_a_row_mirror, check_win_lines in Hv';
      rewrite ?mirror_involutive in *; [congruence | done .. ].
Qed.

Lemma is_valid_move_mirror b col :
  wf_board b → 0 ≤ col < COLS →
  is_valid_move (mirror b) col = is_valid_move b (COLS - 1 - col).
Proof.
  intros Hwf Hcol. unfold is_valid_move.
  by rewrite cell_mirror by (done || unfold ROWS; lia).
Qed.

Lemma check_tie_mirror b :
  wf_board b → check_tie (mirror b) = check_tie b.
Proof.
  intros Hwf. pose proof (wf_mirror b Hwf) as Hwf'.
  destruct (check_tie_spec b Hwf) as (t & Htie & _ & Hiff).
  destruct (check_tie_spec (mirror b) Hwf') as (t' & Htie' & _ & Hiff').
  rewrite Htie, Htie'. f_equal.
  assert (∀ col, 0 ≤ col < COLS →
            occupied (mirror b) 0 col ↔ occupied b 0 (COLS - 1 - col))
    as Hocc.
  { intros col Hcol. unfold occupied.
    by rewrite cell_mirror by (done || unfold ROWS; lia). }
  assert (t' = true ↔ t = true) as Htt.
  { rewrite Hiff, Hiff'. split; intros Hall col Hcol.
    - replace col with (COLS - 1 - (COLS - 1 - col)) by lia.
      apply Hocc, Hall; lia.
    - apply Hocc; [done |]. apply Hall. lia. }
  destruct Htt as [Ht1 Ht2].
  destruct t, t'; try done; exfalso;
    first [by specialize (Ht1 eq_refl) | by specialize (Ht2 eq_refl)].
Qed.

Lemma is_terminal_node_mirror b :
  wf_board b → is_terminal_node (mirror b) = is_terminal_node b.
Proof.
  intros Hwf. unfold is_terminal_node.
  by rewrite !check_win_mirror, check_tie_mirror.
Qed.

Lemma get_valid_moves_mirror b :
  wf_board b →
  ∃ moves moves',
    get_valid_moves b = Some moves ∧
    get_valid_moves (mirror b) = Some moves' ∧
    moves' ≡ₚ (λ col, COLS - 1 - col) <$> moves.
Proof.
  intros Hwf. pose proof (wf_mirror b Hwf) as Hwf'.
  eexists _, _. split; [by apply get_valid_moves_filter |].
  split; [by apply get_valid_moves_filter |].
  apply NoDup_Permutation.
  - apply NoDup_filter, NoDup_seqZ.
  - apply NoDup_fmap_2; [intros x y; lia |].
    apply NoDup_filter, NoDup_seqZ.
  - intros col. rewrite list_elem_of_fmap.
    setoid_rewrite list_elem_of_filter. rewrite !py_range_elem. split.
    + intros [Hvalid Hcol]. exists (COLS - 1 - col).
      rewrite <- is_valid_move_mirror by done.
      split; [lia |]. split; [done |]. rewrite py_range_elem. lia.
    + intros (c & -> & Hvalid & Hc%py_range_elem).
      rewrite is_valid_move_mirror by (done || lia).
      replace (COLS - 1 - (COLS - 1 - c)) with c by lia.
      split; [done | lia].
Qed.

Lemma landing_row_mirror b col :
  wf_board b → 0 ≤ col < COLS →
  landing_row (mirror b) (COLS - 1 - col) = landing_row b col.
Proof.
  intros Hwf Hcol. unfold landing_row. f_equal. apply list_find_ext_in.
  intros row Hrow%rows_from_bottom_elem.
  rewrite cell_mirror by (done || lia).
  by replace (COLS - 1 - (COLS - 1 - col)) with col by lia.
Qed.

Lemma make_move_mirror b col piece :
  wf_board b → 0 ≤ col < COLS →
  make_move (mirror b) (COLS - 1 - col) piece
  = mirror <$> make_move b col piece.
Proof.
  intros Hwf Hcol. pose proof (wf_mirror b Hwf) as Hwf'.
  rewrite !make_move_place by (done || lia).
  rewrite landing_row_mirror by done. simpl. f_equal.
  destruct (landing_row b col) as [row |] eqn:Hland; [| done].
  apply landing_row_Some in Hland as (Hrow & _ & _).
  rewrite !Z.mod_small by lia. by apply place_mirror.
Qed.

Lemma static_value_mirror b :
  wf_board b → static_value (mirror b) = static_value b.
Proof.
  intros Hwf. unfold static_value.
  by rewrite !check_win_mirror, evaluate_board_mirror.
Qed.

Lemma game_value_mirror depth :
  ∀ maximizingPlayer b,
    wf_board b →
    game_value depth maximizingPlayer (mirror b)
    = game_value depth maximizingPlayer b.
Proof.
  induction depth as [| depth IH]; intros maximizingPlayer b Hwf;
    cbn [game_value].
  { by apply static_value_mirror. }
  rewrite is_terminal_node_mirror, static_value_mirror by done.
  destruct (default true (is_terminal_node b)); [done |].
  destruct (get_valid_moves_mirror b Hwf)
    as (moves & moves' & Hmoves & Hmoves' & Hperm).
  rewrite Hmoves, Hmoves'. cbn [default].
  assert (∀ piece,
            (λ move, game_value depth (negb maximizingPlayer)
                       (default (mirror b)
                          (make_move (mirror b) move piece))) <$> moves'
            ≡ₚ (λ move, game_value depth (negb maximizingPlayer)
                          (default b (make_move b move piece))) <$> moves)
    as Hchildren.
  { intros piece. rewrite Hperm, <- list_fmap_compose.
    match goal with |- ?l ≡ₚ ?r => assert (l = r) as ->; [| done] end.
    apply list_eq_Forall2, Forall2_fmap, Forall_Forall2_diag, Forall_forall.
    intros move Hmove. simpl.
    apply (get_valid_moves_elem b moves move Hwf Hmoves) in Hmove
      as [Hrange Hvalid].
    rewrite make_move_mirror by done.
    destruct (make_move_valid b move piece Hwf Hvalid)
      as (child & -> & Hwf'). simpl. by apply IH. }
  destruct maximizingPlayer.
  - by apply foldr_score_max_perm.
  - by apply foldr_score_min_perm.
Qed.

(** X19: the evaluator has no left or right bias: on a well-formed board
    [evaluate_board] gives the mirrored board the same score, for every
    piece. *)
Theorem evaluate_board_mirror_symmetric (b : board) (piece : Z) :
  wf_board b → evaluate_board (mirror b) piece = evaluate_board b piece.
Proof. apply evaluate_board_mirror. Qed.

Lemma evaluate_board_mirror_symmetric_witness :
  wf_board sample_board ∧
  evaluate_board (mirror sample_board) AI_PIECE
  = evaluate_board sample_board AI_PIECE.
Proof.
  split; [exact sample_board_wf |].
  apply (evaluate_board_mirror_symmetric sample_board AI_PIECE).
  exact sample_board_wf.
Defined.

(** X20: on a well-formed board [check_win], [check_tie] and
    [is_terminal_node] answer for the mirrored board what they answer for
    the board. *)
Theorem game_over_mirror_symmetric (b : board) (piece : Z) :
  wf_board b →
  check_win (mirror b) piece = check_win b piece ∧
  check_tie (mirror b) = check_tie b ∧
  is_terminal_node (mirror b) = is_terminal_node b.
Proof.
  intros Hwf. split; [by apply check_win_mirror |].
  split; [by apply check_tie_mirror | by apply is_terminal_node_mirror].
Qed.

Lemma game_over_mirror_symmetric_witness :
  wf_board human_won_board ∧
  check_win (mirror human_won_board) HUMAN_PIECE
  = check_win human_won_board HUMAN_PIECE ∧
  check_tie (mirror human_won_board) = check_tie human_won_board ∧
  is_terminal_node (mirror human_won_board)
  = is_terminal_node human_won_board.
Proof.
  assert (wf_board human_won_board) as Hwf by (by apply wf_boardb_true).
  split; [exact Hwf |].
  apply (game_over_mirror_symmetric human_won_board HUMAN_PIECE).
  exact Hwf.
Defined.

(** X21: moves mirror.  On a well-formed board and for a column of
    [0, COLS), column [COLS - 1 - col] of the mirrored board is playable
    exactly when column [col] of the board is, and [make_move] there gives
    the mirror of what [make_move] gives in column [col]. *)
Theorem make_move_mirror_commutes (b : board) (col piece : Z) :
  wf_board b → 0 ≤ col < COLS →
  is_valid_move (mirror b) (COLS - 1 - col) = is_valid_move b col ∧
  make_move (mirror b) (COLS - 1 - col) piece
  = mirror <$> make_move b col piece.
Proof.
  intros Hwf Hcol. split; [| by apply make_move_mirror].
  rewrite is_valid_move_mirror by (done || lia). f_equal. lia.
Qed.

Lemma make_move_mirror_commutes_witness :
  (wf_board sample_board ∧ 0 ≤ 1 < COLS) ∧
  is_valid_move (mirror sample_board) (COLS - 1 - 1)
  = is_valid_move sample_board 1 ∧
  make_move (mirror sample_board) (COLS - 1 - 1) AI_PIECE
  = mirror <$> make_move sample_board 1 AI_PIECE.
Proof.
  split; [split; [exact sample_board_wf | done] |].
  apply (make_move_mirror_commutes sample_board 1 AI_PIECE).
  - exact sample_board_wf.
  - done.
Defined.

(** X22: the search values a position and its mirror image alike.  On a
    well-formed board, when the deadline is never reached, [minimax] with
    the full window returns the same score for the mirrored board as for
    the board, at every depth, for either side and either version. *)
Theorem minimax_mirror_same_score
    (now1 now2 : nat → float) (rand1 rand2 : nat → nat)
    (start_time1 time_limit1 start_time2 time_limit2 : float)
    (version1 version2 : Z)
    (b : board) (depth : nat) (maximizingPlayer : bool) (w1 w2 : world) :
  wf_board b →
  no_timeout now1 start_time1 time_limit1 →
  no_timeout now2 start_time2 time_limit2 →
  ∃ score move1 move2 w1' w2',
    minimax now1 rand1 b depth NegInf PosInf maximizingPlayer
            start_time1 time_limit1 version1 w1
    = Some ((score, move1), w1') ∧
    minimax now2 rand2 (mirror b) depth NegInf PosInf maximizingPlayer
            start_time2 time_limit2 version2 w2
    = Some ((score, move2), w2').
Proof.
  intros Hwf Hclock1 Hclock2.
  destruct (minimax_full_window now1 rand1 start_time1 time_limit1 version1
              depth b maximizingPlayer w1 Hclock1 Hwf) as (move1 & w1' & H1).
  destruct (minimax_full_window now2 rand2 start_time2 time_limit2 version2
              depth (mirror b) maximizingPlayer w2 Hclock2
              (wf_mirror b Hwf)) as (move2 & w2' & H2).
  rewrite game_value_mirror in H2 by done.
  by exists (game_value depth maximizingPlayer b), move1, move2, w1', w2'.
Qed.

Lemma minimax_mirror_same_score_witness :
  (wf_board sample_board ∧ no_timeout frozen_clock 0 1) ∧
  ∃ score move1 move2 w1' w2',
    minimax frozen_clock first_choice sample_board 3 NegInf PosInf true
            0 1 1 initial_world
    = Some ((score, move1), w1') ∧
    minimax frozen_clock first_choice (mirror sample_board) 3 NegInf PosInf
            true 0 1 2 initial_world
    = Some ((score, move2), w2').
Proof.
  split; [split; [exact sample_board_wf | exact frozen_clock_no_timeout] |].
  apply (minimax_mirror_same_score frozen_clock frozen_clock first_choice
           first_choice 0 1 0 1 1 2 sample_board 3 true initial_world
           initial_world).
  - exact sample_board_wf.
  - exact frozen_clock_no_timeout.
  - exact frozen_clock_no_timeout.
Defined.

(** ** What [print_board] shows *)

Lemma cell_text_char c :
  cell_text c = String.String (cell_char c) String.EmptyString.
Proof.
  unfold cell_text, cell_char.
  destruct (c =? EMPTY); [done |]. by destruct (c =? HUMAN_PIECE).
Qed.

Lemma cell_char_inj c c' :
  c = EMPTY ∨ c = HUMAN_PIECE ∨ c = AI_PIECE →
  c' = EMPTY ∨ c' = HUMAN_PIECE ∨ c' = AI_PIECE →
  cell_char c = cell_char c' → c = c'.
Proof.
  intros [-> | [-> | ->]] [-> | [-> | ->]]; vm_compute; congruence.
Qed.

Lemma row_line_5 a b c d e :
  row_line [a; b; c; d; e]
  = String.String "|" (String.String " " (String.String (cell_char a)
     (String.String " " (String.String "|" (String.String " "
      (String.String (cell_char b)
     (String.String " " (String.String "|" (String.String " "
      (String.String (cell_char c)
     (String.String " " (String.String "|" (String.String " "
      (String.String (cell_char d)
     (String.String " " (String.String "|" (String.String " "
      (String.String (cell_char e)
     (String.String " " (String.String "|"
        String.EmptyString)))))))))))))))))))).
Proof.
  unfold row_line. cbn [fmap list_fmap]. by rewrite !cell_text_char.
Qed.

(** X23: on a well-formed board [print_board] writes eight lines; the line
    of every row is 21 characters wide, as the line of column numbers
    written under the rows; the cell of column [col] is shown at position
    [2 + 4 * col] of its row's line, and the number [col + 1] that the
    player types for that column stands at the same position of the
    number line. *)
Theorem print_board_columns_aligned (b : board) :
  wf_board b →
  length (print_board b) = 8%nat ∧
  ∃ numbers,
    print_board b !! 6%nat = Some numbers ∧
    String.length numbers = 21%nat ∧
    ∀ row col, 0 ≤ row < ROWS → 0 ≤ col < COLS →
      ∃ line c,
        print_board b !! Z.to_nat row = Some line ∧
        cell b row col = Some c ∧
        String.length line = 21%nat ∧
        String.get (Z.to_nat (2 + 4 * col)) line = Some (cell_char c) ∧
        String.get (Z.to_nat (2 + 4 * col)) numbers
        = Some (digit_char (col + 1)).
Proof.
  intros Hwf. board_cells b Hwf. split; [done |].
  eexists. split; [reflexivity |]. split; [reflexivity |].
  intros row col Hrow Hcol. unfold ROWS, COLS in *.
  assert (row ∈ [0; 1; 2; 3; 4; 5]) as Hr by (rewrite !elem_of_cons; lia).
  assert (col ∈ [0; 1; 2; 3; 4]) as Hc by (rewrite !elem_of_cons; lia).
  clear Hrow Hcol. unfold print_board. cbn [fmap list_fmap].
  rewrite !row_line_5.
  index_cases Hr; index_cases Hc; eexists _, _;
    (split; [reflexivity |]); (split; [reflexivity |]);
    (split; [reflexivity |]); (split; reflexivity).
Qed.

Lemma print_board_columns_aligned_witness :
  wf_board sample_board ∧
  length (print_board sample_board) = 8%nat ∧
  ∃ numbers,
    print_board sample_board !! 6%nat = Some numbers ∧
    String.length numbers = 21%nat ∧
    ∀ row col, 0 ≤ row < ROWS → 0 ≤ col < COLS →
      ∃ line c,
        print_board sample_board !! Z.to_nat row = Some line ∧
        cell sample_board row col = Some c ∧
        String.length line = 21%nat ∧
        String.get (Z.to_nat (2 + 4 * col)) line = Some (cell_char c) ∧
        String.get (Z.to_nat (2 + 4 * col)) numbers
        = Some (digit_char (col + 1)).
Proof.
  split; [exact sample_board_wf |].
  apply (print_board_columns_aligned sample_board). exact sample_board_wf.
Defined.

(** X24: the display determines the position.  Two well-formed boards
    whose cells hold only [EMPTY], [HUMAN_PIECE] and [AI_PIECE], and for
    which [print_board] writes the same lines, are equal. *)
Theorem print_board_determines_board (b b' : board) :
  wf_board b → wf_board b' → pieces_only b → pieces_only b' →
  print_board b = print_board b' → b = b'.
Proof.
  intros Hwf Hwf' Hp Hp' Hprint.
  board_cells b Hwf. board_cells b' Hwf'. unfold pieces_only in *.
  unfold print_board in Hprint. cbn [fmap list_fmap app] in Hprint.
  rewrite !row_line_5 in Hprint.
  repeat (apply Forall_cons in Hp as [?Hrow Hp]).
  repeat (apply Forall_cons in Hp' as [?Hrow Hp']).
  repeat match goal with
         | H : Forall _ (_ :: _) |- _ => apply Forall_cons in H as [? H]
         end.
  injection Hprint as Hprint. intros.
  repeat match goal with
         | H : cell_char ?x = cell_char ?y |- _ =>
             apply cell_char_inj in H; [subst | assumption | assumption]
         end.
  reflexivity.
Qed.

Lemma sample_board_pieces_only : pieces_only sample_board.
Proof.
  unfold pieces_only, sample_board.
  repeat first [apply Forall_nil_2 | apply Forall_cons_2];
    first [by left | by right; left | by right; right].
Qed.

Lemma print_board_determines_board_witness :
  (wf_board sample_board ∧ wf_board sample_board ∧
   pieces_only sample_board ∧ pieces_only sample_board ∧
   print_board sample_board = print_board sample_board) ∧
  sample_board = sample_board.
Proof.
  split.
  { split; [exact sample_board_wf |]. split; [exact sample_board_wf |].
    split; [exact sample_board_pieces_only |].
    split; [exact sample_board_pieces_only | reflexivity]. }
  apply (print_board_determines_board sample_board sample_board).
  - exact sample_board_wf.
  - exact sample_board_wf.
  - exact sample_board_pieces_only.
  - exact sample_board_pieces_only.
  - reflexivity.
Defined.

(** ** The order in which version 2 tries the moves *)

Section SortedFacts.
Context {A : Type} (key : A → Z) (reverse : bool) (before : A → A → Prop).

Lemma sorted_insert_sorted x l :
  Forall (before x) l →
  StronglySorted (sorted_before key reverse before) l →
  StronglySorted (sorted_before key reverse before)
    (sorted_insert key reverse x l).
Proof.
  intros Hx Hl. induction Hl as [| y l Hl IH Hy]; simpl.
  { by repeat constructor. }
  apply Forall_cons in Hx as [Hxy Hx].
  unfold comes_first.
  assert ((if reverse then key x <? key y else key y <? key x) = true ↔
          (if reverse then key x < key y else key y < key x)) as Hfirst.
  { destruct reverse; apply Z.ltb_lt. }
  destruct (if reverse then key x <? key y else key y <? key x) eqn:Hc.
  - constructor; [by apply IH |].
    rewrite sorted_insert_perm. constructor; [| done].
    left. by apply Hfirst.
  - assert (¬ (if reverse then key x < key y else key y < key x)) as Hnot.
    { intros Hlt. apply Hfirst in Hlt. congruence. }
    constructor; [by constructor |].
    assert (sorted_before key reverse before x y) as Hbefore.
    { destruct (Z.eq_dec (key x) (key y)) as [Heq | Hne]; [by right |].
      left. destruct reverse; lia. }
    constructor; [done |].
    rewrite Forall_forall in Hy, Hx. apply Forall_forall. intros z Hz.
    specialize (Hy z Hz). specialize (Hx z Hz).
    destruct (Z.eq_dec (key x) (key z)) as [Heq | Hne]; [by right |].
    left. destruct Hy as [Hlt | [Heq _]]; destruct reverse; lia.
Qed.

Lemma py_sorted_sorted l :
  StronglySorted before l →
  StronglySorted (sorted_before key reverse before) (py_sorted key reverse l).
Proof.
  unfold py_sorted. induction 1 as [| x l Hl IH Hx]; simpl; [constructor |].
  apply sorted_insert_sorted; [| done].
  fold (py_sorted key reverse l). by rewrite py_sorted_perm.
Qed.
End SortedFacts.

Lemma order_moves_loop_scores b piece moves : ∀ acc,
  wf_board b → Forall (λ m, is_valid_move b m = Some true) moves →
  ∃ scored,
    for_each (λ move move_scores,
                temp_board ← make_move b move piece;
                score ← evaluate_board temp_board AI_PIECE;
                Some (move_scores ++ [(score, move)]))
             moves acc = Some (acc ++ scored) ∧
    snd <$> scored = moves ∧
    Forall (λ p, ∃ temp_board,
              make_move b p.2 piece = Some temp_board ∧
              evaluate_board temp_board AI_PIECE = Some p.1) scored.
Proof.
  induction moves as [| m moves IH]; intros acc Hwf Hvalid.
  - exists []. by rewrite app_nil_r.
  - apply Forall_cons in Hvalid as [Hm Hvalid]. simpl.
    destruct (make_move_valid b m piece Hwf Hm) as (temp & Htemp & Hwf').
    rewrite Htemp, bind_Some_l.
    destruct (evaluate_board_is_Some temp AI_PIECE Hwf') as [s Hs].
    rewrite Hs, !bind_Some_l.
    destruct (IH (acc ++ [(s, m)]) Hwf Hvalid)
      as (scored & -> & Hsnd & Hall).
    exists ((s, m) :: scored). split; [by rewrite <- app_assoc |].
    split; [csimpl; by rewrite Hsnd |].
    constructor; [by exists temp | done].
Qed.

Lemma StronglySorted_fmap_inv {A B} (f : A → B) (R : B → B → Prop) l :
  StronglySorted R (f <$> l) → StronglySorted (λ x y, R (f x) (f y)) l.
Proof.
  induction l as [| x l IH]; [constructor |].
  rewrite fmap_cons. intros Hs. inversion Hs as [| y k Hl Hx]; subst.
  constructor; [by apply IH |].
  rewrite Forall_forall in Hx. apply Forall_forall. intros y Hy.
  apply Hx, list_elem_of_fmap. by exists y.
Qed.

Lemma StronglySorted_Forall_impl {A} (R R' : A → A → Prop) (P : A → Prop) l :
  (∀ x y, P x → P y → R x y → R' x y) →
  Forall P l → StronglySorted R l → StronglySorted R' l.
Proof.
  intros Himpl HP Hl. induction Hl as [| x l Hl IH Hx]; [constructor |].
  apply Forall_cons in HP as [HPx HP]. constructor; [by apply IH |].
  rewrite Forall_forall in Hx, HP. apply Forall_forall. intros y Hy.
  apply Himpl; [done | by apply HP | by apply Hx].
Qed.

(** X25: the moves as version 2 tries them.  On a well-formed board,
    the reordering of the valid moves returns, and its result holds the
    same moves, by decreasing static score of the position after the move
    when the AI is to move and by increasing score when the human is to
    move; moves with equal scores stay in increasing column order. *)
Theorem order_moves_by_child_score (b : board) (maximizingPlayer : bool) :
  wf_board b →
  ∃ valid_moves ordered (child_score : Z → Z),
    get_valid_moves b = Some valid_moves ∧
    order_moves b maximizingPlayer valid_moves = Some ordered ∧
    ordered ≡ₚ valid_moves ∧
    (∀ move, move ∈ valid_moves →
       ∃ temp_board,
         make_move b move (if maximizingPlayer then AI_PIECE else HUMAN_PIECE)
         = Some temp_board ∧
         evaluate_board temp_board AI_PIECE = Some (child_score move)) ∧
    StronglySorted
      (λ m1 m2,
         (if maximizingPlayer then child_score m2 < child_score m1
          else child_score m1 < child_score m2) ∨
         (child_score m1 = child_score m2 ∧ m1 < m2))
      ordered.
Proof.
  intros Hwf.
  set (piece := if maximizingPlayer then AI_PIECE else HUMAN_PIECE).
  set (child_score := λ move,
         default 0 (make_move b move piece
                    ≫= λ temp_board, evaluate_board temp_board AI_PIECE)).
  pose proof (get_valid_moves_filter b Hwf) as Hmoves.
  set (moves := filter _ _) in Hmoves.
  assert (StronglySorted Z.lt moves) as Hsorted
    by apply filter_sorted, py_range_sorted.
  assert (Forall (λ m, is_valid_move b m = Some true) moves) as Hvalid
    by (by apply valid_moves_Forall).
  destruct (order_moves_loop_scores b piece moves [] Hwf Hvalid)
    as (scored & Hloop & Hsnd & Hscores).
  assert (Forall (λ p : Z * Z, p.1 = child_score p.2) scored) as Hkeys.
  { eapply Forall_impl; [done |]. intros [s m] (temp & Htemp & Hs).
    simpl in *. unfold child_score. by rewrite Htemp, bind_Some_l, Hs. }
  exists moves, (snd <$> py_sorted fst maximizingPlayer scored), child_score.
  split; [done |]. split.
  { unfold order_moves. fold piece. by rewrite Hloop, bind_Some_l. }
  split.
  { rewrite <- Hsnd. apply fmap_Permutation, py_sorted_perm. }
  split.
  { intros move Hmove. rewrite <- Hsnd in Hmove.
    apply list_elem_of_fmap in Hmove as ([s m] & -> & Hin).
    rewrite Forall_forall in Hscores, Hkeys.
    destruct (Hscores _ Hin) as (temp & Htemp & Hs).
    exists temp. split; [done |]. simpl in Hs.
    by rewrite <- (Hkeys _ Hin). }
  apply (StronglySorted_fmap snd
           (λ x y : Z * Z,
              (if maximizingPlayer then child_score y.2 < child_score x.2
               else child_score x.2 < child_score y.2) ∨
              (child_score x.2 = child_score y.2 ∧ x.2 < y.2)));
    [done |].
  apply (StronglySorted_Forall_impl
           (λ x y : Z * Z,
              (if maximizingPlayer then y.1 < x.1 else x.1 < y.1) ∨
              (x.1 = y.1 ∧ x.2 < y.2))
           _ (λ p, p.1 = child_score p.2)).
  - intros [s1 m1] [s2 m2] H1 H2. simpl in *. by subst.
  - by rewrite py_sorted_perm.
  - apply (py_sorted_sorted fst maximizingPlayer (λ x y, x.2 < y.2)).
    apply StronglySorted_fmap_inv. by rewrite Hsnd.
Qed.

Lemma order_moves_by_child_score_witness :
  wf_board sample_board ∧
  ∃ valid_moves ordered (child_score : Z → Z),
    get_valid_moves sample_board = Some valid_moves ∧
    order_moves sample_board true valid_moves = Some ordered ∧
    ordered ≡ₚ valid_moves ∧
    (∀ move, move ∈ valid_moves →
       ∃ temp_board,
         make_move sample_board move AI_PIECE = Some temp_board ∧
         evaluate_board temp_board AI_PIECE = Some (child_score move)) ∧
    StronglySorted
      (λ m1 m2,
         child_score m2 < child_score m1 ∨
         (child_score m1 = child_score m2 ∧ m1 < m2))
      ordered.
Proof.
  split; [exact sample_board_wf |].
  apply (order_moves_by_child_score sample_board true).
  exact sample_board_wf.
Defined.
